(** * MailCanvas: the document/layout engine, embedded and verified

    A shallow embedding of the editor store (grouping, constraint resize,
    design tokens, temporal history), of the smart-guide snapping function
    and of the MJML export compiler, followed by the properties the
    specification states about them.

    Conventions of the embedding.
    - A JavaScript [number] is the rational it denotes ([Q]); equality of
      two numbers is equality of their values ([==]).  Comparisons,
      [Math.min], [Math.max], [Math.abs] and [Math.round]
      ([floor (v + 1/2)]) are exact on doubles and are the exact ones here.
      The sums, differences and quotients of grouping, ungrouping,
      alignment, nudging and distribution are the binary64 ones ([B64]:
      the exact result rounded to the nearest double, ties to even); the
      constraint resize, the canvas modes, the snapping and the export are
      written with exact arithmetic, and what is stated of them does not
      rest on the last digit or is stated on whole pixels, where the two
      agree.  Infinity, NaN and the sign of zero are outside the model.
    - A JavaScript string is a [string] of 8-bit code units.
    - [string | null] and optional fields are [option]; the truthiness tests
      of the source ([!b.parentId], [a || b]) are written out.
    - Arrays are lists; [filter], [map], [find], [includes] are the list
      functions; [sort] with a comparator is the stable sort the language
      standard prescribes.
    - Fresh identifiers ([Date.now], [Math.random]) and the rendering of a
      number as text are inputs of the operations that use them. *)

From Stdlib Require Import ZArith QArith Qabs Qround Lqa Lia.
From Stdlib Require Import Bool Ascii String DecimalString.
From Stdlib Require Import List Permutation Sorted.
Import ListNotations.

Open Scope string_scope.
Open Scope list_scope.

Infix "+++" := String.append (right associativity, at level 60) : string_scope.

(* ================================================================== *)
(** ** Numbers *)

Definition number := Q.

Definition Qlt_bool (a b : Q) : bool := negb (Qle_bool b a).

(** [Math.max(a, b)] and [Math.min(a, b)] for two arguments. *)
Definition Math_max (a b : number) : number := if Qle_bool a b then b else a.
Definition Math_min (a b : number) : number := if Qle_bool a b then a else b.

Definition Math_abs (a : number) : number := Qabs a.

(** [Math.round(v)]: the nearest integer, halves going up. *)
Definition Math_round (v : number) : number := inject_Z (Qfloor (v + (1 # 2))).

(** [Math.min(...vs)] and [Math.max(...vs)] over a spread array; the
    source only spreads arrays of at least two elements, the empty case
    is JavaScript's [Infinity], for which [0] stands here. *)
Fixpoint Math_min_list (vs : list number) : number :=
  match vs with
  | [] => 0%Q
  | [v] => v
  | v :: rest => Math_min v (Math_min_list rest)
  end.

Fixpoint Math_max_list (vs : list number) : number :=
  match vs with
  | [] => 0%Q
  | [v] => v
  | v :: rest => Math_max v (Math_max_list rest)
  end.

(** *** Binary64 arithmetic

    A finite double is the rational it denotes.  An arithmetic operation
    of the language returns the double nearest to the exact result, a tie
    going to the double with the even significand; below the smallest
    normal number the doubles are the multiples of 2^-1074. *)
Module B64.
Local Open Scope Z_scope.

(** The integer nearest to [n / d] for [0 <= n], ties to even. *)
Definition roundHalfEven (n : Z) (d : positive) : Z :=
  let f := n / Zpos d in
  let r := n mod Zpos d in
  match 2 * r ?= Zpos d with
  | Lt => f
  | Gt => f + 1
  | Eq => if Z.even f then f else f + 1
  end.

(** The exponent [e] of the unit in the last place of [n / d], [0 < n]:
    [2^52 <= (n / d) / 2^e < 2^53], and [-1074] at least. *)
Definition exponentOf (n : Z) (d : positive) : Z :=
  let e0 := Z.log2 n - Z.log2 (Zpos d) - 52 in
  let below :=
    if 0 <=? e0 then n <? 2 ^ 52 * (Zpos d * 2 ^ e0)
    else n * 2 ^ (- e0) <? 2 ^ 52 * Zpos d in
  Z.max (if below then e0 - 1 else e0) (-1074).

(** The double nearest to [n / d], [0 < n]. *)
Definition nearest (n : Z) (d : positive) : Q :=
  let e := exponentOf n d in
  if 0 <=? e
  then inject_Z (roundHalfEven n (d * Z.to_pos (2 ^ e)) * 2 ^ e)
  else Qred (roundHalfEven (n * 2 ^ (- e)) d # Z.to_pos (2 ^ (- e))).

(** The double nearest to a rational. *)
Definition round64 (q : Q) : Q :=
  let r := Qred q in
  match Qnum r with
  | Z0 => 0%Q
  | Zpos p => nearest (Zpos p) (Qden r)
  | Zneg p => Qopp (nearest (Zpos p) (Qden r))
  end.

(** [a + b], [a - b], [a * b] and [a / b] on doubles. *)
Definition add (a b : Q) : Q := round64 (a + b)%Q.
Definition sub (a b : Q) : Q := round64 (a - b)%Q.
Definition mul (a b : Q) : Q := round64 (a * b)%Q.
Definition div (a b : Q) : Q := round64 (a / b)%Q.

End B64.

(* ================================================================== *)
(** ** Strings *)

Definition strNonEmpty (s : string) : bool :=
  match s with EmptyString => false | String _ _ => true end.

(** [a || d] on an optional string: [undefined], [null] and the empty
    string are falsy. *)
Definition orDefault (o : option string) (d : string) : string :=
  match o with
  | Some s => if strNonEmpty s then s else d
  | None => d
  end.

(** [!s] on [string | null]. *)
Definition falsy (o : option string) : bool :=
  match o with
  | Some s => negb (strNonEmpty s)
  | None => true
  end.

(** [a === b] on [string | null] against a string. *)
Definition optStrEq (o : option string) (s : string) : bool :=
  match o with
  | Some t => String.eqb t s
  | None => false
  end.

(** [ids.includes(id)]. *)
Definition includes (ids : list string) (i : string) : bool :=
  existsb (String.eqb i) ids.

(* ================================================================== *)
(** ** Data model (types/editor) *)

Inductive BlockType :=
| TyText | TyImage | TyButton | TySpacer | TyDivider
| TySocial | TyShape | TyGroup | TyTable | TyList.

Definition BlockType_eqb (a b : BlockType) : bool :=
  match a, b with
  | TyText, TyText | TyImage, TyImage | TyButton, TyButton
  | TySpacer, TySpacer | TyDivider, TyDivider | TySocial, TySocial
  | TyShape, TyShape | TyGroup, TyGroup | TyTable, TyTable
  | TyList, TyList => true
  | _, _ => false
  end.

Record SocialProfile := mkSocialProfile {
  network : string;
  enabled : bool;
  url : string
}.

Inductive IconColor := Brand | MonoDark | MonoLight | Custom.

Record SocialData := mkSocialData {
  networks : list SocialProfile;
  iconSize : number;
  gap : number;
  iconStyle : string;
  iconColor : IconColor;
  customColor : option string
}.

Record TableData := mkTableData {
  rows : number;
  cols : number;
  data : list (list string);
  hasHeader : bool;
  borderColor : string
}.

Inductive ListStyle := Disc | Decimal | Square.

Record ListData := mkListData {
  items : list string;
  list_style : ListStyle;
  list_gap : number
}.

(** [height: number | 'auto']. *)
Inductive Height := HNum (h : number) | HAuto.

Record BlockLayout := mkLayout {
  layout_x : number;
  layout_y : number;
  layout_width : number;
  layout_height : Height;
  layout_zIndex : Z
}.

(** The open-ended style record: string keys, string values. *)
Definition BlockStyles := list (string * string).

Fixpoint style_get (k : string) (st : BlockStyles) : option string :=
  match st with
  | [] => None
  | (k', v) :: rest => if String.eqb k k' then Some v else style_get k rest
  end.

Inductive HConstraint := HLeft | HRight | HCenter | HScale.
Inductive VConstraint := VTop | VBottom | VCenter | VScale.

Record Constraints := mkConstraints {
  horizontal : HConstraint;
  vertical : VConstraint
}.

Inductive ResponsiveMode := RFixed | RScale.

Record EditorBlock := mkBlock {
  block_id : string;
  block_type : BlockType;
  block_content : string;
  block_styles : BlockStyles;
  block_layout : BlockLayout;
  block_name : string;
  isLocked : bool;
  isVisible : bool;
  parentId : option string;
  socialData : option SocialData;
  tableData : option TableData;
  listData : option ListData;
  responsiveMode : option ResponsiveMode;
  desktopLayout : option BlockLayout;
  link : option string;
  constraints : option Constraints
}.

(** Object spreads [{...block, layout: l}], [{...block, parentId: p, layout: l}]
    and [{...layout, x: .., y: ..}]. *)
Definition with_layout (b : EditorBlock) (l : BlockLayout) : EditorBlock :=
  mkBlock (block_id b) (block_type b) (block_content b) (block_styles b) l
          (block_name b) (isLocked b) (isVisible b) (parentId b)
          (socialData b) (tableData b) (listData b) (responsiveMode b)
          (desktopLayout b) (link b) (constraints b).

Definition with_parent_layout (b : EditorBlock) (p : option string)
    (l : BlockLayout) : EditorBlock :=
  mkBlock (block_id b) (block_type b) (block_content b) (block_styles b) l
          (block_name b) (isLocked b) (isVisible b) p
          (socialData b) (tableData b) (listData b) (responsiveMode b)
          (desktopLayout b) (link b) (constraints b).

Definition with_xy (l : BlockLayout) (x y : number) : BlockLayout :=
  mkLayout x y (layout_width l) (layout_height l) (layout_zIndex l).

(* ================================================================== *)
(** ** The editor store (store/useEditorStore) *)

Record Viewport := mkViewport {
  zoom : number;
  viewport_x : number;
  viewport_y : number
}.

Inductive CanvasMode := Desktop | Mobile.

Record CanvasSettings := mkCanvasSettings {
  canvas_width : number;
  backgroundColor : string;
  showRulers : bool;
  showGrid : bool;
  mode : CanvasMode
}.

Inductive TokenType := TColor | TFont.

Record DesignToken := mkToken {
  token_id : string;
  token_name : string;
  token_value : string;
  token_type : TokenType
}.

Inductive InteractionMode := Idle | Selecting | Dragging | Resizing | Editing.

Record EditorState := mkState {
  blocks : list EditorBlock;
  selectedBlockIds : list string;
  clipboard : list EditorBlock;
  blockCounters : BlockType -> Z;
  canvasSettings : CanvasSettings;
  viewport : Viewport;
  expandedGroupIds : list string;
  interactionMode : InteractionMode;
  editingBlockId : option string;
  assets : list EditorBlock;
  variables : list DesignToken
}.

(** A partial state, as the callers of [set] pass it: the fields that are
    present replace the store's, the others are kept. *)
Record Patch := mkPatch {
  p_blocks : option (list EditorBlock);
  p_selectedBlockIds : option (list string);
  p_blockCounters : option (BlockType -> Z);
  p_canvasSettings : option CanvasSettings;
  p_expandedGroupIds : option (list string);
  p_variables : option (list DesignToken)
}.

Definition noPatch : Patch := mkPatch None None None None None None.

Definition orKeep {A : Type} (o : option A) (a : A) : A :=
  match o with Some v => v | None => a end.

Definition merge (s : EditorState) (p : Patch) : EditorState :=
  mkState (orKeep (p_blocks p) (blocks s))
          (orKeep (p_selectedBlockIds p) (selectedBlockIds s))
          (clipboard s)
          (orKeep (p_blockCounters p) (blockCounters s))
          (orKeep (p_canvasSettings p) (canvasSettings s))
          (viewport s)
          (orKeep (p_expandedGroupIds p) (expandedGroupIds s))
          (interactionMode s) (editingBlockId s) (assets s)
          (orKeep (p_variables p) (variables s)).

(** An action reads the store ([get()]) and either returns early or calls
    [set] with a partial state. *)
Definition Action := EditorState -> option Patch.

Definition apply (act : Action) (s : EditorState) : EditorState :=
  match act s with
  | Some p => merge s p
  | None => s
  end.

(** [blocks.reduce((max, b) => Math.max(max, b.layout?.zIndex || 0), 0)]. *)
Definition maxZIndexOf (bs : list EditorBlock) : Z :=
  fold_left (fun max b => Z.max max (layout_zIndex (block_layout b))) bs 0%Z.

(** [removeBlock(id)]. *)
Definition removeBlock (id : string) : Action := fun state =>
  Some (mkPatch
    (Some (filter (fun block => negb (String.eqb (block_id block) id))
                  (blocks state)))
    (Some (filter (fun sid => negb (String.eqb sid id))
                  (selectedBlockIds state)))
    None None None None).

Section Resize.
Local Open Scope Q_scope.

Definition defaultConstraints : Constraints := mkConstraints HLeft VTop.

(** The body of the [map] callback of [resizeCanvasWithConstraints]. *)
Definition resizeBlock (oldWidth newWidth : number) (block : EditorBlock)
    : EditorBlock :=
  let constraints :=
    match constraints block with Some c => c | None => defaultConstraints end in
  let layout := block_layout block in
  let x0 := layout_x layout in
  let w0 := layout_width layout in
  (* Apply horizontal constraint *)
  let '(x1, w1) :=
    match horizontal constraints with
    | HLeft => (x0, w0)
    | HRight =>
        let rightMargin := oldWidth - (x0 + w0) in
        (newWidth - w0 - rightMargin, w0)
    | HCenter =>
        let oldCenter := x0 + w0 / 2 in
        let centerRatio := oldCenter / oldWidth in
        ((newWidth * centerRatio) - w0 / 2, w0)
    | HScale =>
        let widthRatio := w0 / oldWidth in
        let xRatio := x0 / oldWidth in
        (Math_round (newWidth * xRatio), Math_round (newWidth * widthRatio))
    end in
  (* Clamp x to valid bounds *)
  let x2 := Math_max 0 (Math_min x1 (newWidth - w1)) in
  (* If block is wider than canvas after resize, scale it down *)
  let layout' :=
    if Qlt_bool newWidth w1 then
      let scaleFactor := newWidth / w1 in
      mkLayout 0 (layout_y layout) newWidth
        (match layout_height layout with
         | HNum h => HNum (Math_round (h * scaleFactor))
         | HAuto => HAuto
         end)
        (layout_zIndex layout)
    else
      mkLayout x2 (layout_y layout) w1 (layout_height layout)
        (layout_zIndex layout) in
  with_layout block layout'.

Definition resizeCanvasWithConstraints (newWidth : number) : Action :=
  fun state =>
  let oldWidth := canvas_width (canvasSettings state) in
  (* Don't process if width hasn't changed *)
  if Qeq_bool oldWidth newWidth then None
  else
    let updatedBlocks := map (resizeBlock oldWidth newWidth) (blocks state) in
    let cs := canvasSettings state in
    Some (mkPatch (Some updatedBlocks) None None
      (Some (mkCanvasSettings newWidth (backgroundColor cs) (showRulers cs)
                              (showGrid cs) (mode cs)))
      None None).

End Resize.

Section Hierarchy.
Local Open Scope Q_scope.

Definition isSelectedTopLevel (selectedBlockIds : list string)
    (b : EditorBlock) : bool :=
  includes selectedBlockIds (block_id b) && falsy (parentId b).

(** [typeof h === 'number' ? h : 100]. *)
Definition heightOr (d : number) (h : Height) : number :=
  match h with HNum v => v | HAuto => d end.

(** [groupSelectedBlocks()]; [now] and [rnd] are the renderings of
    [Date.now()] and of [Math.random().toString(36).substring(2, 9)]. *)
Definition groupSelectedBlocks (now rnd : string) : Action := fun state =>
  let selectedBlockIds := selectedBlockIds state in
  let blocks := blocks state in
  let blockCounters := blockCounters state in
  (* Need at least 2 blocks to group *)
  if (List.length selectedBlockIds <? 2)%nat then None
  else
    let selectedBlocks := filter (isSelectedTopLevel selectedBlockIds) blocks in
    if (List.length selectedBlocks <? 2)%nat then None
    else
      let minX := Math_min_list
        (map (fun b => layout_x (block_layout b)) selectedBlocks) in
      let minY := Math_min_list
        (map (fun b => layout_y (block_layout b)) selectedBlocks) in
      let maxX := Math_max_list
        (map (fun b => B64.add (layout_x (block_layout b))
                               (layout_width (block_layout b)))
             selectedBlocks) in
      let maxY := Math_max_list
        (map (fun b =>
                let height := heightOr 100 (layout_height (block_layout b)) in
                B64.add (layout_y (block_layout b)) height) selectedBlocks) in
      let groupWidth := B64.sub maxX minX in
      let groupHeight := B64.sub maxY minY in
      let groupId := "group_" +++ now +++ "_" +++ rnd in
      let newCounter := (blockCounters TyGroup + 1)%Z in
      let maxZIndex := maxZIndexOf blocks in
      let groupBlock :=
        mkBlock groupId TyGroup "" [("opacity", "1")]
          (mkLayout minX minY groupWidth (HNum groupHeight) (maxZIndex + 1)%Z)
          ("Group " +++ NilEmpty.string_of_int (Z.to_int newCounter))
          false true None None None None None None None
          (Some (mkConstraints HLeft VTop)) in
      let updatedBlocks := map (fun block =>
        if isSelectedTopLevel selectedBlockIds block then
          with_parent_layout block (Some groupId)
            (with_xy (block_layout block)
               (B64.sub (layout_x (block_layout block)) minX)
               (B64.sub (layout_y (block_layout block)) minY))
        else block) blocks in
      Some (mkPatch
        (Some (updatedBlocks ++ [groupBlock]))
        (Some [groupId])
        (Some (fun t => if BlockType_eqb t TyGroup then newCounter
                        else blockCounters t))
        None
        (Some (expandedGroupIds state ++ [groupId]))
        None).

(** [ungroupSelectedBlock()]. *)
Definition ungroupSelectedBlock : Action := fun state =>
  let blocks := blocks state in
  match selectedBlockIds state with
  | [groupId] =>
      match find (fun b => String.eqb (block_id b) groupId
                           && BlockType_eqb (block_type b) TyGroup) blocks with
      | None => None
      | Some groupBlock =>
          let kept :=
            filter (fun b => negb (String.eqb (block_id b) groupId)) blocks in
          let childIds :=
            map block_id
                (filter (fun block => optStrEq (parentId block) groupId) kept) in
          let updatedBlocks := map (fun block =>
            if optStrEq (parentId block) groupId then
              with_parent_layout block None
                (with_xy (block_layout block)
                   (B64.add (layout_x (block_layout block))
                            (layout_x (block_layout groupBlock)))
                   (B64.add (layout_y (block_layout block))
                            (layout_y (block_layout groupBlock))))
            else block) kept in
          Some (mkPatch (Some updatedBlocks) (Some childIds)
                        None None None None)
      end
  | _ => None  (* Need exactly one group selected *)
  end.

End Hierarchy.

(** *** Design tokens *)

(** [addVariable(variable)]: the new token's id is
    [var-${Date.now()}-${random}]. *)
Definition addVariable (now rnd : string) (name value : string)
    (ty : TokenType) : Action := fun state =>
  let newVariable := mkToken ("var-" +++ now +++ "-" +++ rnd) name value ty in
  Some (mkPatch None None None None None
                (Some (variables state ++ [newVariable]))).

(** [updateVariable(id, updates)], [updates] being a partial token. *)
Definition updateVariable (id : string) (uname uvalue : option string)
    (uty : option TokenType) : Action := fun state =>
  Some (mkPatch None None None None None
    (Some (map (fun v =>
                  if String.eqb (token_id v) id
                  then mkToken (token_id v) (orKeep uname (token_name v))
                               (orKeep uvalue (token_value v))
                               (orKeep uty (token_type v))
                  else v)
               (variables state)))).

(** [deleteVariable(id)]. *)
Definition deleteVariable (id : string) : Action := fun state =>
  Some (mkPatch None None None None None
    (Some (filter (fun v => negb (String.eqb (token_id v) id))
                  (variables state)))).

(* ================================================================== *)
(** ** History (the temporal middleware around the store) *)

(** The store's [partialize] option: the part of the state a history
    entry holds. *)
Record Snapshot := mkSnapshot {
  snap_blocks : list EditorBlock;
  snap_blockCounters : BlockType -> Z
}.

Definition partialize (state : EditorState) : Snapshot :=
  mkSnapshot (blocks state) (blockCounters state).

(** The store's [limit] option. *)
Definition limit : nat := 50.

Record Temporal := mkTemporal {
  pastStates : list Snapshot;
  futureStates : list Snapshot
}.

(** Modelled from the spec: the temporal middleware itself (the zundo
    package) is a dependency whose code is not part of the sources; section
    4.4 describes it.  On commit the pre-mutation snapshot is pushed on the
    past stack, the oldest entry being evicted at the cap, and the future
    stack is cleared. *)
Definition commit (pre : Snapshot) (h : Temporal) : Temporal :=
  let past := pastStates h in
  let past' := if (limit <=? List.length past)%nat then tl past else past in
  mkTemporal (past' ++ [pre]) [].

(** A snapshot is restored by setting the fields it holds. *)
Definition restore (state : EditorState) (snap : Snapshot) : EditorState :=
  merge state (mkPatch (Some (snap_blocks snap)) None
                       (Some (snap_blockCounters snap)) None None None).

(** Modelled from the spec: [undo()] is a no-op on an empty past stack;
    otherwise it pops one snapshot, pushes the current state's snapshot on
    the future stack and restores the popped one. *)
Definition undo (sh : EditorState * Temporal) : EditorState * Temporal :=
  let '(state, h) := sh in
  match rev (pastStates h) with
  | [] => sh
  | snap :: older =>
      (restore state snap,
       mkTemporal (rev older) (futureStates h ++ [partialize state]))
  end.

(** Modelled from the spec: [redo()] is symmetric. *)
Definition redo (sh : EditorState * Temporal) : EditorState * Temporal :=
  let '(state, h) := sh in
  match rev (futureStates h) with
  | [] => sh
  | snap :: newer =>
      (restore state snap,
       mkTemporal (pastStates h ++ [partialize state]) (rev newer))
  end.

(** An action run through the wrapped [set]: when the action calls [set]
    the pre-mutation snapshot is committed. *)
Definition dispatch (act : Action) (sh : EditorState * Temporal)
    : EditorState * Temporal :=
  let '(state, h) := sh in
  match act state with
  | Some p => (merge state p, commit (partialize state) h)
  | None => sh
  end.

(* ================================================================== *)
(** ** Smart guides (components/editor/SmartGuides) *)

Section SmartGuides.
Local Open Scope Q_scope.

(** Snap threshold in pixels. *)
Definition SNAP_THRESHOLD : number := 5.

Inductive GuideType := Vertical | Horizontal.

Definition GuideType_eqb (a b : GuideType) : bool :=
  match a, b with
  | Vertical, Vertical | Horizontal, Horizontal => true
  | _, _ => false
  end.

Record GuideLine := mkGuide {
  guide_type : GuideType;
  position : number;   (* x for vertical, y for horizontal *)
  guide_start : number;
  guide_end : number
}.

Record SnapResult := mkSnapResult {
  snapX : option number;
  snapY : option number;
  guides : list GuideLine
}.

Record BlockBounds := mkBounds {
  bb_id : string;
  bb_left : number;
  bb_right : number;
  bb_top : number;
  bb_bottom : number;
  bb_centerX : number;
  bb_centerY : number;
  bb_width : number;
  bb_height : number
}.

(** Get the bounding box of a block. *)
Definition getBlockBounds (block : EditorBlock) : BlockBounds :=
  let l := block_layout block in
  let x := layout_x l in
  let y := layout_y l in
  let width := layout_width l in
  let h := heightOr 50 (layout_height l) in  (* Default for 'auto' *)
  mkBounds (block_id block) x (x + width) y (y + h)
           (x + width / 2) (y + h / 2) width h.

(** One axis of the first pass: the snapped position so far ([null] is
    [None]) and the closest distance so far ([Infinity] is [None]). *)
Definition Closest := (option number * option number)%type.

(** [if (dist < SNAP_THRESHOLD && dist < closest) { closest = dist; snap = target; }] *)
Definition trySnap (dist target : number) (acc : Closest) : Closest :=
  let '(snap, closest) := acc in
  if Qlt_bool dist SNAP_THRESHOLD
     && match closest with None => true | Some c => Qlt_bool dist c end
  then (Some target, Some dist)
  else acc.

(** The five tests of the X axis against one candidate, in source order. *)
Definition snapXStep (currentLeft currentRight currentCenterX dragWidth : number)
    (acc : Closest) (other : BlockBounds) : Closest :=
  let acc := trySnap (Math_abs (currentLeft - bb_left other))
                     (bb_left other) acc in                 (* Left to Left *)
  let acc := trySnap (Math_abs (currentRight - bb_right other))
                     (bb_right other - dragWidth) acc in    (* Right to Right *)
  let acc := trySnap (Math_abs (currentLeft - bb_right other))
                     (bb_right other) acc in                (* Left to Right *)
  let acc := trySnap (Math_abs (currentRight - bb_left other))
                     (bb_left other - dragWidth) acc in     (* Right to Left *)
  trySnap (Math_abs (currentCenterX - bb_centerX other))
          (bb_centerX other - dragWidth / 2) acc.           (* Center to Center *)

(** The five tests of the Y axis against one candidate, in source order. *)
Definition snapYStep (currentTop currentBottom currentCenterY dragHeight : number)
    (acc : Closest) (other : BlockBounds) : Closest :=
  let acc := trySnap (Math_abs (currentTop - bb_top other))
                     (bb_top other) acc in                  (* Top to Top *)
  let acc := trySnap (Math_abs (currentBottom - bb_bottom other))
                     (bb_bottom other - dragHeight) acc in  (* Bottom to Bottom *)
  let acc := trySnap (Math_abs (currentTop - bb_bottom other))
                     (bb_bottom other) acc in               (* Top to Bottom *)
  let acc := trySnap (Math_abs (currentBottom - bb_top other))
                     (bb_top other - dragHeight) acc in     (* Bottom to Top *)
  trySnap (Math_abs (currentCenterY - bb_centerY other))
          (bb_centerY other - dragHeight / 2) acc.          (* Center to Center *)

Definition isSome {A : Type} (o : option A) : bool :=
  match o with Some _ => true | None => false end.

Definition pushIf (c : bool) (g : GuideLine) : list GuideLine :=
  if c then [g] else [].

(** The guides the second pass pushes for one candidate, in push order. *)
Definition guidesFor (snapX snapY : option number)
    (finalX finalY finalRight finalBottom finalCenterX finalCenterY : number)
    (other : BlockBounds) : list GuideLine :=
  (if isSome snapX then
     pushIf (Qlt_bool (Math_abs (finalX - bb_left other)) 1)
       (mkGuide Vertical (bb_left other)
          (Math_min finalY (bb_top other))
          (Math_max finalBottom (bb_bottom other)))
     ++ pushIf (Qlt_bool (Math_abs (finalRight - bb_right other)) 1)
       (mkGuide Vertical (bb_right other)
          (Math_min finalY (bb_top other))
          (Math_max finalBottom (bb_bottom other)))
     ++ pushIf (Qlt_bool (Math_abs (finalCenterX - bb_centerX other)) 1)
       (mkGuide Vertical (bb_centerX other)
          (Math_min finalY (bb_top other))
          (Math_max finalBottom (bb_bottom other)))
   else [])
  ++
  (if isSome snapY then
     pushIf (Qlt_bool (Math_abs (finalY - bb_top other)) 1)
       (mkGuide Horizontal (bb_top other)
          (Math_min finalX (bb_left other))
          (Math_max finalRight (bb_right other)))
     ++ pushIf (Qlt_bool (Math_abs (finalBottom - bb_bottom other)) 1)
       (mkGuide Horizontal (bb_bottom other)
          (Math_min finalX (bb_left other))
          (Math_max finalRight (bb_right other)))
     ++ pushIf (Qlt_bool (Math_abs (finalCenterY - bb_centerY other)) 1)
       (mkGuide Horizontal (bb_centerY other)
          (Math_min finalX (bb_left other))
          (Math_max finalRight (bb_right other)))
   else []).

(** [g.type === guide.type && Math.abs(g.position - guide.position) < 1] *)
Definition sameLine (guide g : GuideLine) : bool :=
  GuideType_eqb (guide_type g) (guide_type guide)
  && Qlt_bool (Math_abs (position g - position guide)) 1.

(** [self.findIndex(p)], [None] standing for [-1]. *)
Fixpoint findIndex {A : Type} (p : A -> bool) (l : list A) : option nat :=
  match l with
  | [] => None
  | a :: rest =>
      if p a then Some O
      else match findIndex p rest with
           | Some i => Some (S i)
           | None => None
           end
  end.

(** [self.filter((guide, index, self) => index === self.findIndex(...))] *)
Definition dedupeGuides (self : list GuideLine) : list GuideLine :=
  map snd
    (filter (fun ig : nat * GuideLine =>
               match findIndex (sameLine (snd ig)) self with
               | Some k => Nat.eqb (fst ig) k
               | None => false
               end)
            (combine (seq 0 (List.length self)) self)).

(** Calculate snap positions and guide lines. *)
Definition calculateSnapping (draggingBlock : EditorBlock)
    (dragX dragY : number) (otherBlocks : list EditorBlock) : SnapResult :=
  let dragBounds := getBlockBounds draggingBlock in
  let dragWidth := bb_width dragBounds in
  let dragHeight := bb_height dragBounds in
  (* Current position during drag *)
  let currentLeft := dragX in
  let currentRight := dragX + dragWidth in
  let currentTop := dragY in
  let currentBottom := dragY + dragHeight in
  let currentCenterX := dragX + dragWidth / 2 in
  let currentCenterY := dragY + dragHeight / 2 in
  (* Cache other block bounds *)
  let otherBounds :=
    map getBlockBounds
      (filter (fun b => negb (String.eqb (block_id b) (block_id draggingBlock))
                        && isVisible b) otherBlocks) in
  (* Track closest snaps *)
  let '((snapX, _), (snapY, _)) :=
    fold_left
      (fun (acc : Closest * Closest) other =>
         (snapXStep currentLeft currentRight currentCenterX dragWidth
                    (fst acc) other,
          snapYStep currentTop currentBottom currentCenterY dragHeight
                    (snd acc) other))
      otherBounds ((None, None), (None, None)) in
  (* Generate guide lines for snapped positions *)
  let finalX := match snapX with Some v => v | None => dragX end in
  let finalY := match snapY with Some v => v | None => dragY end in
  let finalRight := finalX + dragWidth in
  let finalBottom := finalY + dragHeight in
  let finalCenterX := finalX + dragWidth / 2 in
  let finalCenterY := finalY + dragHeight / 2 in
  let guides :=
    flat_map (guidesFor snapX snapY finalX finalY finalRight finalBottom
                        finalCenterX finalCenterY) otherBounds in
  (* Deduplicate guides *)
  mkSnapResult snapX snapY (dedupeGuides guides).

End SmartGuides.

(* ================================================================== *)
(** ** The export compiler (utils/mjml-generator) *)

Definition dq : string := String (ascii_of_nat 34) "".
Definition nl : string := String (ascii_of_nat 10) "".

(** [parts.join(sep)]. *)
Fixpoint join (sep : string) (parts : list string) : string :=
  match parts with
  | [] => ""
  | [p] => p
  | p :: rest => p +++ sep +++ join sep rest
  end.

(** [s.replace(/c/g, r)] for a one-character pattern. *)
Fixpoint replaceAll (c : ascii) (r : string) (s : string) : string :=
  match s with
  | EmptyString => EmptyString
  | String a rest =>
      if Ascii.eqb a c then r +++ replaceAll c r rest
      else String a (replaceAll c r rest)
  end.

(** Escape HTML entities in text content. *)
Definition escapeHtml (text : string) : string :=
  replaceAll "'" "&#039;"
    (replaceAll (ascii_of_nat 34) "&quot;"
      (replaceAll ">" "&gt;"
        (replaceAll "<" "&lt;"
          (replaceAll "&" "&amp;" text)))).

(** [s.startsWith(p)]. *)
Fixpoint startsWith (s p : string) {struct p} : bool :=
  match p with
  | EmptyString => true
  | String c p' =>
      match s with
      | EmptyString => false
      | String a s' => Ascii.eqb a c && startsWith s' p'
      end
  end.

(** White space as [trim] sees it, among 8-bit code units. *)
Definition isWhiteSpace (a : ascii) : bool :=
  let n := nat_of_ascii a in
  ((9 <=? n) && (n <=? 13) || (n =? 32) || (n =? 160))%nat.

Fixpoint trimStart (s : string) : string :=
  match s with
  | EmptyString => EmptyString
  | String a rest => if isWhiteSpace a then trimStart rest else s
  end.

Fixpoint revString (s acc : string) : string :=
  match s with
  | EmptyString => acc
  | String a rest => revString rest (String a acc)
  end.

Definition trim (s : string) : string :=
  revString (trimStart (revString (trimStart s) "")) "".

(** [xs.map(f)] for a callback that may fail to return. *)
Fixpoint mapM {A B : Type} (f : A -> option B) (l : list A) : option (list B) :=
  match l with
  | [] => Some []
  | a :: rest =>
      match f a with
      | None => None
      | Some b =>
          match mapM f rest with
          | None => None
          | Some bs => Some (b :: bs)
          end
      end
  end.

(** [[...bs].sort((a, b) => a.layout.y - b.layout.y)]: the stable sort by
    ascending [y]. *)
Fixpoint insertByY (b : EditorBlock) (sorted : list EditorBlock)
    : list EditorBlock :=
  match sorted with
  | [] => [b]
  | h :: rest =>
      if Qle_bool (layout_y (block_layout b)) (layout_y (block_layout h))
      then b :: sorted
      else h :: insertByY b rest
  end.

Definition sortByY (bs : list EditorBlock) : list EditorBlock :=
  fold_right insertByY [] bs.

(** Social network brand colors for export. *)
Definition SOCIAL_BRAND_COLORS : list (string * string) :=
  [ ("x", "#000000"); ("linkedin", "#0A66C2"); ("facebook", "#1877F2");
    ("instagram", "#E4405F"); ("youtube", "#FF0000"); ("tiktok", "#000000");
    ("threads", "#000000"); ("pinterest", "#E60023"); ("snapchat", "#FFFC00");
    ("whatsapp", "#25D366"); ("telegram", "#26A5E4"); ("discord", "#5865F2");
    ("reddit", "#FF4500"); ("github", "#181717"); ("dribbble", "#EA4C89");
    ("behance", "#1769FF"); ("medium", "#000000"); ("twitch", "#9146FF");
    ("spotify", "#1DB954"); ("apple", "#000000"); ("email", "#EA4335");
    ("website", "#6B7280") ].

(** [n || d] on a number: zero is falsy. *)
Definition numOr (n d : number) : number := if Qeq_bool n 0 then d else n.

Section ExportCompiler.

(** The text of a number in a template literal. *)
Variable numToString : number -> string.

(** The variable resolver (utils/variable-resolver) is a module of its
    own; the generator is embedded over any resolver, and
    [VariableResolver] below embeds the two functions of the module. *)
Variable resolveStyles : BlockStyles -> list DesignToken -> BlockStyles.
Variable resolveColor : string -> list DesignToken -> option string.

(** Generate MJML for a Text block. *)
Definition generateTextMJML (block : EditorBlock)
    (variables : list DesignToken) : string :=
  let styles := resolveStyles (block_styles block) variables in
  let color := orDefault (style_get "color" styles) "#1e293b" in
  let fontSize := orDefault (style_get "fontSize" styles) "16px" in
  let fontFamily := orDefault (style_get "fontFamily" styles) "Arial, sans-serif" in
  let fontWeight := orDefault (style_get "fontWeight" styles) "400" in
  let textAlign := orDefault (style_get "textAlign" styles) "left" in
  let lineHeight := orDefault (style_get "lineHeight" styles) "1.5" in
  let padding := orDefault (style_get "padding" styles) "12px" in
  "<mj-text " +++ nl
  +++ "    color=" +++ dq +++ color +++ dq +++ " " +++ nl
  +++ "    font-size=" +++ dq +++ fontSize +++ dq +++ " " +++ nl
  +++ "    font-family=" +++ dq +++ fontFamily +++ dq +++ " " +++ nl
  +++ "    font-weight=" +++ dq +++ fontWeight +++ dq +++ " " +++ nl
  +++ "    align=" +++ dq +++ textAlign +++ dq +++ " " +++ nl
  +++ "    line-height=" +++ dq +++ lineHeight +++ dq +++ nl
  +++ "    padding=" +++ dq +++ padding +++ dq +++ nl
  +++ "  >" +++ escapeHtml (block_content block) +++ "</mj-text>".

(** Generate MJML for a Button block. *)
Definition generateButtonMJML (block : EditorBlock)
    (variables : list DesignToken) : string :=
  let styles := resolveStyles (block_styles block) variables in
  let backgroundColor := orDefault (style_get "backgroundColor" styles) "#0d9488" in
  let color := orDefault (style_get "color" styles) "#ffffff" in
  let fontSize := orDefault (style_get "fontSize" styles) "14px" in
  let fontFamily := orDefault (style_get "fontFamily" styles) "Arial, sans-serif" in
  let fontWeight := orDefault (style_get "fontWeight" styles) "600" in
  let borderRadius := orDefault (style_get "borderRadius" styles) "6px" in
  let padding := orDefault (style_get "padding" styles) "12px 24px" in
  let href := orDefault (link block) "#" in
  "<mj-button " +++ nl
  +++ "    background-color=" +++ dq +++ backgroundColor +++ dq +++ " " +++ nl
  +++ "    color=" +++ dq +++ color +++ dq +++ " " +++ nl
  +++ "    font-size=" +++ dq +++ fontSize +++ dq +++ " " +++ nl
  +++ "    font-family=" +++ dq +++ fontFamily +++ dq +++ " " +++ nl
  +++ "    font-weight=" +++ dq +++ fontWeight +++ dq +++ " " +++ nl
  +++ "    border-radius=" +++ dq +++ borderRadius +++ dq +++ " " +++ nl
  +++ "    padding=" +++ dq +++ padding +++ dq +++ nl
  +++ "    href=" +++ dq +++ escapeHtml href +++ dq +++ nl
  +++ "  >" +++ escapeHtml (block_content block) +++ "</mj-button>".

(** Generate MJML for an Image block. *)
Definition generateImageMJML (block : EditorBlock)
    (variables : list DesignToken) : string :=
  let styles := resolveStyles (block_styles block) variables in
  let src := block_content block in
  let width := numToString (layout_width (block_layout block)) +++ "px" in
  let borderRadius := orDefault (style_get "borderRadius" styles) "0px" in
  let padding := orDefault (style_get "padding" styles) "0" in
  let alt := orDefault (Some (block_name block)) "Image" in
  (* Skip blob URLs (local uploads) - they won't work in emails *)
  if startsWith src "blob:" then
    "<mj-text padding=" +++ dq +++ "10px" +++ dq +++ " color=" +++ dq
    +++ "#ef4444" +++ dq +++ " font-size=" +++ dq +++ "12px" +++ dq +++ ">" +++ nl
    +++ "      [Image: Please replace with a hosted URL]" +++ nl
    +++ "    </mj-text>"
  else
    "<mj-image " +++ nl
    +++ "    src=" +++ dq +++ escapeHtml src +++ dq +++ " " +++ nl
    +++ "    width=" +++ dq +++ width +++ dq +++ " " +++ nl
    +++ "    border-radius=" +++ dq +++ borderRadius +++ dq +++ nl
    +++ "    padding=" +++ dq +++ padding +++ dq +++ nl
    +++ "    alt=" +++ dq +++ escapeHtml alt +++ dq +++ nl
    +++ "  />".

(** Generate MJML for a Spacer block. *)
Definition generateSpacerMJML (block : EditorBlock) : string :=
  let height :=
    match layout_height (block_layout block) with
    | HNum h => numToString h +++ "px"
    | HAuto => "40px"
    end in
  "<mj-spacer height=" +++ dq +++ height +++ dq +++ " />".

(** Generate MJML for a Divider block. *)
Definition generateDividerMJML (block : EditorBlock)
    (variables : list DesignToken) : string :=
  let styles := resolveStyles (block_styles block) variables in
  let borderColor := orDefault (style_get "borderColor" styles) "#e2e8f0" in
  let borderWidth := orDefault (style_get "borderWidth" styles) "1px" in
  "<mj-divider " +++ nl
  +++ "    border-color=" +++ dq +++ borderColor +++ dq +++ " " +++ nl
  +++ "    border-width=" +++ dq +++ borderWidth +++ dq +++ nl
  +++ "    padding=" +++ dq +++ "16px 0" +++ dq +++ nl
  +++ "  />".

(** Generate MJML for a Shape block. *)
Definition generateShapeMJML (block : EditorBlock)
    (variables : list DesignToken) : string :=
  let styles := resolveStyles (block_styles block) variables in
  let shapeType := block_content block in  (* 'rectangle', 'circle', 'line' *)
  let fill := orDefault (style_get "fill" styles) "#0d9488" in
  let height :=
    match layout_height (block_layout block) with
    | HNum h => numToString h +++ "px"
    | HAuto => "100px"
    end in
  let borderRadius :=
    if String.eqb shapeType "circle" then "50%"
    else orDefault (style_get "borderRadius" styles) "0px" in
  if String.eqb shapeType "line" then
    (* Lines become dividers *)
    "<mj-divider " +++ nl
    +++ "      border-color=" +++ dq +++ fill +++ dq +++ " " +++ nl
    +++ "      border-width=" +++ dq +++ height +++ dq +++ nl
    +++ "      padding=" +++ dq +++ "0" +++ dq +++ nl
    +++ "    />"
  else
    (* Rectangles and circles become colored sections *)
    "<mj-section " +++ nl
    +++ "    background-color=" +++ dq +++ fill +++ dq +++ " " +++ nl
    +++ "    border-radius=" +++ dq +++ borderRadius +++ dq +++ nl
    +++ "    padding=" +++ dq +++ "0" +++ dq +++ nl
    +++ "  >" +++ nl
    +++ "    <mj-column>" +++ nl
    +++ "      <mj-spacer height=" +++ dq +++ height +++ dq +++ " />" +++ nl
    +++ "    </mj-column>" +++ nl
    +++ "  </mj-section>".

(** [xs.map((x, index) => f(x, index))]. *)
Fixpoint mapi_from {A B : Type} (i : nat) (f : A -> nat -> B) (l : list A)
    : list B :=
  match l with
  | [] => []
  | a :: rest => f a i :: mapi_from (S i) f rest
  end.

Definition mapi {A B : Type} (f : A -> nat -> B) (l : list A) : list B :=
  mapi_from 0 f l.

(** The element of one enabled network (icons only, no text labels). *)
Definition socialElement (socialData : SocialData) (iconSize padding : string)
    (profile : SocialProfile) : string :=
  let color :=
    match iconColor socialData with
    | Brand =>
        orDefault (style_get (network profile) SOCIAL_BRAND_COLORS) "#6B7280"
    | MonoDark => "#1F2937"
    | MonoLight => "#F9FAFB"
    | Custom => orDefault (customColor socialData) "#6B7280"
    end in
  let href := orDefault (Some (url profile)) "#" in
  "<mj-social-element " +++ nl
  +++ "      name=" +++ dq +++ network profile +++ dq +++ " " +++ nl
  +++ "      href=" +++ dq +++ escapeHtml href +++ dq +++ nl
  +++ "      icon-size=" +++ dq +++ iconSize +++ dq +++ nl
  +++ "      icon-padding=" +++ dq +++ padding +++ dq +++ nl
  +++ "      background-color=" +++ dq +++ color +++ dq +++ nl
  +++ "    />".

(** Generate MJML for a Social block. *)
Definition generateSocialMJML (block : EditorBlock)
    (variables : list DesignToken) : string :=
  match socialData block with
  | None => "<mj-text>Social links not configured</mj-text>"
  | Some socialData =>
      let enabledNetworks := filter enabled (networks socialData) in
      if (List.length enabledNetworks =? 0)%nat then
        "<mj-text color=" +++ dq +++ "#9ca3af" +++ dq +++ " font-size=" +++ dq
        +++ "12px" +++ dq +++ ">No social icons enabled</mj-text>"
      else
        let iconSize := numToString (numOr (iconSize socialData) 24) +++ "px" in
        let padding :=
          numToString (Math_round (numOr (gap socialData) 12 / 2)) +++ "px" in
        (* Generate social element for each enabled network *)
        let socialElements :=
          join (nl +++ "      ")
               (map (socialElement socialData iconSize padding)
                    enabledNetworks) in
        "<mj-social " +++ nl
        +++ "    mode=" +++ dq +++ "horizontal" +++ dq +++ " " +++ nl
        +++ "    icon-size=" +++ dq +++ iconSize +++ dq +++ nl
        +++ "    icon-padding=" +++ dq +++ padding +++ dq +++ nl
        +++ "    text-mode=" +++ dq +++ "false" +++ dq +++ nl
        +++ "  >" +++ nl
        +++ "      " +++ socialElements +++ nl
        +++ "    </mj-social>"
  end.

(** The [style] attribute and the element of one table cell. *)
Definition tableCellStyle (borderColor bgColor : string) (isHeader : bool)
    : string :=
  trim (nl
    +++ "        border: 1px solid " +++ borderColor +++ "; " +++ nl
    +++ "        padding: 8px; " +++ nl
    +++ "        text-align: left;" +++ nl
    +++ "        background-color: "
    +++ (if isHeader then borderColor else bgColor) +++ ";" +++ nl
    +++ "        " +++ (if isHeader then "font-weight: 600;" else "") +++ nl
    +++ "      ").

Definition tableCell (borderColor bgColor : string) (isHeader : bool)
    (cell : string) : string :=
  let tag := if isHeader then "th" else "td" in
  let style := tableCellStyle borderColor bgColor isHeader in
  "<" +++ tag +++ " style=" +++ dq +++ style +++ dq +++ ">"
  +++ escapeHtml cell +++ "</" +++ tag +++ ">".

(** Generate MJML for a Table block. *)
Definition generateTableMJML (block : EditorBlock)
    (variables : list DesignToken) : string :=
  let styles := resolveStyles (block_styles block) variables in
  match tableData block with
  | None => "<mj-text>Empty table</mj-text>"
  | Some tableData =>
      if (List.length (data tableData) =? 0)%nat then
        "<mj-text>Empty table</mj-text>"
      else
        let borderColor := orDefault (Some (borderColor tableData)) "#e2e8f0" in
        let bgColor := orDefault (style_get "backgroundColor" styles) "#ffffff" in
        let textColor := orDefault (style_get "color" styles) "#1e293b" in
        let fontSize := orDefault (style_get "fontSize" styles) "14px" in
        let fontFamily :=
          orDefault (style_get "fontFamily" styles) "Arial, sans-serif" in
        (* Build HTML table *)
        let rows :=
          join (nl +++ "        ")
            (mapi (fun row rowIndex =>
               let isHeader := hasHeader tableData && (rowIndex =? 0)%nat in
               let cells :=
                 join "" (map (tableCell borderColor bgColor isHeader) row) in
               "<tr>" +++ cells +++ "</tr>")
               (data tableData)) in
        "<mj-table " +++ nl
        +++ "    color=" +++ dq +++ textColor +++ dq +++ nl
        +++ "    font-size=" +++ dq +++ fontSize +++ dq +++ nl
        +++ "    font-family=" +++ dq +++ fontFamily +++ dq +++ nl
        +++ "  >" +++ nl
        +++ "        " +++ rows +++ nl
        +++ "    </mj-table>"
  end.

(** One list item with its marker. *)
Definition listItem (isNumbered : bool) (marker : string) (item : string)
    (index : nat) : string :=
  let prefix :=
    if isNumbered then numToString (inject_Z (Z.of_nat index + 1)) +++ "."
    else marker in
  prefix +++ " " +++ escapeHtml item.

(** Generate MJML for a List block. *)
Definition generateListMJML (block : EditorBlock)
    (variables : list DesignToken) : string :=
  let styles := resolveStyles (block_styles block) variables in
  match listData block with
  | None => "<mj-text>Empty list</mj-text>"
  | Some listData =>
      if (List.length (items listData) =? 0)%nat then
        "<mj-text>Empty list</mj-text>"
      else
        let textColor := orDefault (style_get "color" styles) "#1e293b" in
        let fontSize := orDefault (style_get "fontSize" styles) "14px" in
        let fontFamily :=
          orDefault (style_get "fontFamily" styles) "Arial, sans-serif" in
        let gap := numOr (list_gap listData) 8 in
        (* Determine list marker *)
        let isNumbered :=
          match list_style listData with Decimal => true | _ => false end in
        let marker :=
          match list_style listData with
          | Disc => "&#8226;"
          | Decimal => "&#8226;"
          | Square => "&#9632;"
          end in
        (* Build list items as mj-text *)
        let listItems :=
          join "<br/>" (mapi (listItem isNumbered marker) (items listData)) in
        "<mj-text " +++ nl
        +++ "    color=" +++ dq +++ textColor +++ dq +++ nl
        +++ "    font-size=" +++ dq +++ fontSize +++ dq +++ nl
        +++ "    font-family=" +++ dq +++ fontFamily +++ dq +++ nl
        +++ "    line-height=" +++ dq
        +++ numToString ((3 # 2) + (gap / 16))%Q +++ dq +++ nl
        +++ "    padding=" +++ dq +++ "8px" +++ dq +++ nl
        +++ "  >" +++ listItems +++ "</mj-text>"
  end.

(** Generate MJML for a Group block.  Groups are flattened: their children
    are exported in Y-sorted order; [rec] is the recursive call of the
    dispatcher. *)
Definition generateGroupMJML (rec : EditorBlock -> option string)
    (block : EditorBlock) (allBlocks : list EditorBlock) : option string :=
  (* Find all children of this group *)
  let children :=
    filter (fun b => optStrEq (parentId b) (block_id block)) allBlocks in
  if (List.length children =? 0)%nat then Some ""  (* Empty group *)
  else
    (* Sort children by Y position *)
    let sorted := sortByY children in
    (* Generate MJML for each child (recursively) *)
    match mapM rec sorted with
    | Some childMJML => Some (join nl (filter strNonEmpty childMJML))
    | None => None
    end.

(** Generate MJML for a single block (dispatcher).  The recursion through
    groups follows the parent references of the document; [fuel] bounds
    its depth and [None] is the recursion that does not come back.  The
    [default] case of the source's switch (an unknown type) has no
    counterpart: [BlockType] is the closed union of the ten types. *)
Fixpoint generateBlockMJML (fuel : nat) (block : EditorBlock)
    (allBlocks : list EditorBlock) (variables : list DesignToken)
    : option string :=
  match fuel with
  | O => None
  | S fuel' =>
      (* Skip invisible blocks *)
      if negb (isVisible block) then Some ""
      else
        match block_type block with
        | TyText => Some (generateTextMJML block variables)
        | TyButton => Some (generateButtonMJML block variables)
        | TyImage => Some (generateImageMJML block variables)
        | TySpacer => Some (generateSpacerMJML block)
        | TyDivider => Some (generateDividerMJML block variables)
        | TyShape => Some (generateShapeMJML block variables)
        | TySocial => Some (generateSocialMJML block variables)
        | TyTable => Some (generateTableMJML block variables)
        | TyList => Some (generateListMJML block variables)
        | TyGroup =>
            generateGroupMJML
              (fun child => generateBlockMJML fuel' child allBlocks variables)
              block allBlocks
        end
  end.

(** Wrap a block's MJML in a section/column structure. *)
Definition wrapInSection (blockMJML : string) (block : EditorBlock) : string :=
  if negb (strNonEmpty (trim blockMJML)) then ""
  (* Shapes that generate their own sections shouldn't be wrapped again *)
  else if BlockType_eqb (block_type block) TyShape
          && negb (String.eqb (block_content block) "line")
  then blockMJML
  (* Group children are already sectioned *)
  else if BlockType_eqb (block_type block) TyGroup then blockMJML
  else
    "    <mj-section padding=" +++ dq +++ "0" +++ dq +++ ">" +++ nl
    +++ "      <mj-column>" +++ nl
    +++ "        " +++ blockMJML +++ nl
    +++ "      </mj-column>" +++ nl
    +++ "    </mj-section>".

(** The section of one root block: its markup, wrapped. *)
Definition sectionOf (fuel : nat) (allBlocks : list EditorBlock)
    (variables : list DesignToken) (block : EditorBlock) : option string :=
  match generateBlockMJML fuel block allBlocks variables with
  | Some blockMJML => Some (wrapInSection blockMJML block)
  | None => None
  end.

(** The document around the sections. *)
Definition documentHead (settings : CanvasSettings) (bgColor : string)
    : string :=
  "<mjml>" +++ nl
  +++ "  <mj-head>" +++ nl
  +++ "    <mj-attributes>" +++ nl
  +++ "      <mj-all font-family=" +++ dq +++ "Arial, Helvetica, sans-serif"
  +++ dq +++ " />" +++ nl
  +++ "      <mj-body background-color=" +++ dq +++ bgColor +++ dq +++ " />" +++ nl
  +++ "    </mj-attributes>" +++ nl
  +++ "    <mj-style>" +++ nl
  +++ "      /* Generated by MailCanvas */" +++ nl
  +++ "      a { color: inherit; text-decoration: none; }" +++ nl
  +++ "    </mj-style>" +++ nl
  +++ "  </mj-head>" +++ nl
  +++ "  <mj-body width=" +++ dq +++ numToString (canvas_width settings) +++ "px"
  +++ dq +++ " background-color=" +++ dq +++ bgColor +++ dq +++ ">" +++ nl.

Definition documentTail : string :=
  nl
  +++ "  </mj-body>" +++ nl
  +++ "</mjml>".

(** Main MJML generator function: converts canvas blocks to MJML source. *)
Definition generateMJML (fuel : nat) (blocks : list EditorBlock)
    (settings : CanvasSettings) (variables : list DesignToken)
    : option string :=
  (* Filter to only root-level blocks (not children of groups) *)
  let rootBlocks := filter (fun b => falsy (parentId b)) blocks in
  (* Sort by Y coordinate (top to bottom) *)
  let sorted := sortByY rootBlocks in
  (* Generate MJML for each block *)
  match mapM (sectionOf fuel blocks variables) sorted with
  | None => None
  | Some sections =>
      let sectionsContent := join nl (filter strNonEmpty sections) in
      (* Resolve canvas background color *)
      let bgColor :=
        orDefault (resolveColor (backgroundColor settings) variables) "#ffffff" in
      Some (documentHead settings bgColor +++ sectionsContent +++ documentTail)
  end.

End ExportCompiler.

(** *** The variable resolver (utils/variable-resolver) *)
Module VariableResolver.

(** [resolveColor(color, variables)]; [None] is [undefined]. *)
Definition resolveColor (color : option string)
    (variables : list DesignToken) : option string :=
  match color with
  | None => None
  | Some c =>
      (* Return undefined if no color provided *)
      if negb (strNonEmpty c) then None
      (* Check if this is a variable reference *)
      else if startsWith c "var:" then
        (* Extract the variable ID (everything after "var:") *)
        let variableId := String.substring 4 (String.length c - 4) c in
        (* Find the matching token in the variables array *)
        match find (fun v => String.eqb (token_id v) variableId) variables with
        | Some token =>
            (* token?.value || color *)
            if strNonEmpty (token_value token) then Some (token_value token)
            else Some c
        | None => Some c
        end
      (* Not a variable reference - return the color as-is *)
      else Some c
  end.

(** The color-related properties. *)
Definition isColorKey (key : string) : bool :=
  String.eqb key "color" || String.eqb key "backgroundColor"
  || String.eqb key "borderColor" || String.eqb key "fill"
  || String.eqb key "stroke" || String.eqb key "gradientStart"
  || String.eqb key "gradientEnd".

(** [resolveStyles(styles, variables)].  A color that resolves to
    [undefined] (the empty string) stays the empty string: the two are
    falsy alike, and the generator reads every style as
    [styles.key || default]. *)
Definition resolveStyles (styles : BlockStyles)
    (variables : list DesignToken) : BlockStyles :=
  map (fun entry : string * string =>
         let (key, value) := entry in
         (* Resolve color-related properties *)
         if isColorKey key
         then (key, match resolveColor (Some value) variables with
                    | Some resolved => resolved
                    | None => ""
                    end)
         else (key, value))
      styles.

(** [resolveColor] on a string that is given. *)
Definition resolveGivenColor (color : string) (variables : list DesignToken)
    : option string :=
  resolveColor (Some color) variables.

End VariableResolver.

(* ================================================================== *)
(** ** Worked-example inputs *)

(** A rendering of numbers for the worked examples: integers in decimal,
    as a template literal prints them; other values as a fraction. *)
Definition showZ (z : Z) : string := NilEmpty.string_of_int (Z.to_int z).

Definition showNumber (q : number) : string :=
  let r := Qred q in
  if Pos.eqb (Qden r) 1 then showZ (Qnum r)
  else showZ (Qnum r) +++ "/" +++ showZ (Zpos (Qden r)).

(** A resolver for the worked examples: nothing is a token reference. *)
Definition plainStyles (s : BlockStyles) (_ : list DesignToken) : BlockStyles := s.
Definition plainColor (c : string) (_ : list DesignToken) : option string := Some c.

Definition exLayout (x y w h : Z) (z : Z) : BlockLayout :=
  mkLayout (inject_Z x) (inject_Z y) (inject_Z w) (HNum (inject_Z h)) z.

(** A visible, unlocked block with default constraints. *)
Definition exBlock (id : string) (ty : BlockType) (content : string)
    (l : BlockLayout) (parent : option string) : EditorBlock :=
  mkBlock id ty content [] l id false true parent
          None None None None None None (Some defaultConstraints).

Definition exState (bs : list EditorBlock) (sel : list string) : EditorState :=
  mkState bs sel [] (fun _ => 0%Z)
          (mkCanvasSettings 600 "#ffffff" true true Desktop)
          (mkViewport 1 0 0) [] Idle None []
          [ mkToken "var-primary" "Primary" "#0d9488" TColor;
            mkToken "var-text" "Text" "#1e293b" TColor ].

Definition noHistory : Temporal := mkTemporal [] [].

(* ================================================================== *)
(** ** Vocabulary of the statements *)

Section Vocabulary.
Local Open Scope Q_scope.

(** The identifier [groupSelectedBlocks] gives to the new group. *)
Definition newGroupId (now rnd : string) : string :=
  "group_" +++ now +++ "_" +++ rnd.

(** [b'] is [b] up to its parent reference and the representation of its
    coordinates. *)
Definition sameBlockElsewhere (b b' : EditorBlock) : Prop :=
  block_id b' = block_id b /\ block_type b' = block_type b
  /\ block_content b' = block_content b /\ block_styles b' = block_styles b
  /\ block_name b' = block_name b /\ isLocked b' = isLocked b
  /\ isVisible b' = isVisible b /\ socialData b' = socialData b
  /\ tableData b' = tableData b /\ listData b' = listData b
  /\ responsiveMode b' = responsiveMode b
  /\ desktopLayout b' = desktopLayout b
  /\ link b' = link b /\ constraints b' = constraints b
  /\ layout_width (block_layout b') = layout_width (block_layout b)
  /\ layout_height (block_layout b') = layout_height (block_layout b)
  /\ layout_zIndex (block_layout b') = layout_zIndex (block_layout b).

(** A whole number of pixels, of a size every canvas stays far below. *)
Definition wholePixel (v : number) : Prop :=
  exists n : Z, (Z.abs n <= 2 ^ 51)%Z /\ v == inject_Z n.

(** What the round trip returns for a block: a selected top-level block
    is parentless again, at the coordinates the two operations compute
    from the corner [(boxX, boxY)] of the group box. *)
Definition returned (sel : list string) (boxX boxY : number)
    (b b' : EditorBlock) : Prop :=
  sameBlockElsewhere b b'
  /\ (isSelectedTopLevel sel b = true ->
      parentId b' = None
      /\ layout_x (block_layout b')
         = B64.add (B64.sub (layout_x (block_layout b)) boxX) boxX
      /\ layout_y (block_layout b')
         = B64.add (B64.sub (layout_y (block_layout b)) boxY) boxY).

(** After the round trip a selected top-level block is back at its
    absolute coordinates, parentless. *)
Definition restored (sel : list string) (b b' : EditorBlock) : Prop :=
  sameBlockElsewhere b b'
  /\ (isSelectedTopLevel sel b = true ->
      parentId b' = None
      /\ layout_x (block_layout b') == layout_x (block_layout b)
      /\ layout_y (block_layout b') == layout_y (block_layout b)).


(** Two blocks at x = 48.666666666666664 and x = 3.333333333333332 (the
    doubles a center-anchored resize of the canvas from 600 to 320 leaves
    of two blocks of width 20 at x = 100 and x = 15), both selected. *)
Definition exFractionalState : EditorState :=
  exState
    [ mkBlock "a" TyText "one" []
              (mkLayout (6849224433292629 # 140737488355328) 10 20
                        (HNum 40) 1)
              "a" false true None None None None None None None
              (Some (mkConstraints HCenter VTop));
      mkBlock "b" TyText "two" []
              (mkLayout (938249922368853 # 281474976710656) 60 20
                        (HNum 40) 2)
              "b" false true None None None None None None None
              (Some (mkConstraints HCenter VTop)) ]
    ["a"; "b"].

(** The horizontal anchoring the resize reads off a block. *)
Definition horizontalOf (b : EditorBlock) : HConstraint :=
  match constraints b with
  | Some c => horizontal c
  | None => horizontal defaultConstraints
  end.

(** The block lies within a canvas of width [w]. *)
Definition fitsWithin (w : number) (b : EditorBlock) : Prop :=
  0 <= layout_x (block_layout b)
  /\ layout_x (block_layout b) + layout_width (block_layout b) <= w.

(** [{...b, parentId: p}]. *)
Definition with_parent (b : EditorBlock) (p : option string) : EditorBlock :=
  with_parent_layout b p (block_layout b).

(** Example documents for the resize. *)
Definition exLeftBlock : EditorBlock :=
  exBlock "a" TyText "Hello" (exLayout 400 100 150 40 1) None.

Definition exRightChild : EditorBlock :=
  mkBlock "c" TyText "Hi" [] (exLayout 10 0 50 20 1) "c" false true
          (Some "g") None None None None None None
          (Some (mkConstraints HRight VTop)).

Definition exLeftChild : EditorBlock :=
  exBlock "c" TyText "Hi" (exLayout 10 0 50 20 1) (Some "g").

(** The guides of a result that lie on a given line: axis [t], position
    [c]. *)
Definition onLine (t : GuideType) (c : number) (g : GuideLine) : bool :=
  GuideType_eqb (guide_type g) t && Qeq_bool (position g) c.

Definition guidesAt (t : GuideType) (c : number) (gs : list GuideLine)
    : list GuideLine :=
  filter (onLine t c) gs.

(** Two guides share a line: same axis, positions less than 1px apart. *)
Definition shareLine (g g' : GuideLine) : Prop :=
  guide_type g = guide_type g' /\ Qabs (position g - position g') < 1.

(** The blocks [calculateSnapping] keeps as candidates. *)
Definition isCandidate (draggingBlock b : EditorBlock) : bool :=
  negb (String.eqb (block_id b) (block_id draggingBlock)) && isVisible b.

(** Example blocks for the snap: a candidate and a moving block whose
    left edges are at 100 and 103. *)
Definition exSnapOther : EditorBlock :=
  exBlock "first" TyImage "https://example.com/a.png"
          (exLayout 100 0 200 50 1) None.

Definition exSnapMoving : EditorBlock :=
  exBlock "second" TyButton "Go" (exLayout 103 200 80 48 2) None.

Definition exSnapMovingSameWidth : EditorBlock :=
  exBlock "second" TyButton "Go" (exLayout 103 200 200 48 2) None.

(** Three candidates whose vertical centers are all at y = 100, and a
    fourth block to move. *)
Definition exCenterRow : list EditorBlock :=
  [ exBlock "r1" TyText "one" (exLayout 0 80 50 40 1) None;
    exBlock "r2" TyText "two" (exLayout 100 70 50 60 2) None;
    exBlock "r3" TyText "three" (exLayout 200 90 50 20 3) None ].

Definition exFourth : EditorBlock :=
  exBlock "r4" TyText "four" (exLayout 300 300 50 30 4) None.

(** Three candidates one pixel high whose vertical centers are all at
    y = 100.5, and a divider two pixels high to move. *)
Definition exThinRow : list EditorBlock :=
  [ exBlock "t1" TyDivider "" (exLayout 0 100 50 1 1) None;
    exBlock "t2" TyDivider "" (exLayout 100 100 50 1 2) None;
    exBlock "t3" TyDivider "" (exLayout 200 100 50 1 3) None ].

Definition exThinDivider : EditorBlock :=
  exBlock "t4" TyDivider "" (exLayout 300 300 50 2 4) None.

(** The centered row behind two candidates whose vertical centers are at
    y = 99.4 and y = 100.6. *)
Definition exOffCenterRow : list EditorBlock :=
  [ exBlock "u1" TyText "low"
            (mkLayout 0 (397 # 5) 50 (HNum 40) 1) None;
    exBlock "u2" TyText "high"
            (mkLayout 100 (403 # 5) 50 (HNum 40) 2) None ]
  ++ exCenterRow.

(** The candidates' bounds and the guides the second pass pushes, given
    the snapped positions of the first pass. *)
Definition candidateBounds (draggingBlock : EditorBlock)
    (otherBlocks : list EditorBlock) : list BlockBounds :=
  map getBlockBounds (filter (isCandidate draggingBlock) otherBlocks).

Definition rawGuides (draggingBlock : EditorBlock) (sx sy : option number)
    (dragX dragY : number) (otherBlocks : list EditorBlock) : list GuideLine :=
  let dragWidth := bb_width (getBlockBounds draggingBlock) in
  let dragHeight := bb_height (getBlockBounds draggingBlock) in
  let finalX := match sx with Some v => v | None => dragX end in
  let finalY := match sy with Some v => v | None => dragY end in
  flat_map (guidesFor sx sy finalX finalY (finalX + dragWidth)
                      (finalY + dragHeight) (finalX + dragWidth / 2)
                      (finalY + dragHeight / 2))
           (candidateBounds draggingBlock otherBlocks).

(** Ascending order of the layout [y]. *)
Definition yLe (a b : EditorBlock) : Prop :=
  layout_y (block_layout a) <= layout_y (block_layout b).

(** The parent references of a document are well founded: a measure
    [depth] below [n] decreases from every group to its children.  The
    recursion of the dispatcher through groups then comes back within [n]
    calls. *)
Definition nestingBounded (blocks : list EditorBlock)
    (depth : EditorBlock -> nat) (n : nat) : Prop :=
  forall b, In b blocks ->
    (depth b < n)%nat
    /\ forall c, In c blocks -> block_type b = TyGroup ->
         optStrEq (parentId c) (block_id b) = true -> (depth c < depth b)%nat.

(** The measure of a document with one level of grouping. *)
Definition flatDepth (b : EditorBlock) : nat :=
  if BlockType_eqb (block_type b) TyGroup then 1%nat else 0%nat.

(** The children a group fetches: [allBlocks.filter(b => b.parentId === block.id)]. *)
Definition childrenOf (g : EditorBlock) (allBlocks : list EditorBlock)
    : list EditorBlock :=
  filter (fun b => optStrEq (parentId b) (block_id g)) allBlocks.


(** Example documents for the export: block A at y = 50 created first
    with the higher zIndex, block B at y = 10 created second. *)
Definition exA : EditorBlock :=
  exBlock "A" TyText "Below" (exLayout 0 50 300 40 5) None.

Definition exB : EditorBlock :=
  exBlock "B" TyText "Above" (exLayout 0 10 300 40 1) None.

(** A group with two children at relative y = 40 and y = 0. *)
Definition exGroup : EditorBlock :=
  exBlock "g" TyGroup "" (exLayout 20 20 300 80 3) None.

Definition exChildLow : EditorBlock :=
  exBlock "c1" TyText "second" (exLayout 0 40 300 40 1) (Some "g").

Definition exChildHigh : EditorBlock :=
  exBlock "c2" TyText "first" (exLayout 0 0 300 40 2) (Some "g").

Definition exSettings : CanvasSettings :=
  mkCanvasSettings 600 "#ffffff" true true Desktop.

(** [haystack.includes(needle)]. *)
Fixpoint containsString (needle haystack : string) : bool :=
  startsWith haystack needle
  || match haystack with
     | EmptyString => false
     | String _ rest => containsString needle rest
     end.

(** The entity of one character. *)
Definition escapeChar (a : ascii) : string :=
  if Ascii.eqb a "&" then "&amp;"
  else if Ascii.eqb a "<" then "&lt;"
  else if Ascii.eqb a ">" then "&gt;"
  else if Ascii.eqb a (ascii_of_nat 34) then "&quot;"
  else if Ascii.eqb a "'" then "&#039;"
  else String a "".

(** The text with every character replaced by its entity. *)
Fixpoint escapeEntities (s : string) : string :=
  match s with
  | EmptyString => EmptyString
  | String a rest => escapeChar a +++ escapeEntities rest
  end.

(** A text is free of markup: it has none of the characters <, >, double
    quote and single quote, and each & in it starts one of the five
    entities. *)
Fixpoint htmlSafe (s : string) : bool :=
  match s with
  | EmptyString => true
  | String a rest =>
      if Ascii.eqb a "<" || Ascii.eqb a ">" || Ascii.eqb a (ascii_of_nat 34)
         || Ascii.eqb a "'"
      then false
      else if Ascii.eqb a "&"
      then (startsWith rest "amp;" || startsWith rest "lt;"
            || startsWith rest "gt;" || startsWith rest "quot;"
            || startsWith rest "#039;")
           && htmlSafe rest
      else htmlSafe rest
  end.

(** The output [f x] is [core x] between two texts that do not depend on
    the input [x], for the inputs that satisfy [P]. *)
Definition framedWhen {X : Type} (P : X -> Prop) (core f : X -> string)
    : Prop :=
  exists pre post, forall x, P x -> f x = pre +++ core x +++ post.

(** The output [f s] holds the user string [s] only as the escaped text
    of [g s], between two texts that do not depend on [s]; [P] is the
    condition on [s] under which the field is emitted. *)
Definition escapedViaWhen (P : string -> Prop) (g f : string -> string)
    : Prop :=
  framedWhen P (fun s => escapeHtml (g s)) f.

Definition escapedVia (g f : string -> string) : Prop :=
  escapedViaWhen (fun _ => True) g f.

Definition escaped (f : string -> string) : Prop :=
  escapedVia (fun s => s) f.

(** Field updates [{...block, content: c}] and the like. *)
Definition with_content (b : EditorBlock) (c : string) : EditorBlock :=
  mkBlock (block_id b) (block_type b) c (block_styles b) (block_layout b)
          (block_name b) (isLocked b) (isVisible b) (parentId b)
          (socialData b) (tableData b) (listData b) (responsiveMode b)
          (desktopLayout b) (link b) (constraints b).

Definition with_styles (b : EditorBlock) (st : BlockStyles) : EditorBlock :=
  mkBlock (block_id b) (block_type b) (block_content b) st (block_layout b)
          (block_name b) (isLocked b) (isVisible b) (parentId b)
          (socialData b) (tableData b) (listData b) (responsiveMode b)
          (desktopLayout b) (link b) (constraints b).

Definition with_name (b : EditorBlock) (n : string) : EditorBlock :=
  mkBlock (block_id b) (block_type b) (block_content b) (block_styles b)
          (block_layout b) n (isLocked b) (isVisible b) (parentId b)
          (socialData b) (tableData b) (listData b) (responsiveMode b)
          (desktopLayout b) (link b) (constraints b).

Definition with_link (b : EditorBlock) (l : option string) : EditorBlock :=
  mkBlock (block_id b) (block_type b) (block_content b) (block_styles b)
          (block_layout b) (block_name b) (isLocked b) (isVisible b)
          (parentId b) (socialData b) (tableData b) (listData b)
          (responsiveMode b) (desktopLayout b) l (constraints b).

Definition setNetworks (sd : SocialData) (ps : list SocialProfile)
    : SocialData :=
  mkSocialData ps (iconSize sd) (gap sd) (iconStyle sd) (iconColor sd)
               (customColor sd).

Definition with_networks (b : EditorBlock) (sd : SocialData)
    (ps : list SocialProfile) : EditorBlock :=
  mkBlock (block_id b) (block_type b) (block_content b) (block_styles b)
          (block_layout b) (block_name b) (isLocked b) (isVisible b)
          (parentId b) (Some (setNetworks sd ps))
          (tableData b) (listData b) (responsiveMode b)
          (desktopLayout b) (link b) (constraints b).

Definition with_cells (b : EditorBlock) (td : TableData)
    (cells : list (list string)) : EditorBlock :=
  mkBlock (block_id b) (block_type b) (block_content b) (block_styles b)
          (block_layout b) (block_name b) (isLocked b) (isVisible b)
          (parentId b) (socialData b)
          (Some (mkTableData (rows td) (cols td) cells (hasHeader td)
                             (borderColor td)))
          (listData b) (responsiveMode b)
          (desktopLayout b) (link b) (constraints b).

Definition with_items (b : EditorBlock) (ld : ListData)
    (its : list string) : EditorBlock :=
  mkBlock (block_id b) (block_type b) (block_content b) (block_styles b)
          (block_layout b) (block_name b) (isLocked b) (isVisible b)
          (parentId b) (socialData b) (tableData b)
          (Some (mkListData its (list_style ld) (list_gap ld)))
          (responsiveMode b) (desktopLayout b) (link b) (constraints b).
End Vocabulary.

(* ================================================================== *)
(** ** The editor store, continued: layering, alignment, clipboard,
    canvas mode *)

Section StoreLayering.

Definition with_zIndex (l : BlockLayout) (z : Z) : BlockLayout :=
  mkLayout (layout_x l) (layout_y l) (layout_width l) (layout_height l) z.

Definition with_x (l : BlockLayout) (x : number) : BlockLayout :=
  mkLayout x (layout_y l) (layout_width l) (layout_height l) (layout_zIndex l).

Definition with_y (l : BlockLayout) (y : number) : BlockLayout :=
  mkLayout (layout_x l) y (layout_width l) (layout_height l) (layout_zIndex l).

(** [const targetIds = id ? [id] : selectedBlockIds]. *)
Definition targetIdsOf (id : option string) (selectedBlockIds : list string)
    : list string :=
  if falsy id then selectedBlockIds
  else match id with Some i => [i] | None => selectedBlockIds end.

(** [blocks.reduce((min, b) => Math.min(min, b.layout?.zIndex || 0), Infinity)],
    [None] standing for [Infinity]. *)
Definition minZIndexOf (bs : list EditorBlock) : option Z :=
  fold_left (fun min b =>
               match min with
               | None => Some (layout_zIndex (block_layout b))
               | Some m => Some (Z.min m (layout_zIndex (block_layout b)))
               end) bs None.

(** [bringToFront(id?)]. *)
Definition bringToFront (id : option string) : Action := fun state =>
  let targetIds := targetIdsOf id (selectedBlockIds state) in
  if (List.length targetIds =? 0)%nat then None
  else
    let maxZIndex := maxZIndexOf (blocks state) in
    Some (mkPatch
      (Some (mapi (fun block index =>
                     if includes targetIds (block_id block)
                     then with_layout block
                            (with_zIndex (block_layout block)
                               (maxZIndex + 1 + Z.of_nat index))
                     else block)
                  (blocks state)))
      None None None None None).

(** [sendToBack(id?)].  The minimum is [Infinity] only over no block, and
    then there is no block to map. *)
Definition sendToBack (id : option string) : Action := fun state =>
  let targetIds := targetIdsOf id (selectedBlockIds state) in
  if (List.length targetIds =? 0)%nat then None
  else
    let minZIndex := minZIndexOf (blocks state) in
    Some (mkPatch
      (Some (mapi (fun block index =>
                     if includes targetIds (block_id block)
                     then
                       match minZIndex with
                       | Some m =>
                           with_layout block
                             (with_zIndex (block_layout block)
                                (Z.max 0 (m - 1 - Z.of_nat index)))
                       | None => block
                       end
                     else block)
                  (blocks state)))
      None None None None None).

(** [bringForward(id?)]. *)
Definition bringForward (id : option string) : Action := fun state =>
  let targetIds := targetIdsOf id (selectedBlockIds state) in
  if (List.length targetIds =? 0)%nat then None
  else
    Some (mkPatch
      (Some (map (fun block =>
                    if includes targetIds (block_id block)
                    then with_layout block
                           (with_zIndex (block_layout block)
                              (layout_zIndex (block_layout block) + 1))
                    else block)
                 (blocks state)))
      None None None None None).

(** [sendBackward(id?)]. *)
Definition sendBackward (id : option string) : Action := fun state =>
  let targetIds := targetIdsOf id (selectedBlockIds state) in
  if (List.length targetIds =? 0)%nat then None
  else
    Some (mkPatch
      (Some (map (fun block =>
                    if includes targetIds (block_id block)
                    then with_layout block
                           (with_zIndex (block_layout block)
                              (Z.max 0 (layout_zIndex (block_layout block) - 1)))
                    else block)
                 (blocks state)))
      None None None None None).

End StoreLayering.

Section StoreAlignment.
Local Open Scope Q_scope.

(** The blocks an alignment action reads: [blocks.filter(b =>
    selectedBlockIds.includes(b.id))]. *)
Definition selectedOf (state : EditorState) : list EditorBlock :=
  filter (fun b => includes (selectedBlockIds state) (block_id b))
         (blocks state).

(** The [set] of the alignment actions: the selected blocks get a new
    [x] (or [y]), the others are returned as they are. *)
Definition moveSelectedX (state : EditorState) (newX : EditorBlock -> number)
    : Patch :=
  mkPatch
    (Some (map (fun block =>
                  if includes (selectedBlockIds state) (block_id block)
                  then with_layout block (with_x (block_layout block) (newX block))
                  else block)
               (blocks state)))
    None None None None None.

Definition moveSelectedY (state : EditorState) (newY : EditorBlock -> number)
    : Patch :=
  mkPatch
    (Some (map (fun block =>
                  if includes (selectedBlockIds state) (block_id block)
                  then with_layout block (with_y (block_layout block) (newY block))
                  else block)
               (blocks state)))
    None None None None None.

(** [alignLeft()]. *)
Definition alignLeft : Action := fun state =>
  if (List.length (selectedBlockIds state) <? 2)%nat then None
  else
    let selectedBlocks := selectedOf state in
    let minX :=
      Math_min_list (map (fun b => layout_x (block_layout b)) selectedBlocks) in
    Some (moveSelectedX state (fun _ => minX)).

(** [alignTop()]. *)
Definition alignTop : Action := fun state =>
  if (List.length (selectedBlockIds state) <? 2)%nat then None
  else
    let selectedBlocks := selectedOf state in
    let minY :=
      Math_min_list (map (fun b => layout_y (block_layout b)) selectedBlocks) in
    Some (moveSelectedY state (fun _ => minY)).

(** The height the alignment actions read: 'auto' counts as 50. *)
Definition alignHeight (b : EditorBlock) : number :=
  heightOr 50 (layout_height (block_layout b)).

(** [b.layout.x + b.layout.width] and [b.layout.y + height]. *)
Definition rightEdge (b : EditorBlock) : number :=
  B64.add (layout_x (block_layout b)) (layout_width (block_layout b)).

Definition bottomEdge (b : EditorBlock) : number :=
  B64.add (layout_y (block_layout b)) (alignHeight b).

(** [alignCenter()]. *)
Definition alignCenter : Action := fun state =>
  if (List.length (selectedBlockIds state) <? 2)%nat then None
  else
    let selectedBlocks := selectedOf state in
    let minX :=
      Math_min_list (map (fun b => layout_x (block_layout b)) selectedBlocks) in
    let maxX := Math_max_list (map rightEdge selectedBlocks) in
    let centerX := B64.div (B64.add minX maxX) 2 in
    Some (moveSelectedX state
            (fun block =>
               let blockWidth := layout_width (block_layout block) in
               B64.sub centerX (B64.div blockWidth 2))).

(** [alignRight()]. *)
Definition alignRight : Action := fun state =>
  if (List.length (selectedBlockIds state) <? 2)%nat then None
  else
    let selectedBlocks := selectedOf state in
    let maxRight := Math_max_list (map rightEdge selectedBlocks) in
    Some (moveSelectedX state
            (fun block =>
               let blockWidth := layout_width (block_layout block) in
               B64.sub maxRight blockWidth)).

(** [alignMiddle()]. *)
Definition alignMiddle : Action := fun state =>
  if (List.length (selectedBlockIds state) <? 2)%nat then None
  else
    let selectedBlocks := selectedOf state in
    let minY :=
      Math_min_list (map (fun b => layout_y (block_layout b)) selectedBlocks) in
    let maxY := Math_max_list (map bottomEdge selectedBlocks) in
    let centerY := B64.div (B64.add minY maxY) 2 in
    Some (moveSelectedY state
            (fun block =>
               let blockHeight := alignHeight block in
               B64.sub centerY (B64.div blockHeight 2))).

(** [alignBottom()]. *)
Definition alignBottom : Action := fun state =>
  if (List.length (selectedBlockIds state) <? 2)%nat then None
  else
    let selectedBlocks := selectedOf state in
    let maxBottom := Math_max_list (map bottomEdge selectedBlocks) in
    Some (moveSelectedY state
            (fun block =>
               let blockHeight := alignHeight block in
               B64.sub maxBottom blockHeight)).

(** The blocks [bs] sit on whole pixels along an axis: position and
    extent. *)
Definition wholePixels (pos size : EditorBlock -> number)
    (bs : list EditorBlock) : Prop :=
  forall b, In b bs -> wholePixel (pos b) /\ wholePixel (size b).

(** [m] is the smallest, resp. the largest, of the values [f] takes on
    [bs]. *)
Definition smallestOf (f : EditorBlock -> number) (bs : list EditorBlock)
    (m : number) : Prop :=
  (exists c, In c bs /\ f c == m) /\ forall c, In c bs -> m <= f c.

Definition largestOf (f : EditorBlock -> number) (bs : list EditorBlock)
    (m : number) : Prop :=
  (exists c, In c bs /\ f c == m) /\ forall c, In c bs -> f c <= m.

(** [nudgeSelectedBlocks(dx, dy)]. *)
Definition nudgeSelectedBlocks (dx dy : number) : Action := fun state =>
  if (List.length (selectedBlockIds state) =? 0)%nat then None
  else
    Some (mkPatch
      (Some (map (fun block =>
                    if includes (selectedBlockIds state) (block_id block)
                    then with_layout block
                           (with_xy (block_layout block)
                              (Math_max 0
                                 (B64.add (layout_x (block_layout block)) dx))
                              (Math_max 0
                                 (B64.add (layout_y (block_layout block)) dy)))
                    else block)
                 (blocks state)))
      None None None None None).

End StoreAlignment.

(** An example selection for the alignment and layering actions: two
    selected blocks, one of them of height 'auto', and a third block. *)
Definition exAlignState : EditorState :=
  exState
    [ exBlock "a" TyText "one" (exLayout 10 20 100 40 1) None;
      mkBlock "b" TyText "two" []
              (mkLayout 50 5 30 HAuto 2) "b" false true None
              None None None None None None (Some defaultConstraints);
      exBlock "c" TyText "three" (exLayout 200 200 10 10 3) None ]
    ["a"; "b"].

Section StoreCanvasMode.
Local Open Scope Q_scope.

Definition DESKTOP_WIDTH : number := 600.
Definition MOBILE_WIDTH : number := 320.

(** [{...block, desktopLayout: d, layout: l}]. *)
Definition with_desktop_layout (b : EditorBlock) (d : option BlockLayout)
    (l : BlockLayout) : EditorBlock :=
  mkBlock (block_id b) (block_type b) (block_content b) (block_styles b) l
          (block_name b) (isLocked b) (isVisible b) (parentId b)
          (socialData b) (tableData b) (listData b) (responsiveMode b)
          d (link b) (constraints b).

(** [block.responsiveMode !== 'fixed']. *)
Definition shouldScale (block : EditorBlock) : bool :=
  match responsiveMode block with
  | Some RFixed => false
  | _ => true
  end.

(** Switching TO mobile: save desktop layout and scale down. *)
Definition toMobile (block : EditorBlock) : EditorBlock :=
  let layout := block_layout block in
  if shouldScale block && Qlt_bool MOBILE_WIDTH (layout_width layout) then
    (* Save current layout as desktop layout before scaling *)
    let desktopLayout :=
      match desktopLayout block with Some d => d | None => layout end in
    let scaleFactor := MOBILE_WIDTH / layout_width layout in
    let newWidth := MOBILE_WIDTH in
    let newHeight :=
      match layout_height layout with
      | HNum h => HNum (Math_round (h * scaleFactor))
      | HAuto => HAuto
      end in
    (* Scale x position proportionally *)
    let newX := Math_round (layout_x layout * (MOBILE_WIDTH / DESKTOP_WIDTH)) in
    with_desktop_layout block (Some desktopLayout)
      (mkLayout (Math_max 0 (Math_min newX (MOBILE_WIDTH - newWidth)))
                (layout_y layout) newWidth newHeight (layout_zIndex layout))
  (* For blocks that fit in mobile but might need x adjustment *)
  else if shouldScale block
          && Qlt_bool MOBILE_WIDTH (layout_x layout + layout_width layout) then
    let desktopLayout :=
      match desktopLayout block with Some d => d | None => layout end in
    with_desktop_layout block (Some desktopLayout)
      (with_x layout (Math_max 0 (MOBILE_WIDTH - layout_width layout)))
  else block.

(** Switching TO desktop: restore original desktop layout. *)
Definition toDesktop (block : EditorBlock) : EditorBlock :=
  match desktopLayout block with
  | Some d => with_desktop_layout block None d
  | None => block
  end.

(** [setCanvasMode(mode)]. *)
Definition setCanvasMode (mode : CanvasMode) : Action := fun state =>
  let targetWidth :=
    match mode with Mobile => MOBILE_WIDTH | Desktop => DESKTOP_WIDTH end in
  let updatedBlocks :=
    match mode with
    | Mobile => map toMobile (blocks state)
    | Desktop => map toDesktop (blocks state)
    end in
  let cs := canvasSettings state in
  Some (mkPatch (Some updatedBlocks) None None
    (Some (mkCanvasSettings targetWidth (backgroundColor cs) (showRulers cs)
                            (showGrid cs) mode))
    None None).

(** [Partial<BlockLayout>]. *)
Record LayoutUpdate := mkLayoutUpdate {
  u_x : option number;
  u_y : option number;
  u_width : option number;
  u_height : option Height;
  u_zIndex : option Z
}.

(** [{ ...block.layout, ...layout }]. *)
Definition applyLayoutUpdate (l : BlockLayout) (u : LayoutUpdate)
    : BlockLayout :=
  mkLayout (orKeep (u_x u) (layout_x l)) (orKeep (u_y u) (layout_y l))
           (orKeep (u_width u) (layout_width l))
           (orKeep (u_height u) (layout_height l))
           (orKeep (u_zIndex u) (layout_zIndex l)).

Definition isMobile (state : EditorState) : bool :=
  match mode (canvasSettings state) with Mobile => true | Desktop => false end.

(** [layout.width !== undefined || layout.height !== undefined ||
    layout.x !== undefined]. *)
Definition resizesOrMovesX (u : LayoutUpdate) : bool :=
  isSome (u_width u) || isSome (u_height u) || isSome (u_x u).

(** [updateBlockLayout(id, layout)]. *)
Definition updateBlockLayout (id : string) (layout : LayoutUpdate) : Action :=
  fun state =>
  let isMobileMode := isMobile state in
  Some (mkPatch
    (Some (map (fun block =>
                  if negb (String.eqb (block_id block) id) then block
                  else
                    (* a manual resize in mobile mode clears the stored
                       desktop layout *)
                    with_desktop_layout block
                      (if isMobileMode && resizesOrMovesX layout
                       then None else desktopLayout block)
                      (applyLayoutUpdate (block_layout block) layout))
               (blocks state)))
    None None None None None).

End StoreCanvasMode.

(** *** Token resolution *)

(** [value.substring(4)]. *)
Definition dropPrefix4 (s : string) : string :=
  String.substring 4 (String.length s - 4) s.

(** [resolveStyleValue(value, variables)]. *)
Definition resolveStyleValue (value : option string)
    (variables : list DesignToken) : option string :=
  match value with
  | None => None
  | Some v =>
      if negb (strNonEmpty v) then value
      else if startsWith v "var:" then
        let varId := dropPrefix4 v in  (* Remove "var:" prefix *)
        match find (fun t => String.eqb (token_id t) varId) variables with
        | Some variable =>
            (* Fallback to raw value if not found *)
            Some (orDefault (Some (token_value variable)) v)
        | None => value
        end
      else value
  end.

(** Example data for the canvas mode. *)
Definition exWide : EditorBlock :=
  exBlock "wide" TyImage "https://example.com/w.png"
          (exLayout 100 40 400 200 1) None.

Definition exFar : EditorBlock :=
  exBlock "far" TyButton "Go" (exLayout 300 10 150 48 2) None.

Definition exMobileState : EditorState :=
  mkState [with_desktop_layout exFar (Some (block_layout exFar))
             (exLayout 170 10 150 48 2)]
          [] [] (fun _ => 0%Z)
          (mkCanvasSettings 320 "#ffffff" true true Mobile)
          (mkViewport 1 0 0) [] Idle None [] [].

(* ================================================================== *)
(** ** The editor store, continued: order, selection, clipboard, zoom *)

(** [l.splice(i, 1)] and [l.splice(i, 0, x)] as the list they leave. *)
Fixpoint removeAt {A : Type} (i : nat) (l : list A) : list A :=
  match l, i with
  | [], _ => []
  | _ :: rest, O => rest
  | a :: rest, S i' => a :: removeAt i' rest
  end.

Fixpoint insertAt {A : Type} (i : nat) (x : A) (l : list A) : list A :=
  match i, l with
  | O, _ => x :: l
  | S _, [] => [x]
  | S i', a :: rest => a :: insertAt i' x rest
  end.

(** [reorderBlocks(activeId, overId)].  With an id that is not found
    [set] receives the state itself. *)
Definition reorderBlocks (activeId overId : string) : Action := fun state =>
  let blocks := blocks state in
  match findIndex (fun b => String.eqb (block_id b) activeId) blocks,
        findIndex (fun b => String.eqb (block_id b) overId) blocks with
  | Some activeIndex, Some overIndex =>
      (* Remove the active block and insert it at the new position *)
      match nth_error blocks activeIndex with
      | Some movedBlock =>
          Some (mkPatch
                  (Some (insertAt overIndex movedBlock
                                  (removeAt activeIndex blocks)))
                  None None None None None)
      | None => Some noPatch
      end
  | _, _ => Some noPatch  (* Invalid indices, no change *)
  end.

(** [selectBlock(id, shiftKey)]. *)
Definition selectBlock (id : option string) (shiftKey : bool) : Action :=
  fun state =>
  match id with
  | None => Some (mkPatch None (Some []) None None None None)
  | Some id =>
      if shiftKey then
        (* Multi-select: toggle the ID in the array *)
        let isSelected := includes (selectedBlockIds state) id in
        if isSelected then
          Some (mkPatch None
                  (Some (filter (fun sid => negb (String.eqb sid id))
                                (selectedBlockIds state)))
                  None None None None)
        else
          Some (mkPatch None (Some (selectedBlockIds state ++ [id]))
                        None None None None)
      else
        (* Single select: replace with just this ID *)
        Some (mkPatch None (Some [id]) None None None None)
  end.

(** Default names for each block type (used with counter). *)
Definition DEFAULT_BLOCK_NAMES (t : BlockType) : string :=
  match t with
  | TyText => "Text Layer"
  | TyImage => "Image Layer"
  | TyButton => "Button Layer"
  | TySpacer => "Spacer"
  | TyDivider => "Divider"
  | TySocial => "Social Links"
  | TyShape => "Shape"
  | TyGroup => "Group"
  | TyTable => "Table"
  | TyList => "List"
  end.

(** [counters[type]++] on a copy of the counters. *)
Definition bumpCounter (counters : BlockType -> Z) (t : BlockType)
    : BlockType -> Z :=
  fun t' => if BlockType_eqb t' t then (counters t + 1)%Z else counters t'.

Section StoreClipboard.
Local Open Scope Q_scope.

(** The clone of one block in [pasteBlocks] and [duplicateSelectedBlocks]:
    a new id, the default name of the type with its new counter, the
    layout shifted by (20, 20) at the given zIndex. *)
Definition cloneBlock (block : EditorBlock) (newId : string) (counter : Z)
    (zIndex : Z) : EditorBlock :=
  mkBlock newId (block_type block) (block_content block) (block_styles block)
          (mkLayout (layout_x (block_layout block) + 20)
                    (layout_y (block_layout block) + 20)
                    (layout_width (block_layout block))
                    (layout_height (block_layout block)) zIndex)
          (DEFAULT_BLOCK_NAMES (block_type block) +++ " " +++ showZ counter)
          (isLocked block) (isVisible block) (parentId block)
          (socialData block) (tableData block) (listData block)
          (responsiveMode block) (desktopLayout block) (link block)
          (constraints block).

(** The [map] of the two actions over the blocks to clone: [freshId k] is
    the k-th id [generateBlockId()] returns in the call, [k] the number of
    ids pushed so far and [counters] the counters as incremented so
    far. *)
Fixpoint cloneFrom (freshId : nat -> string) (maxZIndex : Z) (k : nat)
    (counters : BlockType -> Z) (sources : list EditorBlock)
    : list EditorBlock * (BlockType -> Z) :=
  match sources with
  | [] => ([], counters)
  | block :: rest =>
      let newCounters := bumpCounter counters (block_type block) in
      let newId := freshId k in
      let clone :=
        cloneBlock block newId (newCounters (block_type block))
                   (maxZIndex + Z.of_nat (S k)) in
      let '(clones, finalCounters) :=
        cloneFrom freshId maxZIndex (S k) newCounters rest in
      (clone :: clones, finalCounters)
  end.

(** [copySelectedBlocks()]: [set({ clipboard: selectedBlocks })]. *)
Definition copySelectedBlocks (state : EditorState) : EditorState :=
  mkState (blocks state) (selectedBlockIds state) (selectedOf state)
          (blockCounters state) (canvasSettings state) (viewport state)
          (expandedGroupIds state) (interactionMode state)
          (editingBlockId state) (assets state) (variables state).

(** [pasteBlocks()]. *)
Definition pasteBlocks (freshId : nat -> string) : Action := fun state =>
  if (List.length (clipboard state) =? 0)%nat then None
  else
    let maxZIndex := maxZIndexOf (blocks state) in
    let '(pastedBlocks, newCounters) :=
      cloneFrom freshId maxZIndex 0 (blockCounters state) (clipboard state) in
    Some (mkPatch (Some (blocks state ++ pastedBlocks))
                  (Some (map block_id pastedBlocks))
                  (Some newCounters) None None None).

(** [duplicateSelectedBlocks()]. *)
Definition duplicateSelectedBlocks (freshId : nat -> string) : Action :=
  fun state =>
  if (List.length (selectedBlockIds state) =? 0)%nat then None
  else
    let selectedBlocks := selectedOf state in
    let maxZIndex := maxZIndexOf (blocks state) in
    let '(duplicatedBlocks, newCounters) :=
      cloneFrom freshId maxZIndex 0 (blockCounters state) selectedBlocks in
    Some (mkPatch (Some (blocks state ++ duplicatedBlocks))
                  (Some (map block_id duplicatedBlocks))
                  (Some newCounters) None None None).

(** [duplicateBlock(id)], [newId] being the id [generateBlockId()]
    returns. *)
Definition duplicateBlock (newId : string) (id : string) : Action :=
  fun state =>
  let blocks := blocks state in
  match find (fun b => String.eqb (block_id b) id) blocks with
  | None => None
  | Some blockToDuplicate =>
      let newCounter :=
        (blockCounters state (block_type blockToDuplicate) + 1)%Z in
      let maxZIndex := maxZIndexOf blocks in
      let duplicatedBlock :=
        mkBlock newId (block_type blockToDuplicate)
                (block_content blockToDuplicate)
                (block_styles blockToDuplicate)
                (mkLayout (layout_x (block_layout blockToDuplicate) + 20)
                          (layout_y (block_layout blockToDuplicate) + 20)
                          (layout_width (block_layout blockToDuplicate))
                          (layout_height (block_layout blockToDuplicate))
                          (maxZIndex + 1)%Z)
                (DEFAULT_BLOCK_NAMES (block_type blockToDuplicate) +++ " "
                 +++ showZ newCounter)
                false (isVisible blockToDuplicate)
                (parentId blockToDuplicate) (socialData blockToDuplicate)
                (tableData blockToDuplicate) (listData blockToDuplicate)
                (responsiveMode blockToDuplicate)
                (desktopLayout blockToDuplicate) (link blockToDuplicate)
                (constraints blockToDuplicate) in
      match findIndex (fun b => String.eqb (block_id b) id) blocks with
      | Some blockIndex =>
          Some (mkPatch
                  (Some (insertAt (blockIndex + 1) duplicatedBlock blocks))
                  (Some [newId])
                  (Some (fun t =>
                           if BlockType_eqb t (block_type blockToDuplicate)
                           then newCounter else blockCounters state t))
                  None None None)
      | None => None
      end
  end.

End StoreClipboard.

(** Example data for the clipboard actions. *)
Definition exFreshId (k : nat) : string := "new-" +++ showZ (Z.of_nat k).

Definition exClipboardState : EditorState :=
  copySelectedBlocks exAlignState.

(* ================================================================== *)
(** ** Smart guides, continued: the tests of the first pass as data *)

Section SnapTests.
Local Open Scope Q_scope.

(** The five tests of the X axis against one candidate, each as the
    distance it measures and the position it would snap to, in source
    order; [snapXStep] runs [trySnap] over them. *)
Definition xTests (dragX dragWidth : number) (other : BlockBounds)
    : list (number * number) :=
  [ (Math_abs (dragX - bb_left other), bb_left other);
    (Math_abs (dragX + dragWidth - bb_right other),
     bb_right other - dragWidth);
    (Math_abs (dragX - bb_right other), bb_right other);
    (Math_abs (dragX + dragWidth - bb_left other),
     bb_left other - dragWidth);
    (Math_abs (dragX + dragWidth / 2 - bb_centerX other),
     bb_centerX other - dragWidth / 2) ].

(** The five tests of the Y axis against one candidate. *)
Definition yTests (dragY dragHeight : number) (other : BlockBounds)
    : list (number * number) :=
  [ (Math_abs (dragY - bb_top other), bb_top other);
    (Math_abs (dragY + dragHeight - bb_bottom other),
     bb_bottom other - dragHeight);
    (Math_abs (dragY - bb_bottom other), bb_bottom other);
    (Math_abs (dragY + dragHeight - bb_top other),
     bb_top other - dragHeight);
    (Math_abs (dragY + dragHeight / 2 - bb_centerY other),
     bb_centerY other - dragHeight / 2) ].

(** What one axis of the first pass returns for the tests it ran: the
    target of a test within the threshold whose distance no test
    undercuts, or nothing when no test is within the threshold. *)
Definition closestWithin (tests : list (number * number))
    (snap : option number) : Prop :=
  match snap with
  | Some target =>
      exists dist, In (dist, target) tests /\ dist < SNAP_THRESHOLD
                   /\ forall t, In t tests -> dist <= fst t
  | None => forall t, In t tests -> SNAP_THRESHOLD <= fst t
  end.

(** [trySnap] run over a list of tests. *)
Definition runTests (tests : list (number * number)) (acc : Closest)
    : Closest :=
  fold_left (fun acc t => trySnap (fst t) (snd t) acc) tests acc.

(** The accumulator of one axis after the tests [seen]. *)
Definition closestSoFar (seen : list (number * number)) (acc : Closest)
    : Prop :=
  match acc with
  | (Some target, Some dist) =>
      In (dist, target) seen /\ dist < SNAP_THRESHOLD
      /\ forall t, In t seen -> dist <= fst t
  | (None, None) => forall t, In t seen -> SNAP_THRESHOLD <= fst t
  | _ => False
  end.

End SnapTests.

(** Example blocks for the export: a hidden top-level block, and a block
    at the height of [exA] created after it. *)
Definition exHidden : EditorBlock :=
  mkBlock "H" TyText "Secret" [] (exLayout 0 30 300 40 2) "H" false false
          None None None None None None None (Some defaultConstraints).

Definition exTie : EditorBlock :=
  exBlock "T" TyText "Beside" (exLayout 310 50 200 40 9) None.

(* ================================================================== *)
(** ** The editor store, continued: distribution *)

Section StoreDistribute.
Local Open Scope Q_scope.

(** What a call comes to: it returns, or it throws a TypeError on a
    property read of [undefined]. *)
Inductive Completion (A : Type) : Type :=
| Returns (a : A)
| ThrowsTypeError.

Arguments Returns {A} a.
Arguments ThrowsTypeError {A}.

(** [[...bs].sort((a, b) => key(a) - key(b))]: the stable sort by
    ascending key. *)
Fixpoint insertByKey (key : EditorBlock -> number) (b : EditorBlock)
    (sorted : list EditorBlock) : list EditorBlock :=
  match sorted with
  | [] => [b]
  | h :: rest =>
      if Qle_bool (key b) (key h) then b :: sorted
      else h :: insertByKey key b rest
  end.

Definition sortByKey (key : EditorBlock -> number) (bs : list EditorBlock)
    : list EditorBlock :=
  fold_right (insertByKey key) [] bs.

(** The [forEach] that fills [updates]: the position noted under the id
    of each block, in order, [current] being the running position and
    [size] the extent of a block along the axis. *)
Fixpoint notePositions (size : EditorBlock -> number)
    (gapBetween current : number) (bs : list EditorBlock)
    : list (string * number) :=
  match bs with
  | [] => []
  | block :: rest =>
      (block_id block, current)
      :: notePositions size gapBetween
                       (B64.add current (B64.add (size block) gapBetween))
                       rest
  end.

(** [updates[id]]: the last position noted under the id, [None] for
    [undefined].  The ids of blocks are generated
    ([block_<time>_<random>]) and are no property name of an object. *)
Definition updateFor (updates : list (string * number)) (id : string)
    : option number :=
  fold_left (fun found kv =>
               if String.eqb (fst kv) id then Some (snd kv) else found)
            updates None.

(** [distributeHorizontal()].  With a single selected block the source
    divides 0 by 0; the quotient only enters the running position after
    the last position has been noted, so its value plays no role. *)
Definition distributeHorizontal (state : EditorState)
    : Completion (option Patch) :=
  if (List.length (selectedBlockIds state) <? 3)%nat then Returns None
  else
    let selectedBlocks :=
      sortByKey (fun b => layout_x (block_layout b)) (selectedOf state) in
    match nth_error selectedBlocks 0,
          nth_error selectedBlocks (List.length selectedBlocks - 1) with
    | Some first, Some last =>
        let firstX := layout_x (block_layout first) in
        let lastX := B64.add (layout_x (block_layout last))
                             (layout_width (block_layout last)) in
        let totalWidth :=
          fold_left (fun sum b => B64.add sum (layout_width (block_layout b)))
                    selectedBlocks 0 in
        let totalGap := B64.sub (B64.sub lastX firstX) totalWidth in
        let gapBetween :=
          B64.div totalGap
            (B64.sub (inject_Z (Z.of_nat (List.length selectedBlocks))) 1) in
        let updates :=
          notePositions (fun b => layout_width (block_layout b))
                        gapBetween firstX selectedBlocks in
        Returns
          (Some (mkPatch
                   (Some (map (fun block =>
                                 match updateFor updates (block_id block) with
                                 | Some x =>
                                     with_layout block
                                       (with_x (block_layout block) x)
                                 | None => block
                                 end)
                              (blocks state)))
                   None None None None None))
    | _, _ => ThrowsTypeError  (* first is undefined *)
    end.

(** [distributeVertical()]. *)
Definition distributeVertical (state : EditorState)
    : Completion (option Patch) :=
  if (List.length (selectedBlockIds state) <? 3)%nat then Returns None
  else
    let selectedBlocks :=
      sortByKey (fun b => layout_y (block_layout b)) (selectedOf state) in
    match nth_error selectedBlocks 0,
          nth_error selectedBlocks (List.length selectedBlocks - 1) with
    | Some first, Some last =>
        let firstY := layout_y (block_layout first) in
        let lastHeight := heightOr 50 (layout_height (block_layout last)) in
        let lastY := B64.add (layout_y (block_layout last)) lastHeight in
        let totalHeight :=
          fold_left (fun sum b =>
                       let h := heightOr 50 (layout_height (block_layout b)) in
                       B64.add sum h)
                    selectedBlocks 0 in
        let totalGap := B64.sub (B64.sub lastY firstY) totalHeight in
        let gapBetween :=
          B64.div totalGap
            (B64.sub (inject_Z (Z.of_nat (List.length selectedBlocks))) 1) in
        let updates :=
          notePositions
            (fun b => heightOr 50 (layout_height (block_layout b)))
            gapBetween firstY selectedBlocks in
        Returns
          (Some (mkPatch
                   (Some (map (fun block =>
                                 match updateFor updates (block_id block) with
                                 | Some y =>
                                     with_layout block
                                       (with_y (block_layout block) y)
                                 | None => block
                                 end)
                              (blocks state)))
                   None None None None None))
    | _, _ => ThrowsTypeError  (* first is undefined *)
    end.

(** The state a call leaves: a throw leaves the store as it was. *)
Definition settle (c : Completion (option Patch)) (s : EditorState)
    : EditorState :=
  match c with
  | Returns (Some p) => merge s p
  | Returns None => s
  | ThrowsTypeError => s
  end.

(** What distribution does to the blocks [sorted] (the selected blocks in
    ascending order along the axis), in terms of the positions it gives
    them: the first and the last block stay, consecutive blocks are [gap]
    apart, every block with the id of a sorted block takes that block's
    position, and blocks that are not selected are kept. *)
Definition evenlySpaced (key size : EditorBlock -> number)
    (setPos : EditorBlock -> number -> EditorBlock)
    (state after : EditorState) (sorted : list EditorBlock) : Prop :=
  exists (positions : list number) (gap : number),
    List.length positions = List.length sorted
    /\ (forall first, nth_error sorted 0 = Some first ->
          nth_error positions 0 = Some (key first))
    /\ (forall last p,
          nth_error sorted (List.length sorted - 1) = Some last ->
          nth_error positions (List.length sorted - 1) = Some p ->
          p == key last)
    /\ (forall i a p q,
          nth_error sorted i = Some a ->
          nth_error positions i = Some p ->
          nth_error positions (S i) = Some q ->
          q - (p + size a) == gap)
    /\ Forall2
         (fun b b' =>
            (forall i s p,
               nth_error sorted i = Some s -> block_id s = block_id b ->
               nth_error positions i = Some p -> b' = setPos b p)
            /\ (includes (selectedBlockIds state) (block_id b) = false ->
                b' = b))
         (blocks state) (blocks after).

(** A whole number of pixels of the size of a design: at most 2^32. *)
Definition smallPixel (v : number) : Prop :=
  exists n : Z, (Z.abs n <= 2 ^ 32)%Z /\ v == inject_Z n.

(** The free space of the row [sorted], from the near edge of its first
    block to the far edge of its last block less the extents of all its
    blocks, is [g] times the number of gaps. *)
Definition freeSpaceDivides (key size : EditorBlock -> number)
    (sorted : list EditorBlock) (g : Z) : Prop :=
  forall first last,
    nth_error sorted 0 = Some first ->
    nth_error sorted (List.length sorted - 1) = Some last ->
    (key last + size last - key first)
    - fold_left (fun sum b => sum + size b) sorted 0
    == inject_Z g * (inject_Z (Z.of_nat (List.length sorted)) - 1).

End StoreDistribute.

Arguments Returns {A} a.
Arguments ThrowsTypeError {A}.

(** Example state for the distribution: four blocks of width 10 at
    x = 0, 50, 200 and 385, all selected. *)
Definition exRowState : EditorState :=
  exState
    [ exBlock "p" TyText "one" (exLayout 0 0 10 40 1) None;
      exBlock "q" TyText "two" (exLayout 50 30 10 40 2) None;
      exBlock "r" TyText "three" (exLayout 200 60 10 40 3) None;
      exBlock "s" TyText "four" (exLayout 385 90 10 40 4) None ]
    ["p"; "q"; "r"; "s"].

(** A row that divides evenly: three blocks 100 wide at x = 0, 110 and
    400, and 20 high at y = 0, 10 and 70, all selected. *)
Definition exEvenRowState : EditorState :=
  exState
    [ exBlock "p" TyText "one" (exLayout 0 0 100 20 1) None;
      exBlock "q" TyText "two" (exLayout 110 10 100 20 2) None;
      exBlock "r" TyText "three" (exLayout 400 70 100 20 3) None ]
    ["p"; "q"; "r"].

(* ================================================================== *)
(** ** Vocabulary of the escaping statements at the level of the document *)

Section Weaving.

(** The text [k] placed between the texts [c], [cs], in order:
    [c k c1 k c2 ... k cn]. *)
Fixpoint weave (c : string) (cs : list string) (k : string) : string :=
  match cs with
  | [] => c
  | c' :: rest => c +++ k +++ weave c' rest k
  end.

(** The text has a character that [trim] keeps. *)
Fixpoint hasInk (s : string) : bool :=
  match s with
  | EmptyString => false
  | String a rest => negb (isWhiteSpace a) || hasInk rest
  end.

(** The text [f x] holds nothing of [x] but [core x], placed between
    texts that do not depend on [x]. *)
Definition wovenWhen {X : Type} (P : X -> Prop) (core f : X -> string)
    : Prop :=
  exists c cs, forall x, P x -> f x = weave c cs (core x).

(** The same, and the text is then blank for no [x] unless it does not
    depend on [x] at all. *)
Definition inked {X : Type} (P : X -> Prop) (core f : X -> string) : Prop :=
  exists c cs,
    (forall x, P x -> f x = weave c cs (core x))
    /\ (cs = [] \/ forall x, P x -> hasInk (f x) = true).

Definition inkedOpt {X : Type} (P : X -> Prop) (core : X -> string)
    (f : X -> option string) : Prop :=
  (forall x, P x -> f x = None)
  \/ exists g, inked P core g /\ forall x, P x -> f x = Some (g x).

(** The document [doc x] holds nothing of [x] but [core x]: it is returned
    for every [x] or for none, and when it is returned it is [core x]
    placed, any number of times, between texts that do not depend on
    [x]. *)
Definition reachesOnlyAs {X : Type} (P : X -> Prop) (core : X -> string)
    (doc : X -> option string) : Prop :=
  (forall x, P x -> doc x = None)
  \/ exists c cs, forall x, P x -> doc x = Some (weave c cs (core x)).

(** [b'] stands where [b] stands in the document: same id, type,
    visibility, parent and position. *)
Definition sameSlot (b b' : EditorBlock) : Prop :=
  block_id b' = block_id b /\ block_type b' = block_type b
  /\ isVisible b' = isVisible b /\ parentId b' = parentId b
  /\ layout_y (block_layout b') = layout_y (block_layout b).

End Weaving.

(** A font family that carries a double quote and a tag, and a text block
    styled with it. *)
Definition exQuotedFont : string := "Arial" +++ dq +++ "><b>".

Definition exStyledText : EditorBlock :=
  mkBlock "T" TyText "Hello" [("fontFamily", exQuotedFont)]
          (exLayout 0 0 300 40 1) "T" false true None
          None None None None None None (Some defaultConstraints).

(* ================================================================== *)
(** ** Basic facts *)

Lemma Qlt_bool_iff (a b : Q) : Qlt_bool a b = true <-> (a < b)%Q.
Proof.
  unfold Qlt_bool. rewrite negb_true_iff.
  split; intro H.
  - apply Qnot_le_lt. intro Hle. apply Qle_bool_iff in Hle. congruence.
  - destruct (Qle_bool b a) eqn:E; [|reflexivity].
    apply Qle_bool_iff in E. exfalso. apply (Qlt_not_le _ _ H E).
Qed.

Lemma Qlt_bool_false_iff (a b : Q) : Qlt_bool a b = false <-> (b <= a)%Q.
Proof.
  unfold Qlt_bool. rewrite negb_false_iff. apply Qle_bool_iff.
Qed.

Lemma Qle_bool_false_iff (a b : Q) : Qle_bool a b = false <-> (b < a)%Q.
Proof.
  split; intro H.
  - apply Qnot_le_lt. intro Hle. apply Qle_bool_iff in Hle. congruence.
  - destruct (Qle_bool a b) eqn:E; [|reflexivity].
    apply Qle_bool_iff in E. exfalso. apply (Qlt_not_le _ _ H E).
Qed.

Lemma Forall2_map_r {A B : Type} (R : A -> B -> Prop) (f : A -> B) (l : list A) :
  (forall a, In a l -> R a (f a)) -> Forall2 R l (map f l).
Proof.
  induction l as [|a l IH]; intros H; simpl; constructor.
  - apply H. now left.
  - apply IH. intros a' Ha'. apply H. now right.
Qed.

Lemma find_app_last {A : Type} (p : A -> bool) (l : list A) (g : A) :
  (forall a, In a l -> p a = false) -> p g = true ->
  find p (l ++ [g]) = Some g.
Proof.
  induction l as [|a l IH]; intros Hl Hg; simpl.
  - now rewrite Hg.
  - rewrite (Hl a (or_introl eq_refl)). apply IH; auto.
    intros a' Ha'. apply Hl. now right.
Qed.

Lemma filter_app_last {A : Type} (q : A -> bool) (l : list A) (g : A) :
  (forall a, In a l -> q a = true) -> q g = false ->
  filter q (l ++ [g]) = l.
Proof.
  induction l as [|a l IH]; intros Hl Hg; simpl.
  - now rewrite Hg.
  - rewrite (Hl a (or_introl eq_refl)). f_equal. apply IH; auto.
    intros a' Ha'. apply Hl. now right.
Qed.

(* ================================================================== *)
(** ** Hierarchy engine: group then ungroup *)

Section Binary64Facts.
Local Open Scope Z_scope.

Lemma roundHalfEven_1 (m : Z) : B64.roundHalfEven m 1 = m.
Proof.
  unfold B64.roundHalfEven. rewrite Z.div_1_r, Z.mod_1_r. reflexivity.
Qed.

Lemma nearest_whole (n : Z) :
  0 < n < 2 ^ 53 -> (B64.nearest n 1 == inject_Z n)%Q.
Proof.
  intros [Hpos Hlt].
  assert (Ha : Z.log2 n < 53) by (apply Z.log2_lt_pow2; lia).
  destruct (Z.log2_spec n Hpos) as [Hlo _].
  pose proof (Z.log2_nonneg n) as Ha0.
  unfold B64.nearest, B64.exponentOf.
  change (Z.log2 1) with 0. rewrite Z.sub_0_r.
  set (a := Z.log2 n) in *.
  destruct (Z.leb_spec 0 (a - 52)) as [Hge|Hneg].
  - assert (a = 52) by lia. subst a.
    replace (Z.log2 n - 52) with 0 by lia.
    change (2 ^ 0) with 1.
    match goal with
    | |- context [?x <? ?y] => destruct (Z.ltb_spec x y) as [Hb|_]
    end; [rewrite H in Hlo; lia|].
    change (Z.max 0 (-1074)) with 0. change (0 <=? 0) with true.
    cbv iota. change (2 ^ 0) with 1. change (Z.to_pos 1) with 1%positive.
    change (1 * 1)%positive with 1%positive.
    rewrite roundHalfEven_1. now rewrite Z.mul_1_r.
  - set (k := 52 - a).
    replace (- (a - 52)) with k by (unfold k; lia).
    assert (Hk : 0 < k) by (unfold k; lia).
    assert (Hp : 2 ^ 52 = 2 ^ a * 2 ^ k)
      by (rewrite <- Z.pow_add_r by lia; f_equal; unfold k; lia).
    assert (H2k : 0 < 2 ^ k) by (apply Z.pow_pos_nonneg; lia).
    match goal with
    | |- context [?x <? ?y] => destruct (Z.ltb_spec x y) as [Hb|_]
    end; [nia|].
    replace (Z.max (a - 52) (-1074)) with (a - 52) by lia.
    destruct (Z.leb_spec 0 (a - 52)) as [|_]; [lia|].
    replace (- (a - 52)) with k by (unfold k; lia).
    rewrite roundHalfEven_1, Qred_correct.
    unfold Qeq. cbn [Qnum Qden inject_Z]. rewrite Z2Pos.id by exact H2k. lia.
Qed.

Lemma Qred_whole (n : Z) : Qred (inject_Z n) = inject_Z n.
Proof.
  unfold Qred, inject_Z.
  pose proof (Z.ggcd_gcd n 1) as Hg.
  pose proof (Z.ggcd_correct_divisors n 1) as Hd.
  destruct (Z.ggcd n 1) as [g [aa bb]]. cbn [fst snd] in *.
  rewrite Z.gcd_1_r in Hg. subst g. destruct Hd as [Ha Hb].
  rewrite Z.mul_1_l in Ha, Hb. subst aa bb. reflexivity.
Qed.

(** Rounding leaves a whole number below 2^53 as it is. *)
Lemma round64_whole (n : Z) :
  Z.abs n < 2 ^ 53 -> (B64.round64 (inject_Z n) == inject_Z n)%Q.
Proof.
  intros Hn. unfold B64.round64. rewrite Qred_whole. cbn [Qnum Qden inject_Z].
  destruct n as [|p|p].
  - reflexivity.
  - apply nearest_whole. lia.
  - rewrite (nearest_whole (Zpos p)) by lia. reflexivity.
Qed.

(** Rounding depends on the value only. *)
Lemma round64_value (q q' : Q) :
  (q == q')%Q -> B64.round64 q = B64.round64 q'.
Proof.
  intros H. unfold B64.round64. now rewrite (Qred_complete q q' H).
Qed.

(** On whole pixels, taking a corner off and adding it back is exact. *)
Lemma wholePixel_roundtrip (x m : number) :
  wholePixel x -> wholePixel m -> (B64.add (B64.sub x m) m == x)%Q.
Proof.
  intros (n & Hn & Hx) (k & Hk & Hm). unfold B64.add, B64.sub.
  assert (Hd : (inject_Z (n - k) == inject_Z n - inject_Z k)%Q)
    by (unfold Z.sub; rewrite inject_Z_plus, inject_Z_opp; reflexivity).
  rewrite (round64_value (x - m) (inject_Z (n - k)))
    by (rewrite Hx, Hm, Hd; reflexivity).
  rewrite (round64_value (B64.round64 (inject_Z (n - k)) + m) (inject_Z n)).
  - rewrite round64_whole by lia. symmetry. exact Hx.
  - rewrite round64_whole by lia. rewrite Hm, Hd. ring.
Qed.

Lemma roundHalfEven_even (m : Z) : B64.roundHalfEven (2 * m) 2 = m.
Proof.
  unfold B64.roundHalfEven.
  replace (2 * m) with (m * 2) by lia.
  rewrite Z.div_mul by lia. rewrite Z.mod_mul by lia. reflexivity.
Qed.

Lemma roundHalfEven_nonneg (n : Z) (d : positive) :
  0 <= n -> 0 <= B64.roundHalfEven n d.
Proof.
  intros Hn. unfold B64.roundHalfEven.
  assert (0 <= n / Zpos d) by (apply Z.div_pos; lia).
  destruct (2 * (n mod Zpos d) ?= Zpos d); [destruct (Z.even _)| |]; lia.
Qed.

Lemma nearest_nonneg (n : Z) (d : positive) :
  0 <= n -> (0 <= B64.nearest n d)%Q.
Proof.
  intros Hn. unfold B64.nearest.
  destruct (0 <=? B64.exponentOf n d).
  - unfold Qle. cbn [Qnum Qden inject_Z]. rewrite Z.mul_0_l, Z.mul_1_r.
    apply Z.mul_nonneg_nonneg.
    + apply roundHalfEven_nonneg; exact Hn.
    + apply Z.pow_nonneg; lia.
  - rewrite Qred_correct. unfold Qle. cbn [Qnum Qden].
    rewrite Z.mul_0_l, Z.mul_1_r.
    apply roundHalfEven_nonneg.
    apply Z.mul_nonneg_nonneg; [exact Hn|apply Z.pow_nonneg; lia].
Qed.

(** Rounding keeps the sign: what is not negative stays so. *)
Lemma round64_nonneg (q : Q) : (0 <= q)%Q -> (0 <= B64.round64 q)%Q.
Proof.
  intros Hq. unfold B64.round64.
  assert (Hr : (0 <= Qred q)%Q) by (rewrite Qred_correct; exact Hq).
  destruct (Qred q) as [n d]. cbn [Qnum Qden].
  destruct n as [|p|p].
  - apply Qle_refl.
  - apply nearest_nonneg. lia.
  - unfold Qle in Hr. cbn [Qnum Qden] in Hr. lia.
Qed.

Lemma gcd_odd_2 (n : Z) : Z.odd n = true -> Z.gcd n 2 = 1.
Proof.
  intros Ho.
  pose proof (Z.gcd_nonneg n 2) as H0.
  pose proof (Z.gcd_divide_l n 2) as Hl.
  pose proof (Z.gcd_divide_r n 2) as Hr.
  assert (H2 : Z.gcd n 2 <= 2) by (apply Z.divide_pos_le; [lia|exact Hr]).
  assert (Hc : Z.gcd n 2 = 0 \/ Z.gcd n 2 = 1 \/ Z.gcd n 2 = 2) by lia.
  destruct Hc as [E|[E|E]]; [|exact E|].
  - rewrite E in Hr. destruct Hr as [k Hk]. lia.
  - rewrite E in Hl. destruct Hl as [k Hk].
    rewrite Hk, Z.mul_comm, Z.odd_mul in Ho. simpl in Ho. discriminate.
Qed.

Lemma Qred_odd_half (n : Z) : Z.odd n = true -> Qred (n # 2) = n # 2.
Proof.
  intros Ho. unfold Qred.
  pose proof (Z.ggcd_gcd n 2) as Hg.
  pose proof (Z.ggcd_correct_divisors n 2) as Hd.
  destruct (Z.ggcd n 2) as [g [aa bb]]. cbn [fst snd] in *.
  rewrite gcd_odd_2 in Hg by exact Ho. subst g. destruct Hd as [Ha Hb].
  rewrite Z.mul_1_l in Ha, Hb. subst aa bb. reflexivity.
Qed.

Lemma nearest_half (n : Z) :
  0 < n < 2 ^ 53 -> (B64.nearest n 2 == n # 2)%Q.
Proof.
  intros [Hpos Hlt].
  assert (Ha : Z.log2 n < 53) by (apply Z.log2_lt_pow2; lia).
  destruct (Z.log2_spec n Hpos) as [Hlo _].
  pose proof (Z.log2_nonneg n) as Ha0.
  unfold B64.nearest, B64.exponentOf.
  change (Z.log2 2) with 1.
  set (a := Z.log2 n) in *.
  set (k := 53 - a).
  assert (Hk : 0 < k) by (unfold k; lia).
  replace (a - 1 - 52) with (- k) by (unfold k; lia).
  destruct (Z.leb_spec 0 (- k)) as [|_]; [lia|].
  rewrite Z.opp_involutive.
  assert (Hp : 2 ^ 53 = 2 ^ a * 2 ^ k)
    by (rewrite <- Z.pow_add_r by lia; f_equal; unfold k; lia).
  assert (H2k : 0 < 2 ^ k) by (apply Z.pow_pos_nonneg; lia).
  assert (H53 : 2 ^ 52 * 2 = 2 ^ 53) by reflexivity.
  match goal with
  | |- context [?x <? ?y] => destruct (Z.ltb_spec x y) as [Hb|_]
  end; [nia|].
  replace (Z.max (- k) (-1074)) with (- k) by (unfold k; lia).
  destruct (Z.leb_spec 0 (- k)) as [|_]; [lia|].
  rewrite Z.opp_involutive.
  assert (Hk1 : 2 ^ k = 2 * 2 ^ (k - 1)).
  { replace k with (1 + (k - 1)) at 1 by lia.
    rewrite Z.pow_add_r by lia. reflexivity. }
  replace (n * 2 ^ k) with (2 * (n * 2 ^ (k - 1))) by (rewrite Hk1; ring).
  rewrite roundHalfEven_even, Qred_correct.
  unfold Qeq. cbn [Qnum Qden]. rewrite Z2Pos.id by exact H2k.
  rewrite Hk1. change (Z.pos 2) with 2. ring.
Qed.

(** Rounding leaves a whole number up to 2^53 as it is. *)
Lemma round64_int (q : Q) (n : Z) :
  (q == inject_Z n)%Q -> Z.abs n <= 2 ^ 53 -> (B64.round64 q == q)%Q.
Proof.
  intros Hq Hn. rewrite (round64_value q (inject_Z n) Hq), Hq.
  assert (Hc : Z.abs n < 2 ^ 53 \/ n = 2 ^ 53 \/ n = - 2 ^ 53) by lia.
  destruct Hc as [H|[->| ->]];
    [now apply round64_whole|vm_compute; reflexivity|vm_compute; reflexivity].
Qed.

(** Rounding leaves a half of a whole number up to 2^53 as it is. *)
Lemma round64_half (q : Q) (n : Z) :
  (q == n # 2)%Q -> Z.abs n <= 2 ^ 53 -> (B64.round64 q == q)%Q.
Proof.
  intros Hq Hn. destruct (Z.odd n) eqn:Ho.
  - rewrite (round64_value q (n # 2) Hq), Hq.
    assert (Hlt : Z.abs n < 2 ^ 53).
    { assert (Hne : n <> 2 ^ 53 /\ n <> - 2 ^ 53); [|lia].
      split; intros E; rewrite E in Ho; vm_compute in Ho; discriminate. }
    unfold B64.round64. rewrite Qred_odd_half by exact Ho.
    cbn [Qnum Qden].
    destruct n as [|p|p].
    + discriminate.
    + apply nearest_half. lia.
    + rewrite (nearest_half (Zpos p)) by lia. reflexivity.
  - assert (He : Z.even n = true) by (now rewrite <- Z.negb_odd, Ho).
    apply Z.even_spec in He. destruct He as [m Hm].
    apply (round64_int q m).
    + rewrite Hq. subst n. unfold Qeq. cbn [Qnum Qden inject_Z]. lia.
    + lia.
Qed.

End Binary64Facts.

Lemma Math_min_list_In (vs : list number) :
  vs <> [] -> In (Math_min_list vs) vs.
Proof.
  induction vs as [|a vs IH]; [congruence|]. intros _.
  destruct vs as [|a' vs']; [now left|].
  change (Math_min_list (a :: a' :: vs'))
    with (Math_min a (Math_min_list (a' :: vs'))).
  unfold Math_min at 1. destruct (Qle_bool _ _); [now left|].
  right. apply IH. discriminate.
Qed.

Lemma Forall2_impl_In {X Y : Type} (R R' : X -> Y -> Prop) (l : list X)
    (l' : list Y) :
  (forall x y, In x l -> R x y -> R' x y) -> Forall2 R l l' -> Forall2 R' l l'.
Proof.
  intros Himp H. induction H as [|x y l l' Hxy Hl IH]; constructor.
  - apply Himp; [now left|exact Hxy].
  - apply IH. intros a b Ha. apply Himp. now right.
Qed.

Section GroupUngroup.
Local Open Scope Q_scope.

Lemma sameBlockElsewhere_refl b : sameBlockElsewhere b b.
Proof. unfold sameBlockElsewhere; repeat split. Qed.

(** C1, as amended. For every document state and every selection of at
    least two top-level blocks, grouping (under a fresh group identifier)
    and then immediately ungrouping the resulting group returns every
    selected block with a null parentId at the coordinates
    ((x - boxX) + boxX, (y - boxY) + boxY), the two operations being the
    binary64 ones and (boxX, boxY) the corner of the group box; the block
    list keeps its length and order, and nothing else of a block changes.
    When the selected blocks sit on whole pixels these are the pre-group
    coordinates (x, y). *)
Theorem group_ungroup_roundtrip :
  forall (state : EditorState) (now rnd : string),
    (2 <= List.length (selectedBlockIds state))%nat ->
    (2 <= List.length (filter (isSelectedTopLevel (selectedBlockIds state))
                              (blocks state)))%nat ->
    (forall b, In b (blocks state) -> block_id b <> newGroupId now rnd) ->
    let members := filter (isSelectedTopLevel (selectedBlockIds state))
                          (blocks state) in
    let boxX := Math_min_list
                  (map (fun b => layout_x (block_layout b)) members) in
    let boxY := Math_min_list
                  (map (fun b => layout_y (block_layout b)) members) in
    let grouped := apply (groupSelectedBlocks now rnd) state in
    let state' := apply ungroupSelectedBlock grouped in
    selectedBlockIds grouped = [newGroupId now rnd]
    /\ Forall2 (returned (selectedBlockIds state) boxX boxY)
               (blocks state) (blocks state')
    /\ ((forall b, In b members ->
           wholePixel (layout_x (block_layout b))
           /\ wholePixel (layout_y (block_layout b))) ->
        Forall2 (restored (selectedBlockIds state))
                (blocks state) (blocks state')).
Proof.
  intros state now rnd Hsel Htop Hfresh members boxX boxY grouped state'.
  assert (Hg : exists G grp,
    blocks grouped = map G (blocks state) ++ [grp]
    /\ selectedBlockIds grouped = [newGroupId now rnd]
    /\ block_id grp = newGroupId now rnd /\ block_type grp = TyGroup
    /\ layout_x (block_layout grp) = boxX
    /\ layout_y (block_layout grp) = boxY
    /\ (forall b, block_id (G b) = block_id b /\ sameBlockElsewhere b (G b))
    /\ (forall b, isSelectedTopLevel (selectedBlockIds state) b = true ->
          parentId (G b) = Some (newGroupId now rnd)
          /\ layout_x (block_layout (G b))
             = B64.sub (layout_x (block_layout b)) boxX
          /\ layout_y (block_layout (G b))
             = B64.sub (layout_y (block_layout b)) boxY)
    /\ (forall b, isSelectedTopLevel (selectedBlockIds state) b = false ->
          G b = b)).
  { subst grouped. unfold apply, groupSelectedBlocks.
    destruct (Nat.ltb_spec (List.length (selectedBlockIds state)) 2) as [Hlt|_];
      [lia|].
    destruct (Nat.ltb_spec
      (List.length (filter (isSelectedTopLevel (selectedBlockIds state))
                           (blocks state))) 2) as [Hlt|_]; [lia|].
    cbn [merge orKeep p_blocks p_selectedBlockIds blocks selectedBlockIds].
    eexists. eexists. split; [reflexivity|]. split; [reflexivity|].
    split; [reflexivity|]. split; [reflexivity|].
    split; [reflexivity|]. split; [reflexivity|].
    split; [|split].
    - intros b. destruct (isSelectedTopLevel (selectedBlockIds state) b);
        split; try reflexivity; unfold sameBlockElsewhere; repeat split.
    - intros b Hb. rewrite Hb. cbn. repeat split.
    - intros b Hb. now rewrite Hb. }
  destruct Hg as (G & grp & Hblocks & Hselg & Hgid & Hgty & Hgx & Hgy
                    & HGid & HGsel & HGnot).
  split; [exact Hselg|].
  set (gid := newGroupId now rnd) in *.
  assert (Hfind : find (fun b => String.eqb (block_id b) gid
                                 && BlockType_eqb (block_type b) TyGroup)
                       (blocks grouped) = Some grp).
  { rewrite Hblocks. apply find_app_last.
    - intros a Ha. apply in_map_iff in Ha. destruct Ha as (b & <- & Hb).
      destruct (HGid b) as [-> _].
      apply andb_false_intro1. apply String.eqb_neq. now apply Hfresh.
    - rewrite Hgid, Hgty. now rewrite String.eqb_refl. }
  assert (Hkept : filter (fun b => negb (String.eqb (block_id b) gid))
                         (blocks grouped) = map G (blocks state)).
  { rewrite Hblocks. apply filter_app_last.
    - intros a Ha. apply in_map_iff in Ha. destruct Ha as (b & <- & Hb).
      destruct (HGid b) as [-> _].
      apply negb_true_iff, String.eqb_neq. now apply Hfresh.
    - rewrite Hgid. now rewrite String.eqb_refl. }
  assert (Hret : Forall2 (returned (selectedBlockIds state) boxX boxY)
                         (blocks state) (blocks state')).
  { subst state'. unfold apply, ungroupSelectedBlock.
    rewrite Hselg. fold gid. rewrite Hfind, Hkept.
    cbn [merge orKeep p_blocks blocks].
    rewrite map_map. apply Forall2_map_r.
    intros b Hb. unfold returned.
    destruct (isSelectedTopLevel (selectedBlockIds state) b) eqn:Esel.
    - destruct (HGsel b Esel) as (Hp & Hx & Hy).
      destruct (HGid b) as (_ & Hsame).
      rewrite Hp. cbn [optStrEq]. rewrite String.eqb_refl.
      split.
      + unfold sameBlockElsewhere in *. cbn. intuition.
      + intros _. cbn. split; [reflexivity|].
        rewrite Hx, Hy, Hgx, Hgy. split; reflexivity.
    - rewrite (HGnot b Esel).
      split; [|discriminate].
      destruct (optStrEq (parentId b) gid).
      + unfold sameBlockElsewhere. cbn. repeat split.
      + apply sameBlockElsewhere_refl. }
  split; [exact Hret|].
  intros Hwhole.
  assert (Hne : members <> []).
  { intros E. subst members. rewrite E in Htop. simpl in Htop. lia. }
  assert (HboxX : wholePixel boxX).
  { assert (Hin := Math_min_list_In
                     (map (fun b => layout_x (block_layout b)) members)).
    destruct (in_map_iff (fun b => layout_x (block_layout b)) members boxX)
      as [Hm _].
    destruct Hm as (b0 & <- & Hb0).
    - apply Hin. destruct members; [congruence|discriminate].
    - now apply Hwhole. }
  assert (HboxY : wholePixel boxY).
  { assert (Hin := Math_min_list_In
                     (map (fun b => layout_y (block_layout b)) members)).
    destruct (in_map_iff (fun b => layout_y (block_layout b)) members boxY)
      as [Hm _].
    destruct Hm as (b0 & <- & Hb0).
    - apply Hin. destruct members; [congruence|discriminate].
    - now apply Hwhole. }
  eapply Forall2_impl_In; [|exact Hret].
  intros b b' Hb [Hsame Hsel']. split; [exact Hsame|].
  intros Esel. destruct (Hsel' Esel) as (Hp & Hx & Hy).
  assert (Hmem : In b members) by (apply filter_In; now split).
  destruct (Hwhole b Hmem) as [Wx Wy].
  split; [exact Hp|]. rewrite Hx, Hy.
  split; now apply wholePixel_roundtrip.
Qed.

End GroupUngroup.

Lemma group_ungroup_roundtrip_witness :
  let state :=
    exState [ exBlock "a" TyText "Hello" (exLayout 10 20 300 40 1) None;
              exBlock "b" TyButton "Go" (exLayout 100 50 150 48 2) None;
              exBlock "c" TyText "Other" (exLayout 5 5 10 10 3) None ]
            ["a"; "b"] in
  let grouped := apply (groupSelectedBlocks "1700000000000" "k3j9x2a") state in
  selectedBlockIds grouped = [newGroupId "1700000000000" "k3j9x2a"]
  /\ Forall2 (restored (selectedBlockIds state)) (blocks state)
             (blocks (apply ungroupSelectedBlock grouped)).
Proof.
  intros state.
  destruct (group_ungroup_roundtrip state "1700000000000" "k3j9x2a")
    as (Hsel & _ & Hrestored).
  - simpl. lia.
  - vm_compute. lia.
  - intros b Hb. simpl in Hb.
    destruct Hb as [<-|[<-|[<-|[]]]]; vm_compute; discriminate.
  - split; [exact Hsel|]. apply Hrestored.
    intros b Hb. vm_compute in Hb.
    destruct Hb as [<-|[<-|[]]]; split;
      [exists 10%Z|exists 20%Z|exists 100%Z|exists 50%Z];
      (split; [vm_compute; discriminate|reflexivity]).
Defined.

(** C1 as stated fails: the block at x = 48.666666666666664, grouped
    with the block at x = 3.333333333333332 and ungrouped at once, comes
    back at x = 48.66666666666666: the difference 45.33333333333333 is
    rounded, and adding the corner back does not undo the rounding. *)
Lemma group_ungroup_moves_last_digit :
  let state := exFractionalState in
  let grouped := apply (groupSelectedBlocks "1700000000000" "k3j9x2a") state in
  let state' := apply ungroupSelectedBlock grouped in
  map (fun b => layout_x (block_layout b)) (blocks state)
  = [ 6849224433292629 # 140737488355328;
      938249922368853 # 281474976710656 ]
  /\ map (fun b => Qred (layout_x (block_layout b))) (blocks state')
     = [ 1712306108323157 # 35184372088832;
         938249922368853 # 281474976710656 ]
  /\ ~ (1712306108323157 # 35184372088832
        == 6849224433292629 # 140737488355328)
  /\ ~ Forall2 (restored (selectedBlockIds state))
               (blocks state) (blocks state').
Proof.
  intros state grouped state'.
  split; [reflexivity|]. split; [vm_compute; reflexivity|].
  split; [vm_compute; discriminate|].
  intros H. inversion H as [|b b' l l' [_ Hr] _ Eb Eb']. subst.
  destruct (Hr eq_refl) as (_ & Hx & _).
  vm_compute in Hx. discriminate.
Qed.

(* ================================================================== *)
(** ** Constraint resolution engine *)

Section ResizeFacts.
Local Open Scope Q_scope.

Lemma Math_min_left (a b : Q) : a <= b -> Math_min a b = a.
Proof.
  intros H. unfold Math_min. apply Qle_bool_iff in H. now rewrite H.
Qed.

Lemma Math_max_right (a b : Q) : a <= b -> Math_max a b = b.
Proof.
  intros H. unfold Math_max. apply Qle_bool_iff in H. now rewrite H.
Qed.

Lemma layout_eta (l : BlockLayout) :
  mkLayout (layout_x l) (layout_y l) (layout_width l) (layout_height l)
           (layout_zIndex l) = l.
Proof. now destruct l. Qed.

(** A block anchored left that lies within the new canvas goes through
    the clamp and the width check untouched. *)
Lemma resizeBlock_left_fits (oldWidth newWidth : number) (b : EditorBlock) :
  horizontalOf b = HLeft -> fitsWithin newWidth b ->
  block_layout (resizeBlock oldWidth newWidth b) = block_layout b.
Proof.
  intros Hleft [Hx Hfit].
  unfold resizeBlock, horizontalOf in *.
  destruct (constraints b) as [c|]; cbn [horizontal defaultConstraints] in *;
    rewrite ?Hleft; cbn -[Math_max Math_min Qlt_bool].
  all: rewrite Math_min_left by lra; rewrite Math_max_right by exact Hx.
  all: replace (Qlt_bool newWidth (layout_width (block_layout b))) with false
         by (symmetry; apply Qlt_bool_false_iff; lra).
  all: apply layout_eta.
Qed.

(** The new layout of a block is a function of its layout and anchoring
    only. *)
Lemma resizeBlock_parent_irrelevant (oldWidth newWidth : number)
    (b : EditorBlock) (p : option string) :
  block_layout (resizeBlock oldWidth newWidth (with_parent b p))
  = block_layout (resizeBlock oldWidth newWidth b)
  /\ parentId (resizeBlock oldWidth newWidth (with_parent b p)) = p.
Proof.
  unfold resizeBlock, with_parent, with_parent_layout, with_layout.
  cbn [constraints block_layout parentId].
  destruct (constraints b) as [c|]; [destruct (horizontal c)|];
    split; reflexivity.
Qed.

(** C4, as amended. For every canvas width change and every block whose
    horizontal anchoring is 'left' and which lies within the new canvas
    (0 <= x and x + width <= newWidth), the resize-with-constraints
    operation leaves the block's layout record entirely unchanged. *)
Theorem resize_left_within_unchanged :
  forall (state : EditorState) (newWidth : number),
    Forall2 (fun b b' =>
               horizontalOf b = HLeft -> fitsWithin newWidth b ->
               block_layout b' = block_layout b)
            (blocks state)
            (blocks (apply (resizeCanvasWithConstraints newWidth) state)).
Proof.
  intros state newWidth. unfold apply, resizeCanvasWithConstraints.
  destruct (Qeq_bool (canvas_width (canvasSettings state)) newWidth).
  - rewrite <- (map_id (blocks state)) at 2. apply Forall2_map_r. auto.
  - cbn [merge orKeep p_blocks blocks]. apply Forall2_map_r.
    intros b _ Hleft Hfit. now apply resizeBlock_left_fits.
Qed.

Lemma resize_left_within_unchanged_witness :
  let b := exBlock "a" TyText "Hello" (exLayout 20 100 150 40 1) None in
  let state := exState [b] [] in
  horizontalOf b = HLeft /\ fitsWithin 320 b
  /\ Forall2 (fun b b' =>
                horizontalOf b = HLeft -> fitsWithin 320 b ->
                block_layout b' = block_layout b)
             (blocks state)
             (blocks (apply (resizeCanvasWithConstraints 320) state)).
Proof.
  intros b state. split; [reflexivity|]. split.
  - split; vm_compute; discriminate.
  - apply (resize_left_within_unchanged state 320).
Defined.

(** C4 as stated fails: a left-anchored top-level block at x = 400 of
    width 150 is moved to x = 170 when the canvas goes from 600 to 320. *)
Lemma resize_left_moved :
  let state := exState [exLeftBlock] [] in
  horizontalOf exLeftBlock = HLeft /\ parentId exLeftBlock = None
  /\ map (fun b => Qred (layout_x (block_layout b)))
         (blocks (apply (resizeCanvasWithConstraints 320) state)) = [170]
  /\ map block_layout (blocks (apply (resizeCanvasWithConstraints 320) state))
     <> map block_layout (blocks state).
Proof.
  repeat split. intros H. vm_compute in H. discriminate.
Qed.

(** C3, as amended. When the canvas width changes, every block, group
    child or top-level alike, is recomputed by the same anchoring and
    clamping rules from its own constraint: the new layout does not depend
    on parentId, and parentId itself is kept.  A group child keeps its
    layout when it is anchored left and lies within the new canvas. *)
Theorem resize_applies_to_children :
  forall (state : EditorState) (newWidth : number),
    Qeq_bool (canvas_width (canvasSettings state)) newWidth = false ->
    let oldWidth := canvas_width (canvasSettings state) in
    blocks (apply (resizeCanvasWithConstraints newWidth) state)
    = map (resizeBlock oldWidth newWidth) (blocks state)
    /\ (forall b p,
          block_layout (resizeBlock oldWidth newWidth (with_parent b p))
          = block_layout (resizeBlock oldWidth newWidth (with_parent b None))
          /\ parentId (resizeBlock oldWidth newWidth (with_parent b p)) = p)
    /\ (forall b, In b (blocks state) -> parentId b <> None ->
          horizontalOf b = HLeft -> fitsWithin newWidth b ->
          block_layout (resizeBlock oldWidth newWidth b) = block_layout b).
Proof.
  intros state newWidth Hne oldWidth. split; [|split].
  - unfold apply, resizeCanvasWithConstraints. now rewrite Hne.
  - intros b p.
    destruct (resizeBlock_parent_irrelevant oldWidth newWidth b p) as [-> ->].
    destruct (resizeBlock_parent_irrelevant oldWidth newWidth b None) as [-> _].
    split; reflexivity.
  - intros b _ _ Hleft Hfit. now apply resizeBlock_left_fits.
Qed.

Lemma resize_applies_to_children_witness :
  let state := exState [exLeftBlock; exLeftChild] [] in
  blocks (apply (resizeCanvasWithConstraints 320) state)
  = map (resizeBlock 600 320) (blocks state)
  /\ (forall b p,
        block_layout (resizeBlock 600 320 (with_parent b p))
        = block_layout (resizeBlock 600 320 (with_parent b None))
        /\ parentId (resizeBlock 600 320 (with_parent b p)) = p)
  /\ (forall b, In b (blocks state) -> parentId b <> None ->
        horizontalOf b = HLeft -> fitsWithin 320 b ->
        block_layout (resizeBlock 600 320 b) = block_layout b).
Proof.
  intros state.
  apply (resize_applies_to_children state 320). reflexivity.
Defined.

(** C3 as stated fails: a group child anchored right at relative x = 10
    is moved to x = 0 when the canvas goes from 600 to 400. *)
Lemma resize_moves_group_child :
  let state := exState [exRightChild] [] in
  parentId exRightChild = Some "g"
  /\ map (fun b => Qred (layout_x (block_layout b)))
         (blocks (apply (resizeCanvasWithConstraints 400) state)) = [0]
  /\ map block_layout (blocks (apply (resizeCanvasWithConstraints 400) state))
     <> map block_layout (blocks state).
Proof.
  repeat split. intros H. vm_compute in H. discriminate.
Qed.

End ResizeFacts.

(* ================================================================== *)
(** ** History manager *)

Section HistoryFacts.

Lemma undo_after_commit (s : EditorState) (pre : Snapshot) (h : Temporal) :
  fst (undo (s, commit pre h)) = restore s pre.
Proof.
  unfold undo, commit. cbn [pastStates futureStates].
  rewrite rev_app_distr. reflexivity.
Qed.

(** Restoring a snapshot sets the blocks and the counters and nothing
    else. *)
Lemma restore_frame (s : EditorState) (snap : Snapshot) :
  blocks (restore s snap) = snap_blocks snap
  /\ blockCounters (restore s snap) = snap_blockCounters snap
  /\ variables (restore s snap) = variables s
  /\ canvasSettings (restore s snap) = canvasSettings s
  /\ selectedBlockIds (restore s snap) = selectedBlockIds s
  /\ viewport (restore s snap) = viewport s
  /\ assets (restore s snap) = assets s.
Proof. repeat split. Qed.

(** C5, as amended. A history entry holds the blocks and the per-type
    name counters only.  Undo right after any store update brings back
    the blocks and counters of before the update and leaves every other
    field, the design tokens among them, as the update left it; so an undo
    right after deleting a token leaves the token deleted. *)
Theorem undo_restores_blocks_only :
  forall (state : EditorState) (h : Temporal),
    (forall (act : Action) (p : Patch), act state = Some p ->
       let state' := fst (undo (dispatch act (state, h))) in
       blocks state' = blocks state
       /\ blockCounters state' = blockCounters state
       /\ variables state' = variables (apply act state)
       /\ canvasSettings state' = canvasSettings (apply act state))
    /\ (forall id : string,
          variables (fst (undo (dispatch (deleteVariable id) (state, h))))
          = filter (fun v => negb (String.eqb (token_id v) id))
                   (variables state)).
Proof.
  intros state h. split.
  - intros act p Hact state'. subst state'.
    unfold dispatch, apply. rewrite Hact. rewrite undo_after_commit.
    repeat split.
  - intros id. unfold dispatch. cbn [deleteVariable].
    rewrite undo_after_commit. reflexivity.
Qed.

Lemma undo_restores_blocks_only_witness :
  let state := exState [exLeftBlock] [] in
  let act := removeBlock "a" in
  let state' := fst (undo (dispatch act (state, noHistory))) in
  blocks state' = blocks state
  /\ blockCounters state' = blockCounters state
  /\ variables state' = variables (apply act state)
  /\ canvasSettings state' = canvasSettings (apply act state).
Proof.
  intros state act.
  apply (proj1 (undo_restores_blocks_only state noHistory) act
               (mkPatch (Some []) (Some []) None None None None)).
  reflexivity.
Defined.

(** C5 as stated fails: the token "var-primary" is in the store, it is
    deleted, and the undo that follows does not bring it back, while the
    undo of a block removal does bring the block back. *)
Lemma undo_after_deleteVariable_keeps_token_deleted :
  let state := exState [exLeftBlock] [] in
  let after := fst (undo (dispatch (deleteVariable "var-primary")
                                   (state, noHistory))) in
  map token_id (variables state) = ["var-primary"; "var-text"]
  /\ map token_id (variables after) = ["var-text"]
  /\ map block_id
         (blocks (fst (undo (dispatch (removeBlock "a") (state, noHistory)))))
     = ["a"].
Proof. repeat split. Qed.

End HistoryFacts.

(* ================================================================== *)
(** ** Snap/guide engine *)

Lemma Qabs_cases (v : Q) :
  (0 <= v /\ Qabs v == v)%Q \/ (v <= 0 /\ Qabs v == - v)%Q.
Proof.
  destruct (Qlt_le_dec v 0) as [H|H].
  - right. split; [lra|]. apply Qabs_neg. lra.
  - left. split; [exact H|]. now apply Qabs_pos.
Qed.

(** Case analysis on the sign under an absolute value. *)
Ltac qabs v :=
  let H := fresh "Habs" in
  destruct (Qabs_cases v) as [[? H]|[? H]].

Lemma filter_none {A : Type} (f : A -> bool) (l : list A) :
  (forall a, In a l -> f a = false) -> filter f l = [].
Proof.
  induction l as [|a l IH]; intros H; simpl; [reflexivity|].
  rewrite (H a (or_introl eq_refl)). apply IH.
  intros b Hb. apply H. now right.
Qed.

Section Dedupe.
Local Open Scope Q_scope.

Lemma GuideType_eqb_eq (a b : GuideType) : GuideType_eqb a b = true <-> a = b.
Proof. destruct a, b; simpl; split; congruence. Qed.

Lemma sameLine_iff (guide g : GuideLine) :
  sameLine guide g = true <-> shareLine g guide.
Proof.
  unfold sameLine, shareLine, Math_abs.
  rewrite andb_true_iff, GuideType_eqb_eq, Qlt_bool_iff. tauto.
Qed.

Lemma sameLine_refl (g : GuideLine) : sameLine g g = true.
Proof.
  apply sameLine_iff. split; [reflexivity|].
  qabs (position g - position g); lra.
Qed.

Lemma shareLine_sym (g g' : GuideLine) : shareLine g g' -> shareLine g' g.
Proof.
  intros [Ht Hp]. split; [congruence|].
  qabs (position g - position g'); qabs (position g' - position g); lra.
Qed.

Lemma onLine_iff (t : GuideType) (c : number) (g : GuideLine) :
  onLine t c g = true <-> guide_type g = t /\ position g == c.
Proof.
  unfold onLine. now rewrite andb_true_iff, GuideType_eqb_eq, Qeq_bool_iff.
Qed.

Lemma onLine_shareLine (t : GuideType) (c : number) (g g' : GuideLine) :
  onLine t c g = true -> onLine t c g' = true -> shareLine g g'.
Proof.
  rewrite !onLine_iff. intros [Ht Hp] [Ht' Hp']. split; [congruence|].
  qabs (position g - position g'); lra.
Qed.

(** *** [findIndex] *)

Lemma findIndex_Some_before {A : Type} (p : A -> bool) (l : list A) (k : nat) :
  findIndex p l = Some k ->
  forall m a, (m < k)%nat -> nth_error l m = Some a -> p a = false.
Proof.
  revert k. induction l as [|h l IH]; intros k Hk m a Hm Hnth; simpl in Hk.
  - discriminate.
  - destruct (p h) eqn:Eh.
    + inversion Hk; subst. lia.
    + destruct (findIndex p l) as [i|] eqn:Ei; [|discriminate].
      inversion Hk; subst. destruct m as [|m]; simpl in Hnth.
      * now inversion Hnth; subst.
      * apply (IH i eq_refl m a); [lia|exact Hnth].
Qed.

Lemma findIndex_first {A : Type} (p : A -> bool) (l : list A) (k : nat) (a : A) :
  nth_error l k = Some a -> p a = true ->
  (forall m b, (m < k)%nat -> nth_error l m = Some b -> p b = false) ->
  findIndex p l = Some k.
Proof.
  revert k. induction l as [|h l IH]; intros k Hnth Ha Hbefore.
  - destruct k; discriminate.
  - destruct k as [|k]; simpl in *.
    + inversion Hnth; subst. now rewrite Ha.
    + rewrite (Hbefore 0%nat h) by (try lia; reflexivity).
      rewrite (IH k Hnth Ha); [reflexivity|].
      intros m b Hm Hb. apply (Hbefore (S m) b); [lia|exact Hb].
Qed.

(** *** Ordered pairs under [filter], [map] and indexing *)

Lemma FOP_filter {A : Type} (R : A -> A -> Prop) (f : A -> bool) (l : list A) :
  ForallOrdPairs R l -> ForallOrdPairs R (filter f l).
Proof.
  induction 1 as [|a l Ha Hl IH]; simpl; [constructor|].
  destruct (f a); [|exact IH].
  constructor; [|exact IH].
  rewrite Forall_forall in *. intros x Hx. apply filter_In in Hx. now apply Ha.
Qed.

Lemma FOP_map {A B : Type} (R : B -> B -> Prop) (f : A -> B) (l : list A) :
  ForallOrdPairs (fun a b => R (f a) (f b)) l -> ForallOrdPairs R (map f l).
Proof.
  induction 1 as [|a l Ha Hl IH]; simpl; constructor; [|exact IH].
  rewrite Forall_forall in *. intros x Hx. apply in_map_iff in Hx.
  destruct Hx as (y & <- & Hy). now apply Ha.
Qed.

Lemma FOP_impl_In {A : Type} (R R' : A -> A -> Prop) (l : list A) :
  (forall a b, In a l -> In b l -> R a b -> R' a b) ->
  ForallOrdPairs R l -> ForallOrdPairs R' l.
Proof.
  intros Himp H. induction H as [|a l Ha Hl IH]; constructor.
  - rewrite Forall_forall in *. intros x Hx.
    apply Himp; [now left|now right|now apply Ha].
  - apply IH. intros x y Hx Hy. apply Himp; now right.
Qed.

Lemma In_combine_seq {A : Type} (l : list A) (s i : nat) (a : A) :
  In (i, a) (combine (seq s (List.length l)) l) ->
  (s <= i)%nat /\ nth_error l (i - s) = Some a.
Proof.
  revert s. induction l as [|h l IH]; intros s Hin; simpl in Hin; [easy|].
  destruct Hin as [Heq|Hin].
  - inversion Heq; subst. split; [lia|]. now rewrite Nat.sub_diag.
  - apply IH in Hin. destruct Hin as [Hle Hnth]. split; [lia|].
    replace (i - s)%nat with (S (i - S s)) by lia. exact Hnth.
Qed.

Lemma combine_seq_In {A : Type} (l : list A) (s k : nat) (a : A) :
  nth_error l k = Some a ->
  In ((s + k)%nat, a) (combine (seq s (List.length l)) l).
Proof.
  revert s k. induction l as [|h l IH]; intros s k Hnth.
  - destruct k; discriminate.
  - destruct k as [|k]; simpl in *.
    + inversion Hnth; subst. left. f_equal. lia.
    + right. replace (s + S k)%nat with (S s + k)%nat by lia. now apply IH.
Qed.

Lemma FOP_combine_seq {A : Type} (l : list A) (s : nat) :
  ForallOrdPairs (fun p q : nat * A => (fst p < fst q)%nat)
                 (combine (seq s (List.length l)) l).
Proof.
  revert s. induction l as [|h l IH]; intros s; simpl; constructor.
  - rewrite Forall_forall. intros [i a] Hin. apply In_combine_seq in Hin.
    simpl. lia.
  - apply IH.
Qed.

(** *** The deduplication *)

(** No two guides the deduplication keeps share a line. *)
Lemma dedupeGuides_distinct (self : list GuideLine) :
  ForallOrdPairs (fun g g' => ~ shareLine g g') (dedupeGuides self).
Proof.
  unfold dedupeGuides. apply FOP_map.
  eapply FOP_impl_In; [|apply FOP_filter, FOP_combine_seq].
  intros [i g] [j g'] Hi Hj Hlt. simpl in *.
  apply filter_In in Hi. destruct Hi as [Hi _].
  apply filter_In in Hj. destruct Hj as [Hj Hkeep]. simpl in Hkeep.
  apply In_combine_seq in Hi. apply In_combine_seq in Hj.
  rewrite Nat.sub_0_r in *.
  destruct (findIndex (sameLine g') self) as [k|] eqn:Ek; [|discriminate].
  apply Nat.eqb_eq in Hkeep. subst k.
  intros Hshare.
  assert (Hfalse : sameLine g' g = false).
  { apply (findIndex_Some_before _ _ _ Ek i g); tauto. }
  apply sameLine_iff in Hshare. congruence.
Qed.

(** A guide with no earlier guide on its line is kept. *)
Lemma dedupeGuides_keeps (self : list GuideLine) (k : nat) (g : GuideLine) :
  nth_error self k = Some g ->
  (forall m g', (m < k)%nat -> nth_error self m = Some g' ->
                sameLine g g' = false) ->
  In g (dedupeGuides self).
Proof.
  intros Hnth Hbefore. unfold dedupeGuides.
  apply in_map_iff. exists (k, g). split; [reflexivity|].
  apply filter_In. split.
  - apply (combine_seq_In self 0 k g Hnth).
  - simpl. rewrite (findIndex_first _ _ k g Hnth (sameLine_refl g) Hbefore).
    apply Nat.eqb_refl.
Qed.

Lemma dedupeGuides_In (self : list GuideLine) (g : GuideLine) :
  In g (dedupeGuides self) -> In g self.
Proof.
  unfold dedupeGuides. intros Hin. apply in_map_iff in Hin.
  destruct Hin as ([i g'] & <- & Hin). apply filter_In in Hin.
  destruct Hin as [Hin _]. apply In_combine_seq in Hin.
  simpl. eapply nth_error_In. apply Hin.
Qed.

(** At most one kept guide lies on a given line. *)
Lemma distinct_at_most_one (t : GuideType) (c : number) (gs : list GuideLine) :
  ForallOrdPairs (fun g g' => ~ shareLine g g') gs ->
  (List.length (guidesAt t c gs) <= 1)%nat.
Proof.
  unfold guidesAt. induction 1 as [|g gs Hg Hgs IH]; simpl; [lia|].
  destruct (onLine t c g) eqn:Eg; [|exact IH].
  rewrite filter_none; [simpl; lia|].
  rewrite Forall_forall in Hg. intros g' Hg'.
  destruct (onLine t c g') eqn:Eg'; [|reflexivity].
  exfalso. apply (Hg g' Hg'). now apply (onLine_shareLine t c).
Qed.

End Dedupe.

Section SnapFacts.
Local Open Scope Q_scope.

Lemma calculateSnapping_guides d dragX dragY others :
  guides (calculateSnapping d dragX dragY others)
  = dedupeGuides
      (rawGuides d (snapX (calculateSnapping d dragX dragY others))
                 (snapY (calculateSnapping d dragX dragY others))
                 dragX dragY others).
Proof.
  unfold calculateSnapping.
  destruct (fold_left _ _ _) as [[sx cx] [sy cy]]. reflexivity.
Qed.

Lemma In_guidesAt_length t c g gs :
  In g gs -> onLine t c g = true -> (1 <= List.length (guidesAt t c gs))%nat.
Proof.
  intros Hin Hon. unfold guidesAt.
  assert (H : In g (filter (onLine t c) gs)) by (apply filter_In; now split).
  destruct (filter (onLine t c) gs); [destruct H|simpl; lia].
Qed.

(** A raw guide on the line with no earlier raw guide sharing its line
    gives exactly one guide on that line after deduplication. *)
Lemma exactly_one_on_line t c self k g :
  nth_error self k = Some g -> onLine t c g = true ->
  (forall m g', (m < k)%nat -> nth_error self m = Some g' ->
                sameLine g g' = false) ->
  List.length (guidesAt t c (dedupeGuides self)) = 1%nat.
Proof.
  intros Hnth Hon Hbefore.
  pose proof (distinct_at_most_one t c _ (dedupeGuides_distinct self)).
  pose proof (In_guidesAt_length t c g _
                (dedupeGuides_keeps self k g Hnth Hbefore) Hon).
  lia.
Qed.

Lemma first_such {A : Type} (p : A -> bool) (l : list A) :
  (exists a, In a l /\ p a = true) ->
  exists k a, nth_error l k = Some a /\ p a = true
              /\ forall m b, (m < k)%nat -> nth_error l m = Some b -> p b = false.
Proof.
  induction l as [|h l IH]; intros (a & Hin & Ha); [destruct Hin|].
  destruct (p h) eqn:Eh.
  - exists 0%nat, h. repeat split; auto. intros m b Hm. lia.
  - destruct Hin as [->|Hin]; [congruence|].
    destruct (IH (ex_intro _ a (conj Hin Ha))) as (k & a' & Hk & Ha' & Hbefore).
    exists (S k), a'. repeat split; auto.
    intros [|m] b Hm Hb; simpl in Hb.
    + now inversion Hb; subst.
    + apply (Hbefore m b); [lia|exact Hb].
Qed.

(** When every raw guide of axis [t] is either at [c] or at least 1px
    away from it, and one is at [c], exactly one guide at [c] remains. *)
Lemma exactly_one_when_separated t c self :
  (exists g, In g self /\ onLine t c g = true) ->
  (forall g', In g' self -> guide_type g' = t ->
              position g' == c \/ 1 <= Qabs (position g' - c)) ->
  List.length (guidesAt t c (dedupeGuides self)) = 1%nat.
Proof.
  intros Hex Hsep.
  destruct (first_such (onLine t c) self Hex) as (k & g & Hk & Hg & Hbefore).
  apply (exactly_one_on_line t c self k g Hk Hg).
  intros m g' Hm Hm'.
  destruct (sameLine g g') eqn:Es; [|reflexivity]. exfalso.
  apply sameLine_iff in Es. destruct Es as [Hty Hpos].
  apply onLine_iff in Hg. destruct Hg as [Hgt Hgc].
  assert (Hoff : onLine t c g' = false) by (apply (Hbefore m g' Hm Hm')).
  destruct (Hsep g' (nth_error_In _ _ Hm') (eq_trans Hty Hgt)) as [Hc|Hfar].
  - assert (onLine t c g' = true) by (apply onLine_iff; split; congruence).
    congruence.
  - qabs (position g' - position g); qabs (position g' - c); lra.
Qed.

(** *** First pass on one axis *)

Lemma trySnap_take dist target snap :
  dist < SNAP_THRESHOLD -> trySnap dist target (snap, None) = (Some target, Some dist).
Proof.
  intros H. unfold trySnap. apply Qlt_bool_iff in H. now rewrite H.
Qed.

Lemma trySnap_keep dist target snap c :
  c <= dist -> trySnap dist target (snap, Some c) = (snap, Some c).
Proof.
  intros H. unfold trySnap. apply Qlt_bool_false_iff in H. rewrite H.
  now rewrite andb_false_r.
Qed.




(** The guides the second pass pushes on the horizontal axis for one
    candidate are its top, bottom and center, each where it is less than
    1px from the moving block's. *)
Lemma guidesFor_horizontal sx sy fx fy fr fb fcx fcy ob g :
  In g (guidesFor sx sy fx fy fr fb fcx fcy ob) ->
  guide_type g = Horizontal ->
  (position g = bb_top ob /\ Qabs (fy - bb_top ob) < 1)
  \/ (position g = bb_bottom ob /\ Qabs (fb - bb_bottom ob) < 1)
  \/ (position g = bb_centerY ob /\ Qabs (fcy - bb_centerY ob) < 1).
Proof.
  unfold guidesFor, pushIf, Math_abs. intros Hin Hty.
  apply in_app_or in Hin. destruct Hin as [Hin|Hin].
  - destruct (isSome sx); [|destruct Hin].
    repeat (apply in_app_or in Hin; destruct Hin as [Hin|Hin]);
      match type of Hin with
      | In _ (if ?c then _ else _) => destruct c
      end; simpl in Hin; try (now destruct Hin);
      destruct Hin as [<-|[]]; discriminate.
  - destruct (isSome sy); [|destruct Hin].
    repeat (apply in_app_or in Hin; destruct Hin as [Hin|Hin]);
      match type of Hin with
      | In _ (if ?c then _ else _) => destruct c eqn:Ec
      end; simpl in Hin; try (now destruct Hin);
      destruct Hin as [<-|[]];
      apply Qlt_bool_iff in Ec; cbn [position]; tauto.
Qed.

Lemma guidesFor_center sx sy fx fy fr fb fcx fcy ob :
  Qabs (fcy - bb_centerY ob) < 1 ->
  exists g, In g (guidesFor sx (Some sy) fx fy fr fb fcx fcy ob)
            /\ guide_type g = Horizontal /\ position g = bb_centerY ob.
Proof.
  intros H. apply Qlt_bool_iff in H.
  exists (mkGuide Horizontal (bb_centerY ob) (Math_min fx (bb_left ob))
                  (Math_max fr (bb_right ob))).
  split; [|split; reflexivity].
  unfold guidesFor, Math_abs. cbn [isSome]. rewrite H.
  apply in_or_app. right. apply in_or_app. right. apply in_or_app. right.
  now left.
Qed.

(** C7, as amended. The guides returned by the snap computation are
    deduplicated by (axis, position): no two of them have the same axis and
    positions less than 1px apart, so at most one guide lies on any line,
    not one per candidate.  When several candidates are aligned at the
    winning coordinate (all candidates have their vertical center at [c]
    and the snap puts the center of the moving block on it) and the moving
    block is at least 4px high, exactly one guide is produced at that
    position.  A thinner moving block has its top and bottom less than
    1px from candidate edges around [c], and the guides there can take
    the place of the one at [c]. *)
Theorem guides_deduplicated :
  forall (moving : EditorBlock) (dragX dragY : number)
         (others : list EditorBlock),
    let r := calculateSnapping moving dragX dragY others in
    ForallOrdPairs (fun g g' => ~ shareLine g g') (guides r)
    /\ (forall t c, (List.length (guidesAt t c (guides r)) <= 1)%nat)
    /\ (forall c sy,
          let h := bb_height (getBlockBounds moving) in
          snapY r = Some sy -> sy + h / 2 == c -> 4 <= h ->
          (exists o, In o others /\ isCandidate moving o = true) ->
          (forall o, In o others -> isCandidate moving o = true ->
                     bb_centerY (getBlockBounds o) == c) ->
          List.length (guidesAt Horizontal c (guides r)) = 1%nat).
Proof.
  intros moving dragX dragY others r.
  assert (Hd : ForallOrdPairs (fun g g' => ~ shareLine g g') (guides r)).
  { subst r. rewrite calculateSnapping_guides. apply dedupeGuides_distinct. }
  split; [exact Hd|]. split.
  - intros t c. now apply distinct_at_most_one.
  - intros c sy h Hsy Hc Hh (o & Ho & Hcand) Hrow.
    assert (Hhalf : h / 2 == h * (1 # 2)) by field.
    subst r. rewrite calculateSnapping_guides. rewrite Hsy.
    unfold rawGuides. cbv beta iota zeta. fold h.
    apply exactly_one_when_separated.
    + destruct (guidesFor_center
                  (snapX (calculateSnapping moving dragX dragY others)) sy
                  (match snapX (calculateSnapping moving dragX dragY others)
                   with Some v => v | None => dragX end)
                  sy
                  (match snapX (calculateSnapping moving dragX dragY others)
                   with Some v => v | None => dragX end
                   + bb_width (getBlockBounds moving))
                  (sy + h)
                  (match snapX (calculateSnapping moving dragX dragY others)
                   with Some v => v | None => dragX end
                   + bb_width (getBlockBounds moving) / 2)
                  (sy + h / 2) (getBlockBounds o))
        as (g & Hg & Hty & Hpos).
      { pose proof (Hrow o Ho Hcand) as Hoc.
        qabs (sy + h / 2 - bb_centerY (getBlockBounds o)); lra. }
      exists g. split.
      * apply in_flat_map. exists (getBlockBounds o). split; [|exact Hg].
        unfold candidateBounds. apply in_map. apply filter_In. now split.
      * apply onLine_iff. split; [exact Hty|]. rewrite Hpos. now apply Hrow.
    + intros g' Hin Hty. apply in_flat_map in Hin.
      destruct Hin as (ob & Hob & Hg').
      unfold candidateBounds in Hob. apply in_map_iff in Hob.
      destruct Hob as (o' & <- & Ho'). apply filter_In in Ho'.
      destruct Ho' as [Ho' Hcand'].
      pose proof (Hrow o' Ho' Hcand') as Hoc.
      destruct (guidesFor_horizontal _ _ _ _ _ _ _ _ _ _ Hg' Hty)
        as [[Hp Hnear]|[[Hp Hnear]|[Hp Hnear]]]; rewrite Hp.
      * right.
        qabs (sy - bb_top (getBlockBounds o'));
          qabs (bb_top (getBlockBounds o') - c); lra.
      * right.
        qabs (sy + h - bb_bottom (getBlockBounds o'));
          qabs (bb_bottom (getBlockBounds o') - c); lra.
      * left. exact Hoc.
Qed.

Lemma guides_deduplicated_witness :
  let r := calculateSnapping exFourth 300 (173 # 2) exCenterRow in
  snapY r = Some (340 # 4)
  /\ List.length (guidesAt Horizontal 100 (guides r)) = 1%nat.
Proof.
  split; [reflexivity|].
  apply (proj2 (proj2 (guides_deduplicated exFourth 300 (173 # 2) exCenterRow))
               100 (340 # 4)).
  - reflexivity.
  - reflexivity.
  - vm_compute. discriminate.
  - exists (exBlock "r1" TyText "one" (exLayout 0 80 50 40 1) None).
    split; [now left|reflexivity].
  - intros o Ho _. simpl in Ho.
    destruct Ho as [<-|[<-|[<-|[]]]]; reflexivity.
Defined.

(** C7 as stated fails for a thin moving block: the divider, two pixels
    high, dropped at y = 99.625 snaps its center onto the line y = 100.5
    of the three candidates' centers (snapY = 99.5); its top and bottom
    are then half a pixel from the candidates' tops and bottoms, the
    guides pushed are those at 100, 101 and 100.5 for each candidate, and
    the filter keeps 100 and 101 and drops 100.5, which is less than 1px
    from the guide at 100 before it: no guide is left at the winning
    coordinate. *)
Lemma guides_center_line_without_guide :
  let r := calculateSnapping exThinDivider 300 (797 # 8) exThinRow in
  map (fun o => Qred (bb_centerY (getBlockBounds o))) exThinRow
  = [201 # 2; 201 # 2; 201 # 2]
  /\ snapX r = None
  /\ snapY r = Some ((201 # 2) - 2 / 2)
  /\ (201 # 2) - 2 / 2 + bb_height (getBlockBounds exThinDivider) / 2
     == 201 # 2
  /\ map (fun g => (guide_type g, Qred (position g))) (guides r)
     = [(Horizontal, 100); (Horizontal, 101)]
  /\ List.length (guidesAt Horizontal (201 # 2) (guides r)) = 0%nat.
Proof.
  intros r. split; [vm_compute; reflexivity|].
  split; [vm_compute; reflexivity|]. split; [vm_compute; reflexivity|].
  split; [vm_compute; reflexivity|]. split; vm_compute; reflexivity.
Qed.

(** Candidates that are not all on the winning line: the fourth block,
    30 pixels high and dropped at y = 85.1, snaps its center onto the line
    y = 100 of the three centered candidates; the two candidates listed
    before them have their centers 0.6px above and below it, their guides
    at 99.4 and 100.6 are pushed first and kept, and the guides at 100 are
    dropped as less than 1px from the one at 99.4. *)
Example guides_near_candidates_take_line :
  let r := calculateSnapping exFourth 300 (851 # 10) exOffCenterRow in
  map (fun o => Qred (bb_centerY (getBlockBounds o))) exOffCenterRow
  = [497 # 5; 503 # 5; 100; 100; 100]
  /\ snapX r = None
  /\ option_map Qred (snapY r) = Some 85
  /\ map (fun g => (guide_type g, Qred (position g))) (guides r)
     = [(Horizontal, 497 # 5); (Horizontal, 503 # 5)]
  /\ List.length (guidesAt Horizontal 100 (guides r)) = 0%nat.
Proof.
  intros r. split; [vm_compute; reflexivity|].
  split; [vm_compute; reflexivity|]. split; [vm_compute; reflexivity|].
  split; vm_compute; reflexivity.
Qed.

End SnapFacts.

(* ================================================================== *)
(** ** Export compiler *)

Lemma append_assoc (a b c : string) : (a +++ b) +++ c = a +++ b +++ c.
Proof. induction a as [|x a IH]; simpl; [reflexivity|now rewrite IH]. Qed.

Lemma append_nil_r (a : string) : a +++ "" = a.
Proof. induction a as [|x a IH]; simpl; [reflexivity|now rewrite IH]. Qed.

Section SortFacts.
Local Open Scope Q_scope.

Lemma insertByY_perm b l : Permutation (insertByY b l) (b :: l).
Proof.
  induction l as [|h l IH]; simpl; [reflexivity|].
  destruct (Qle_bool _ _); [reflexivity|].
  rewrite IH. apply perm_swap.
Qed.

Lemma sortByY_perm l : Permutation (sortByY l) l.
Proof.
  induction l as [|b l IH]; simpl; [reflexivity|].
  rewrite insertByY_perm. now constructor.
Qed.

Lemma insertByY_sorted b l :
  StronglySorted yLe l -> StronglySorted yLe (insertByY b l).
Proof.
  induction 1 as [|h l Hl IH Hh]; simpl.
  - repeat constructor.
  - destruct (Qle_bool _ _) eqn:E.
    + apply Qle_bool_iff in E. constructor; [now constructor|].
      constructor; [exact E|].
      rewrite Forall_forall in *. intros x Hx. unfold yLe in *.
      specialize (Hh x Hx). lra.
    + apply Qle_bool_false_iff in E. constructor; [exact IH|].
      rewrite Forall_forall in *. intros x Hx.
      apply (Permutation_in _ (insertByY_perm b l)) in Hx.
      destruct Hx as [<-|Hx]; [unfold yLe; lra|now apply Hh].
Qed.

Lemma sortByY_sorted l : StronglySorted yLe (sortByY l).
Proof.
  induction l as [|b l IH]; simpl; [constructor|now apply insertByY_sorted].
Qed.

Lemma sortByY_In b l : In b (sortByY l) <-> In b l.
Proof.
  split; apply Permutation_in; [|symmetry]; apply sortByY_perm.
Qed.

Lemma sorted_later (p q : list EditorBlock) (a b : EditorBlock) :
  StronglySorted yLe (p ++ a :: q) -> In b q -> yLe a b.
Proof.
  induction p as [|h p IH]; simpl; intros Hs Hb.
  - inversion Hs as [|? ? _ Hall]; subst.
    rewrite Forall_forall in Hall. now apply Hall.
  - inversion Hs; subst. now apply IH.
Qed.

(** In a list sorted by ascending y, a block of strictly smaller y comes
    first. *)
Lemma sorted_lower_first (l : list EditorBlock) (A B : EditorBlock) :
  StronglySorted yLe l -> In A l -> In B l ->
  layout_y (block_layout B) < layout_y (block_layout A) ->
  exists l1 l2 l3, l = l1 ++ B :: l2 ++ A :: l3.
Proof.
  intros Hs HA HB Hlt.
  apply in_split in HB. destruct HB as (l1 & r & ->).
  apply in_app_or in HA. destruct HA as [HA|[HA|HA]].
  - exfalso. apply in_split in HA. destruct HA as (p & q & ->).
    rewrite <- app_assoc in Hs. simpl in Hs.
    assert (yLe A B).
    { apply (sorted_later p (q ++ B :: r) A B Hs).
      apply in_or_app. right. now left. }
    unfold yLe in *. lra.
  - subst. lra.
  - apply in_split in HA. destruct HA as (l2 & l3 & ->).
    now exists l1, l2, l3.
Qed.

End SortFacts.

Section MapMFacts.
Context {A B : Type}.

Lemma mapM_app (f : A -> option B) (l1 l2 : list A) (out : list B) :
  mapM f (l1 ++ l2) = Some out ->
  exists o1 o2, out = o1 ++ o2 /\ mapM f l1 = Some o1 /\ mapM f l2 = Some o2.
Proof.
  revert out. induction l1 as [|a l1 IH]; intros out H; simpl in *.
  - now exists [], out.
  - destruct (f a) as [b|]; [|discriminate].
    destruct (mapM f (l1 ++ l2)) as [bs|] eqn:E; [|discriminate].
    inversion H; subst. destruct (IH bs eq_refl) as (o1 & o2 & -> & -> & ->).
    now exists (b :: o1), o2.
Qed.

Lemma mapM_cons (f : A -> option B) (a : A) (l : list A) (out : list B) :
  mapM f (a :: l) = Some out ->
  exists b bs, out = b :: bs /\ f a = Some b /\ mapM f l = Some bs.
Proof.
  simpl. destruct (f a) as [b|]; [|discriminate].
  destruct (mapM f l) as [bs|]; [|discriminate].
  intros H; inversion H; subst. now exists b, bs.
Qed.

Lemma mapM_total (f : A -> option B) (l : list A) :
  (forall a, In a l -> exists b, f a = Some b) ->
  exists bs, mapM f l = Some bs.
Proof.
  induction l as [|a l IH]; intros H; simpl; [now exists []|].
  destruct (H a (or_introl eq_refl)) as (b & ->).
  destruct IH as (bs & ->); [intros x Hx; apply H; now right|].
  now exists (b :: bs).
Qed.

Lemma mapM_ext_in (f g : A -> option B) (l : list A) :
  (forall a, In a l -> f a = g a) -> mapM f l = mapM g l.
Proof.
  induction l as [|a l IH]; intros H; simpl; [reflexivity|].
  rewrite (H a (or_introl eq_refl)), IH; [reflexivity|].
  intros x Hx. apply H. now right.
Qed.

Lemma mapM_Forall2 (f : A -> option B) (l : list A) (out : list B) :
  mapM f l = Some out -> Forall2 (fun a b => f a = Some b) l out.
Proof.
  revert out. induction l as [|a l IH]; intros out H.
  - simpl in H. inversion H. constructor.
  - apply mapM_cons in H. destruct H as (b & bs & -> & Hb & Hbs).
    constructor; auto.
Qed.

End MapMFacts.

Section JoinFacts.

Lemma filter_nonEmpty_nil_app (l1 r : list string) :
  filter strNonEmpty (l1 ++ r) = [] -> filter strNonEmpty r = [].
Proof.
  rewrite filter_app. intros H. now apply app_eq_nil in H.
Qed.

(** What comes before a suffix of the parts is a prefix of the joined
    text. *)
Lemma join_filter_app (sep : string) (l1 r : list string) :
  exists p, join sep (filter strNonEmpty (l1 ++ r))
            = p +++ join sep (filter strNonEmpty r).
Proof.
  induction l1 as [|a l1 IH]; [now exists ""|].
  destruct IH as (p & IH). simpl.
  destruct (strNonEmpty a); [|now exists p].
  destruct (filter strNonEmpty (l1 ++ r)) as [|x xs] eqn:E.
  - apply filter_nonEmpty_nil_app in E. rewrite E. exists a.
    simpl. now rewrite append_nil_r.
  - change (join sep (a :: x :: xs)) with (a +++ sep +++ join sep (x :: xs)).
    rewrite IH. exists (a +++ sep +++ p). now rewrite !append_assoc.
Qed.

Lemma join_filter_cons (sep x : string) (r : list string) :
  exists p, join sep (filter strNonEmpty (x :: r))
            = x +++ p +++ join sep (filter strNonEmpty r).
Proof.
  simpl. destruct x as [|c x]; simpl; [now exists ""|].
  destruct (filter strNonEmpty r) as [|y ys].
  - exists "". simpl. now rewrite append_nil_r.
  - now exists sep.
Qed.

(** In the joined text of the non-empty parts, an earlier part comes
    before a later one. *)
Lemma join_filter_order (sep : string) (l1 l2 l3 : list string) (x y : string) :
  exists pre mid post,
    join sep (filter strNonEmpty (l1 ++ x :: l2 ++ y :: l3))
    = pre +++ x +++ mid +++ y +++ post.
Proof.
  destruct (join_filter_app sep l1 (x :: l2 ++ y :: l3)) as (p1 & ->).
  destruct (join_filter_cons sep x (l2 ++ y :: l3)) as (p2 & ->).
  destruct (join_filter_app sep l2 (y :: l3)) as (p3 & ->).
  destruct (join_filter_cons sep y l3) as (p4 & ->).
  exists p1, (p2 +++ p3), (p4 +++ join sep (filter strNonEmpty l3)).
  now rewrite !append_assoc.
Qed.

End JoinFacts.

Section ExportFacts.
Local Open Scope Q_scope.

Variable numToString : number -> string.
Variable resolveStyles : BlockStyles -> list DesignToken -> BlockStyles.
Variable resolveColor : string -> list DesignToken -> option string.

Local Abbreviation blockMJML := (generateBlockMJML numToString resolveStyles).
Local Abbreviation section := (sectionOf numToString resolveStyles).
Local Abbreviation exportMJML :=
  (generateMJML numToString resolveStyles resolveColor).

(** With enough fuel for the depth of the nesting the dispatcher
    returns. *)
Lemma generateBlockMJML_total blocks variables depth n :
  nestingBounded blocks depth n ->
  forall fuel b, In b blocks -> (depth b < fuel)%nat ->
    exists m, blockMJML fuel b blocks variables = Some m.
Proof.
  intros Hwf. induction fuel as [|fuel IH]; intros b Hb Hd; [lia|].
  simpl. destruct (negb (isVisible b)); [now eexists|].
  destruct (block_type b) eqn:Ety; try (now eexists).
  unfold generateGroupMJML.
  destruct (List.length _ =? 0)%nat; [now eexists|].
  destruct (mapM_total
    (fun child => blockMJML fuel child blocks variables)
    (sortByY (filter (fun b0 => optStrEq (parentId b0) (block_id b)) blocks)))
    as (outs & ->); [|now eexists].
  intros c Hc. apply (proj1 (sortByY_In _ _)) in Hc. apply filter_In in Hc.
  destruct Hc as [Hc Hpar]. apply IH; [exact Hc|].
  destruct (Hwf b Hb) as [_ Hdec]. specialize (Hdec c Hc Ety Hpar). lia.
Qed.

Lemma sectionOf_total blocks variables depth n fuel :
  nestingBounded blocks depth n -> (n <= fuel)%nat ->
  forall b, In b blocks -> exists s, section fuel blocks variables b = Some s.
Proof.
  intros Hwf Hn b Hb. unfold sectionOf.
  destruct (generateBlockMJML_total blocks variables depth n Hwf fuel b Hb)
    as (m & ->); [|now eexists].
  destruct (Hwf b Hb). lia.
Qed.

(** A document with one level of grouping is well founded. *)
Lemma flat_nestingBounded blocks :
  (forall c, In c blocks -> falsy (parentId c) = false ->
             block_type c <> TyGroup) ->
  (forall b, In b blocks -> block_id b <> "") ->
  nestingBounded blocks flatDepth 2.
Proof.
  intros Hflat Hid b Hb. unfold flatDepth. split.
  - destruct (BlockType_eqb _ _); lia.
  - intros c Hc Hty Hpar. rewrite Hty. simpl.
    assert (Hc' : block_type c <> TyGroup).
    { apply Hflat; [exact Hc|]. unfold optStrEq in Hpar.
      destruct (parentId c) as [p|]; [|discriminate].
      apply String.eqb_eq in Hpar. subst p. simpl.
      destruct (block_id b) eqn:E; [now elim (Hid b Hb)|reflexivity]. }
    destruct (block_type c); simpl; try lia. congruence.
Qed.

(** C2. For every block set the export compiler emits the top-level
    blocks in ascending order of their layout y: for top-level blocks A
    and B with B.layout.y < A.layout.y, the section of B comes before the
    section of A in the list of sections the document joins, and so in
    the document, whatever the insertion order and the zIndex values.
    The compiler returns the document whenever the group nesting is well
    founded. *)
Theorem export_orders_top_level_by_y :
  forall (blocks : list EditorBlock) (settings : CanvasSettings)
         (variables : list DesignToken) (fuel : nat) (A B : EditorBlock),
    In A blocks -> In B blocks ->
    falsy (parentId A) = true -> falsy (parentId B) = true ->
    layout_y (block_layout B) < layout_y (block_layout A) ->
    (forall doc,
       exportMJML fuel blocks settings variables = Some doc ->
       exists sA sB before between after,
         section fuel blocks variables A = Some sA
         /\ section fuel blocks variables B = Some sB
         /\ doc = documentHead numToString settings
                    (orDefault
                       (resolveColor (backgroundColor settings) variables)
                       "#ffffff")
                  +++ join nl (filter strNonEmpty
                                 (before ++ sB :: between ++ sA :: after))
                  +++ documentTail
         /\ exists pre mid post, doc = pre +++ sB +++ mid +++ sA +++ post)
    /\ (forall depth n,
          nestingBounded blocks depth n -> (n <= fuel)%nat ->
          exists doc, exportMJML fuel blocks settings variables = Some doc).
Proof.
  intros blocks settings variables fuel A B HA HB HpA HpB Hlt.
  set (roots := filter (fun b => falsy (parentId b)) blocks).
  split.
  - intros doc Hdoc.
    assert (HrA : In A (sortByY roots))
      by (apply (proj2 (sortByY_In _ _)), filter_In; now split).
    assert (HrB : In B (sortByY roots))
      by (apply (proj2 (sortByY_In _ _)), filter_In; now split).
    destruct (sorted_lower_first _ A B (sortByY_sorted roots) HrA HrB Hlt)
      as (l1 & l2 & l3 & Hsplit).
    unfold generateMJML in Hdoc. fold roots in Hdoc.
    destruct (mapM (section fuel blocks variables) (sortByY roots))
      as [secs|] eqn:Hsecs; [|discriminate].
    assert (Hd : doc = documentHead numToString settings
                         (orDefault
                            (resolveColor (backgroundColor settings) variables)
                            "#ffffff")
                       +++ join nl (filter strNonEmpty secs) +++ documentTail)
      by congruence.
    clear Hdoc. subst doc.
    rewrite Hsplit in Hsecs.
    apply mapM_app in Hsecs. destruct Hsecs as (o1 & r1 & -> & _ & Hr1).
    apply mapM_cons in Hr1. destruct Hr1 as (sB & r2 & -> & HsB & Hr2).
    apply mapM_app in Hr2. destruct Hr2 as (o2 & r3 & -> & _ & Hr3).
    apply mapM_cons in Hr3. destruct Hr3 as (sA & o3 & -> & HsA & _).
    exists sA, sB, o1, o2, o3.
    split; [exact HsA|]. split; [exact HsB|]. split; [reflexivity|].
    destruct (join_filter_order nl o1 o2 o3 sB sA) as (pre & mid & post & ->).
    exists (documentHead numToString settings
              (orDefault (resolveColor (backgroundColor settings) variables)
                         "#ffffff") +++ pre),
           mid, (post +++ documentTail).
    now rewrite !append_assoc.
  - intros depth n Hwf Hn.
    destruct (mapM_total (section fuel blocks variables) (sortByY roots))
      as (secs & Hsecs).
    { intros b Hb. apply (proj1 (sortByY_In _ _)) in Hb.
      apply filter_In in Hb.
      apply (sectionOf_total blocks variables depth n fuel Hwf Hn). tauto. }
    unfold generateMJML. fold roots. rewrite Hsecs. now eexists.
Qed.

(** C8. In the export a group block is transparent: its children are
    fetched, sorted among themselves by ascending layout y, and its markup
    is the children's markups joined as they are, without any element of
    its own; the section wrapper adds nothing to a group either, and a
    group with zero children contributes the empty string, which the
    document drops.  The markup is returned whenever the group nesting is
    well founded. *)
Theorem export_group_is_transparent :
  forall (blocks : list EditorBlock) (variables : list DesignToken)
         (fuel : nat) (g : EditorBlock),
    block_type g = TyGroup ->
    let children := childrenOf g blocks in
    Permutation (sortByY children) children
    /\ StronglySorted yLe (sortByY children)
    /\ (forall m, blockMJML (S fuel) g blocks variables = Some m ->
          (isVisible g = false -> m = "")
          /\ (isVisible g = true ->
              exists childMJML,
                Forall2 (fun c cm => blockMJML fuel c blocks variables = Some cm)
                        (sortByY children) childMJML
                /\ m = join nl (filter strNonEmpty childMJML)))
    /\ (forall m, wrapInSection m g = if strNonEmpty (trim m) then m else "")
    /\ (children = [] ->
        section (S fuel) blocks variables g = Some ""
        /\ filter strNonEmpty [""] = [])
    /\ (forall depth n,
          nestingBounded blocks depth n -> In g blocks -> (n <= S fuel)%nat ->
          exists m, blockMJML (S fuel) g blocks variables = Some m).
Proof.
  intros blocks variables fuel g Hty children.
  assert (Hwrap : forall m,
            wrapInSection m g = if strNonEmpty (trim m) then m else "").
  { intros m. unfold wrapInSection. rewrite Hty. simpl.
    now destruct (strNonEmpty (trim m)). }
  assert (Hgen : blockMJML (S fuel) g blocks variables
                 = if isVisible g
                   then generateGroupMJML
                          (fun c => blockMJML fuel c blocks variables) g blocks
                   else Some "").
  { simpl. destruct (isVisible g); simpl; [now rewrite Hty|reflexivity]. }
  split; [apply sortByY_perm|]. split; [apply sortByY_sorted|].
  split; [|split; [exact Hwrap|split]].
  - intros m Hm. rewrite Hgen in Hm. split; intros Hv; rewrite Hv in Hm.
    + now inversion Hm.
    + unfold generateGroupMJML in Hm. fold (childrenOf g blocks) in Hm.
      fold children in Hm.
      destruct (List.length children =? 0)%nat eqn:El.
      * inversion Hm; subst. exists [].
        destruct children; [simpl; split; [constructor|reflexivity]|].
        discriminate.
      * destruct (mapM _ (sortByY children)) as [outs|] eqn:Eo;
          [|discriminate].
        inversion Hm; subst. exists outs.
        split; [now apply mapM_Forall2|reflexivity].
  - intros Hnil. split; [|reflexivity].
    unfold sectionOf. rewrite Hgen. unfold generateGroupMJML.
    fold (childrenOf g blocks). fold children. rewrite Hnil.
    destruct (isVisible g); simpl; now rewrite Hwrap.
  - intros depth n Hwf Hg Hn.
    apply (generateBlockMJML_total blocks variables depth n Hwf); [exact Hg|].
    destruct (Hwf g Hg). lia.
Qed.

(** *** Orphans *)

(** A block whose parent reference names no block of the document plays
    no part in the markup of any block of the document. *)
Lemma generateBlockMJML_without_orphan l1 l2 o p variables :
  parentId o = Some p ->
  (forall b, In b (l1 ++ l2) -> block_id b <> p) ->
  forall fuel b, In b (l1 ++ l2) ->
    blockMJML fuel b (l1 ++ o :: l2) variables
    = blockMJML fuel b (l1 ++ l2) variables.
Proof.
  intros Hp Hfresh. induction fuel as [|fuel IH]; intros b Hb; [reflexivity|].
  simpl. destruct (negb (isVisible b)); [reflexivity|].
  destruct (block_type b); try reflexivity.
  unfold generateGroupMJML.
  assert (Hch : filter (fun c => optStrEq (parentId c) (block_id b))
                       (l1 ++ o :: l2)
                = filter (fun c => optStrEq (parentId c) (block_id b))
                         (l1 ++ l2)).
  { rewrite !filter_app. simpl. rewrite Hp. simpl.
    replace (String.eqb p (block_id b)) with false; [reflexivity|].
    symmetry. apply String.eqb_neq. intros E. apply (Hfresh b Hb). auto. }
  rewrite Hch. destruct (List.length _ =? 0)%nat; [reflexivity|].
  rewrite (mapM_ext_in
             (fun child => blockMJML fuel child (l1 ++ o :: l2) variables)
             (fun child => blockMJML fuel child (l1 ++ l2) variables));
    [reflexivity|].
  intros c Hc. apply IH. apply (proj1 (sortByY_In _ _)) in Hc. apply filter_In in Hc. tauto.
Qed.

(** C9, as amended. A block whose parentId is a non-empty reference to
    no block of the document (an orphaned group child) is not treated as
    top-level by the export compiler: it is left out of the root blocks
    and no group fetches it, so the export is exactly the export of the
    document without it; the export does not fail on it. *)
Theorem export_drops_orphan :
  forall (fuel : nat) (l1 l2 : list EditorBlock) (o : EditorBlock)
         (p : string) (settings : CanvasSettings)
         (variables : list DesignToken),
    parentId o = Some p -> p <> "" ->
    (forall b, In b (l1 ++ o :: l2) -> block_id b <> p) ->
    exportMJML fuel (l1 ++ o :: l2) settings variables
    = exportMJML fuel (l1 ++ l2) settings variables.
Proof.
  intros fuel l1 l2 o p settings variables Hp Hne Hfresh.
  assert (Hfresh' : forall b, In b (l1 ++ l2) -> block_id b <> p).
  { intros b Hb. apply Hfresh. apply in_app_or in Hb. apply in_or_app.
    destruct Hb; [now left|right; now right]. }
  unfold generateMJML.
  assert (Hroots : filter (fun b => falsy (parentId b)) (l1 ++ o :: l2)
                   = filter (fun b => falsy (parentId b)) (l1 ++ l2)).
  { rewrite !filter_app. simpl. rewrite Hp. simpl.
    destruct p; [congruence|reflexivity]. }
  rewrite Hroots.
  rewrite (mapM_ext_in (section fuel (l1 ++ o :: l2) variables)
                       (section fuel (l1 ++ l2) variables)); [reflexivity|].
  intros b Hb. apply (proj1 (sortByY_In _ _)) in Hb. apply filter_In in Hb.
  unfold sectionOf.
  now rewrite (generateBlockMJML_without_orphan l1 l2 o p variables Hp Hfresh').
Qed.

End ExportFacts.

(** *** The export on example documents *)

Lemma export_orders_top_level_by_y_witness :
  (forall doc,
     generateMJML showNumber plainStyles plainColor 2 [exA; exB] exSettings []
     = Some doc ->
     exists sA sB before between after,
       sectionOf showNumber plainStyles 2 [exA; exB] [] exA = Some sA
       /\ sectionOf showNumber plainStyles 2 [exA; exB] [] exB = Some sB
       /\ doc = documentHead showNumber exSettings
                  (orDefault (plainColor (backgroundColor exSettings) [])
                             "#ffffff")
                +++ join nl (filter strNonEmpty
                               (before ++ sB :: between ++ sA :: after))
                +++ documentTail
       /\ exists pre mid post, doc = pre +++ sB +++ mid +++ sA +++ post)
  /\ exists doc,
       generateMJML showNumber plainStyles plainColor 2 [exA; exB] exSettings []
       = Some doc.
Proof.
  destruct (export_orders_top_level_by_y showNumber plainStyles plainColor
              [exA; exB] exSettings [] 2 exA exB) as [Hpart Htot].
  - simpl. tauto.
  - simpl. tauto.
  - reflexivity.
  - reflexivity.
  - vm_compute. reflexivity.
  - split; [exact Hpart|].
    apply (Htot flatDepth 2%nat); [|lia].
    apply flat_nestingBounded.
    + intros c [<-|[<-|[]]]; discriminate.
    + intros b [<-|[<-|[]]]; discriminate.
Defined.

Lemma export_group_is_transparent_witness :
  let blocks := [exChildLow; exGroup; exChildHigh] in
  sortByY (childrenOf exGroup blocks) = [exChildHigh; exChildLow]
  /\ (exists childMJML,
        Forall2 (fun c cm =>
                   generateBlockMJML showNumber plainStyles 1 c blocks []
                   = Some cm)
                (sortByY (childrenOf exGroup blocks)) childMJML
        /\ generateBlockMJML showNumber plainStyles 2 exGroup blocks []
           = Some (join nl (filter strNonEmpty childMJML)))
  /\ sectionOf showNumber plainStyles 2 [exGroup] [] exGroup = Some "".
Proof.
  intros blocks. split; [vm_compute; reflexivity|]. split.
  - destruct (export_group_is_transparent showNumber plainStyles
                blocks [] 1 exGroup eq_refl)
      as (_ & _ & Hm & _ & _ & Htot).
    destruct (Htot flatDepth 2%nat) as (m & Hgen).
    + apply flat_nestingBounded.
      * intros c [<-|[<-|[<-|[]]]]; discriminate.
      * intros b [<-|[<-|[<-|[]]]]; discriminate.
    + simpl. tauto.
    + lia.
    + destruct (proj2 (Hm m Hgen) eq_refl) as (childMJML & Hall & ->).
      exists childMJML. split; [exact Hall|exact Hgen].
  - destruct (export_group_is_transparent showNumber plainStyles
                [exGroup] [] 1 exGroup eq_refl)
      as (_ & _ & _ & _ & Hnil & _).
    apply Hnil. reflexivity.
Defined.

(** The group of the example is flattened into its two children, the one
    at relative y = 0 first, and no element stands for the group. *)
Example export_group_example :
  generateBlockMJML showNumber plainStyles 2 exGroup
                    [exChildLow; exGroup; exChildHigh] []
  = Some (generateTextMJML plainStyles exChildHigh [] +++ nl
          +++ generateTextMJML plainStyles exChildLow [])
  /\ sectionOf showNumber plainStyles 2 [exChildLow; exGroup; exChildHigh] []
               exGroup
     = generateBlockMJML showNumber plainStyles 2 exGroup
                         [exChildLow; exGroup; exChildHigh] [].
Proof. split; vm_compute; reflexivity. Qed.

Lemma export_drops_orphan_witness :
  generateMJML showNumber plainStyles plainColor 2
               ([exA] ++ exChildLow :: [exB]) exSettings []
  = generateMJML showNumber plainStyles plainColor 2
                 ([exA] ++ [exB]) exSettings [].
Proof.
  apply (export_drops_orphan showNumber plainStyles plainColor
           2 [exA] [exB] exChildLow "g" exSettings []).
  - reflexivity.
  - discriminate.
  - intros b [<-|[<-|[<-|[]]]]; discriminate.
Defined.

(** C9 as stated fails: removing the group "g" leaves its two visible
    children with a parentId that references no block; the export of that
    document is the export of the empty document, and the text of the
    orphans is nowhere in it. *)
Lemma export_emits_nothing_for_orphans :
  let state := exState [exChildLow; exGroup; exChildHigh] [] in
  let after := blocks (apply (removeBlock "g") state) in
  after = [exChildLow; exChildHigh]
  /\ map parentId after = [Some "g"; Some "g"]
  /\ map isVisible after = [true; true]
  /\ generateMJML showNumber plainStyles plainColor 2 after exSettings []
     = generateMJML showNumber plainStyles plainColor 2 [] exSettings []
  /\ (exists doc,
        generateMJML showNumber plainStyles plainColor 2 after exSettings []
        = Some doc
        /\ containsString "<mj-text" doc = false
        /\ containsString "second" doc = false
        /\ containsString "first" doc = false).
Proof.
  intros state after.
  split; [vm_compute; reflexivity|]. split; [vm_compute; reflexivity|].
  split; [vm_compute; reflexivity|]. split; [vm_compute; reflexivity|].
  eexists. split; [vm_compute; reflexivity|].
  split; [vm_compute; reflexivity|]. split; vm_compute; reflexivity.
Qed.

(* ================================================================== *)
(** ** Escaping of user strings *)

Section EscapeFacts.

Lemma replaceAll_app c r s1 s2 :
  replaceAll c r (s1 +++ s2) = replaceAll c r s1 +++ replaceAll c r s2.
Proof.
  induction s1 as [|a s1 IH]; simpl; [reflexivity|].
  destruct (Ascii.eqb a c); rewrite IH; [now rewrite append_assoc|reflexivity].
Qed.

Lemma escapeHtml_app s1 s2 :
  escapeHtml (s1 +++ s2) = escapeHtml s1 +++ escapeHtml s2.
Proof. unfold escapeHtml. now rewrite !replaceAll_app. Qed.

Lemma escapeHtml_char a : escapeHtml (String a "") = escapeChar a.
Proof. destruct a as [[] [] [] [] [] [] [] []]; reflexivity. Qed.

Lemma escapeHtml_cons a s :
  escapeHtml (String a s) = escapeChar a +++ escapeHtml s.
Proof.
  change (String a s) with (String a "" +++ s).
  now rewrite escapeHtml_app, escapeHtml_char.
Qed.

(** The five passes of [escapeHtml] amount to replacing each character
    by its entity. *)
Lemma escapeHtml_entities s : escapeHtml s = escapeEntities s.
Proof.
  induction s as [|a s IH]; [reflexivity|].
  rewrite escapeHtml_cons, IH. reflexivity.
Qed.

Lemma htmlSafe_escapeChar a t : htmlSafe (escapeChar a +++ t) = htmlSafe t.
Proof. destruct a as [[] [] [] [] [] [] [] []]; reflexivity. Qed.

Lemma escapeHtml_safe s : htmlSafe (escapeHtml s) = true.
Proof.
  induction s as [|a s IH]; [reflexivity|].
  now rewrite escapeHtml_cons, htmlSafe_escapeChar.
Qed.

(** *** Framing *)

Lemma framed_step {X : Type} (P : X -> Prop) (core f : X -> string) (T : string) :
  framedWhen P core f -> framedWhen P core (fun x => T +++ f x).
Proof.
  intros (pre & post & H). exists (T +++ pre), post.
  intros x Hx. now rewrite (H x Hx), append_assoc.
Qed.

Lemma framed_base {X : Type} (P : X -> Prop) (core : X -> string) (post : string) :
  framedWhen P core (fun x => core x +++ post).
Proof. exists "", post. reflexivity. Qed.

Lemma framed_else {X : Type} (P : X -> Prop) (core f1 f2 : X -> string)
    (c : X -> bool) :
  (forall x, P x -> c x = false) ->
  framedWhen P core f2 ->
  framedWhen P core (fun x => if c x then f1 x else f2 x).
Proof.
  intros Hc (pre & post & H). exists pre, post.
  intros x Hx. rewrite (Hc x Hx). now apply H.
Qed.

Lemma framed_last {X : Type} (P : X -> Prop) (core : X -> string) :
  framedWhen P core core.
Proof. exists "", "". intros x _. simpl. now rewrite append_nil_r. Qed.

End EscapeFacts.

(** Peel the constant texts in front of the framed part. *)
Ltac framed :=
  repeat (apply framed_step);
  first [ apply framed_base | apply framed_last ].

Section RendererFacts.
Local Open Scope Q_scope.

Variable numToString : number -> string.
Variable resolveStyles : BlockStyles -> list DesignToken -> BlockStyles.

Lemma text_content_escaped b variables :
  escaped (fun c => generateTextMJML resolveStyles (with_content b c) variables).
Proof.
  unfold escaped, escapedVia, escapedViaWhen, generateTextMJML.
  cbn [with_content block_content block_styles]. framed.
Qed.

Lemma button_label_escaped b variables :
  escaped (fun c =>
             generateButtonMJML resolveStyles (with_content b c) variables).
Proof.
  unfold escaped, escapedVia, escapedViaWhen, generateButtonMJML.
  cbn [with_content block_content block_styles link]. framed.
Qed.

Lemma button_href_escaped b variables :
  escapedVia (fun h => orDefault (Some h) "#")
             (fun h => generateButtonMJML resolveStyles (with_link b (Some h))
                                          variables).
Proof.
  unfold escapedVia, escapedViaWhen, generateButtonMJML.
  cbn [with_link block_content block_styles link]. framed.
Qed.

Lemma image_src_escaped b variables :
  escapedViaWhen (fun src => startsWith src "blob:" = false) (fun s => s)
    (fun src => generateImageMJML numToString resolveStyles
                                  (with_content b src) variables).
Proof.
  unfold escapedViaWhen, generateImageMJML.
  cbn [with_content block_content block_styles block_layout block_name].
  apply framed_else; [auto|]. framed.
Qed.

Lemma image_alt_escaped b variables :
  startsWith (block_content b) "blob:" = false ->
  escapedVia (fun n => orDefault (Some n) "Image")
    (fun n => generateImageMJML numToString resolveStyles
                                (with_name b n) variables).
Proof.
  intros Hsrc. unfold escapedVia, escapedViaWhen, generateImageMJML.
  cbn [with_name block_content block_styles block_layout block_name].
  rewrite Hsrc. framed.
Qed.

Lemma social_href_escaped sd size pad net en :
  escapedVia (fun u => orDefault (Some u) "#")
    (fun u => socialElement sd size pad (mkSocialProfile net en u)).
Proof.
  unfold escapedVia, escapedViaWhen, socialElement.
  cbn [network url]. framed.
Qed.

Lemma social_elements_framed b variables sd :
  exists size pad,
    framedWhen (fun ps => filter enabled ps <> [])
      (fun ps => join (nl +++ "      ")
                      (map (socialElement (setNetworks sd ps) size pad)
                           (filter enabled ps)))
      (fun ps => generateSocialMJML numToString (with_networks b sd ps)
                                    variables).
Proof.
  eexists. eexists. unfold generateSocialMJML.
  cbn [with_networks socialData setNetworks networks iconSize gap].
  apply framed_else.
  - intros ps Hps. now destruct (filter enabled ps).
  - framed.
Qed.

Lemma table_cell_escaped bc bg isHeader :
  escaped (tableCell bc bg isHeader).
Proof.
  unfold escaped, escapedVia, escapedViaWhen, tableCell. framed.
Qed.

Lemma table_rows_framed b variables td :
  exists bc bg,
    framedWhen (fun cells => cells <> [])
      (fun cells =>
         join (nl +++ "        ")
           (mapi (fun row rowIndex =>
                    "<tr>"
                    +++ join "" (map (tableCell bc bg
                                        (hasHeader td && (rowIndex =? 0)%nat))
                                     row)
                    +++ "</tr>")
                 cells))
      (fun cells => generateTableMJML resolveStyles (with_cells b td cells)
                                      variables).
Proof.
  eexists. eexists. unfold generateTableMJML.
  cbn [with_cells tableData data hasHeader borderColor block_styles].
  apply framed_else.
  - intros cells Hc. now destruct cells.
  - framed.
Qed.

Lemma list_item_escaped isNumbered marker index :
  escaped (fun item => listItem numToString isNumbered marker item index).
Proof.
  unfold escaped, escapedVia, escapedViaWhen, listItem. framed.
Qed.

Lemma list_items_framed b variables ld :
  exists isNumbered marker,
    framedWhen (fun its => its <> [])
      (fun its => join "<br/>"
                       (mapi (listItem numToString isNumbered marker) its))
      (fun its => generateListMJML numToString resolveStyles
                                   (with_items b ld its) variables).
Proof.
  eexists. eexists. unfold generateListMJML.
  cbn [with_items listData items list_style list_gap block_styles].
  apply framed_else.
  - intros its Hi. now destruct its.
  - framed.
Qed.

(** Every user-supplied string that enters the markup of a block
    goes through [escapeHtml], which replaces each of &, <, >, double quote
    and single quote by its entity and so returns a text free of these
    characters: the text content, the button label and href, the image src
    and alt, the social hrefs, the table cell texts and the list items each
    appear in the markup of their block only as that escaped text, between
    texts that do not depend on them. *)
Lemma renderers_escape_user_strings :
  (forall s, escapeHtml s = escapeEntities s /\ htmlSafe (escapeHtml s) = true)
  /\ (forall b variables,
        escaped (fun c => generateTextMJML resolveStyles (with_content b c)
                                           variables))
  /\ (forall b variables,
        escaped (fun c => generateButtonMJML resolveStyles (with_content b c)
                                             variables)
        /\ escapedVia (fun h => orDefault (Some h) "#")
             (fun h => generateButtonMJML resolveStyles (with_link b (Some h))
                                          variables))
  /\ (forall b variables,
        escapedViaWhen (fun src => startsWith src "blob:" = false) (fun s => s)
          (fun src => generateImageMJML numToString resolveStyles
                                        (with_content b src) variables)
        /\ (startsWith (block_content b) "blob:" = false ->
            escapedVia (fun n => orDefault (Some n) "Image")
              (fun n => generateImageMJML numToString resolveStyles
                                          (with_name b n) variables)))
  /\ (forall b variables sd,
        exists size pad,
          framedWhen (fun ps => filter enabled ps <> [])
            (fun ps => join (nl +++ "      ")
                         (map (socialElement (setNetworks sd ps) size pad)
                              (filter enabled ps)))
            (fun ps => generateSocialMJML numToString (with_networks b sd ps)
                                          variables)
          /\ forall net en,
               escapedVia (fun u => orDefault (Some u) "#")
                 (fun u => socialElement sd size pad
                                         (mkSocialProfile net en u)))
  /\ (forall b variables td,
        exists bc bg,
          framedWhen (fun cells => cells <> [])
            (fun cells =>
               join (nl +++ "        ")
                 (mapi (fun row rowIndex =>
                          "<tr>"
                          +++ join "" (map (tableCell bc bg
                                              (hasHeader td
                                               && (rowIndex =? 0)%nat))
                                           row)
                          +++ "</tr>")
                       cells))
            (fun cells => generateTableMJML resolveStyles
                                            (with_cells b td cells) variables)
          /\ forall isHeader, escaped (tableCell bc bg isHeader))
  /\ (forall b variables ld,
        exists isNumbered marker,
          framedWhen (fun its => its <> [])
            (fun its => join "<br/>"
                          (mapi (listItem numToString isNumbered marker) its))
            (fun its => generateListMJML numToString resolveStyles
                                         (with_items b ld its) variables)
          /\ forall index,
               escaped (fun item =>
                          listItem numToString isNumbered marker item index)).
Proof.
  split; [intros s; split; [apply escapeHtml_entities|apply escapeHtml_safe]|].
  split; [intros; apply text_content_escaped|].
  split; [intros; split;
          [apply button_label_escaped|apply button_href_escaped]|].
  split; [intros; split; [apply image_src_escaped|apply image_alt_escaped]|].
  split; [|split].
  - intros b variables sd.
    destruct (social_elements_framed b variables sd) as (size & pad & H).
    exists size, pad. split; [exact H|]. intros. apply social_href_escaped.
  - intros b variables td.
    destruct (table_rows_framed b variables td) as (bc & bg & H).
    exists bc, bg. split; [exact H|]. intros. apply table_cell_escaped.
  - intros b variables ld.
    destruct (list_items_framed b variables ld) as (num & marker & H).
    exists num, marker. split; [exact H|]. intros. apply list_item_escaped.
Qed.

End RendererFacts.

(** A text block whose content is markup comes out escaped. *)
Example export_escapes_text_example :
  escapeHtml ("<a href=" +++ dq +++ "x" +++ dq +++ ">Tom & Jerry's</a>")
  = "&lt;a href=&quot;x&quot;&gt;Tom &amp; Jerry&#039;s&lt;/a&gt;"
  /\ containsString "<a" (generateTextMJML plainStyles
        (with_content exA ("<a href=" +++ dq +++ "x" +++ dq
                           +++ ">Tom & Jerry's</a>")) [])
     = false.
Proof. split; vm_compute; reflexivity. Qed.

(* ================================================================== *)
(** ** The editor store, continued *)

Section ListHelpers.
Context {A B : Type}.

Lemma nth_error_mapi_from (f : A -> nat -> B) (l : list A) (s i : nat) :
  nth_error (mapi_from s f l) i
  = option_map (fun a => f a (s + i)%nat) (nth_error l i).
Proof.
  revert s i. induction l as [|a l IH]; intros s [|i]; simpl; try reflexivity.
  - now rewrite Nat.add_0_r.
  - rewrite IH. now replace (S s + i)%nat with (s + S i)%nat by lia.
Qed.

Lemma nth_error_mapi (f : A -> nat -> B) (l : list A) (i : nat) :
  nth_error (mapi f l) i = option_map (fun a => f a i) (nth_error l i).
Proof. unfold mapi. now rewrite nth_error_mapi_from. Qed.

Lemma mapi_from_length (f : A -> nat -> B) (l : list A) (s : nat) :
  List.length (mapi_from s f l) = List.length l.
Proof. revert s. induction l; intros; simpl; auto. Qed.

End ListHelpers.

Lemma with_layout_same (b : EditorBlock) : with_layout b (block_layout b) = b.
Proof. now destruct b. Qed.

Section LayeringFacts.
Local Open Scope Z_scope.

Lemma fold_max_ge (bs : list EditorBlock) (z : Z) :
  z <= fold_left (fun max b => Z.max max (layout_zIndex (block_layout b))) bs z
  /\ forall c, In c bs ->
       layout_zIndex (block_layout c)
       <= fold_left (fun max b => Z.max max (layout_zIndex (block_layout b)))
                    bs z.
Proof.
  revert z. induction bs as [|b bs IH]; intros z; simpl.
  - split; [lia|intros c []].
  - destruct (IH (Z.max z (layout_zIndex (block_layout b)))) as [H1 H2].
    split; [lia|]. intros c [<-|Hc]; [lia|now apply H2].
Qed.

Lemma maxZIndexOf_ge (bs : list EditorBlock) :
  0 <= maxZIndexOf bs
  /\ forall c, In c bs -> layout_zIndex (block_layout c) <= maxZIndexOf bs.
Proof. apply fold_max_ge. Qed.

Lemma fold_min_le (bs : list EditorBlock) (m0 : Z) :
  exists m,
    fold_left (fun min b =>
                 match min with
                 | None => Some (layout_zIndex (block_layout b))
                 | Some m => Some (Z.min m (layout_zIndex (block_layout b)))
                 end) bs (Some m0) = Some m
    /\ m <= m0
    /\ forall c, In c bs -> m <= layout_zIndex (block_layout c).
Proof.
  revert m0. induction bs as [|b bs IH]; intros m0; simpl.
  - exists m0. repeat split; [lia|intros c []].
  - destruct (IH (Z.min m0 (layout_zIndex (block_layout b))))
      as (m & -> & Hle & Hall).
    exists m. repeat split; [lia|]. intros c [<-|Hc]; [lia|now apply Hall].
Qed.

Lemma minZIndexOf_le (bs : list EditorBlock) (c : EditorBlock) :
  In c bs ->
  exists m, minZIndexOf bs = Some m
            /\ forall c', In c' bs -> m <= layout_zIndex (block_layout c').
Proof.
  unfold minZIndexOf. destruct bs as [|b bs]; [intros []|]. intros _. simpl.
  destruct (fold_min_le bs (layout_zIndex (block_layout b)))
    as (m & -> & Hle & Hall).
  exists m. split; [reflexivity|]. intros c' [<-|Hc']; [lia|now apply Hall].
Qed.

(** X1. [bringToFront] leaves every block that is not a target as it is
    and gives every target a zIndex strictly above the zIndex every block
    had before (and above 0), changing nothing else of its layout. *)
Theorem bringToFront_above_all :
  forall (state : EditorState) (id : option string),
    targetIdsOf id (selectedBlockIds state) <> [] ->
    let targetIds := targetIdsOf id (selectedBlockIds state) in
    let state' := apply (bringToFront id) state in
    List.length (blocks state') = List.length (blocks state)
    /\ forall i b, nth_error (blocks state) i = Some b ->
         exists b', nth_error (blocks state') i = Some b'
           /\ (includes targetIds (block_id b) = false -> b' = b)
           /\ (includes targetIds (block_id b) = true ->
               b' = with_layout b (with_zIndex (block_layout b)
                                     (layout_zIndex (block_layout b')))
               /\ 0 < layout_zIndex (block_layout b')
               /\ forall c, In c (blocks state) ->
                    layout_zIndex (block_layout c)
                    < layout_zIndex (block_layout b')).
Proof.
  intros state id Hne targetIds state'. subst state'.
  unfold apply, bringToFront. subst targetIds.
  destruct (targetIdsOf id (selectedBlockIds state)) as [|t ts]; [congruence|].
  cbn [List.length Nat.eqb merge orKeep p_blocks blocks].
  split; [apply mapi_from_length|].
  intros i b Hb. rewrite nth_error_mapi, Hb. cbn [option_map].
  eexists. split; [reflexivity|].
  destruct (includes (t :: ts) (block_id b)); split; try congruence.
  intros _. cbn [block_layout with_layout with_zIndex layout_zIndex].
  destruct (maxZIndexOf_ge (blocks state)) as [H0 Hall].
  split; [reflexivity|]. split; [lia|].
  intros c Hc. specialize (Hall c Hc). lia.
Qed.

Lemma bringToFront_above_all_witness :
  let state :=
    exState [ exBlock "a" TyText "one" (exLayout 0 0 10 10 7) None;
              exBlock "b" TyText "two" (exLayout 0 0 10 10 3) None ] [] in
  let targetIds := targetIdsOf (Some "b") (selectedBlockIds state) in
  let state' := apply (bringToFront (Some "b")) state in
  List.length (blocks state') = List.length (blocks state)
  /\ forall i b, nth_error (blocks state) i = Some b ->
       exists b', nth_error (blocks state') i = Some b'
         /\ (includes targetIds (block_id b) = false -> b' = b)
         /\ (includes targetIds (block_id b) = true ->
             b' = with_layout b (with_zIndex (block_layout b)
                                   (layout_zIndex (block_layout b')))
             /\ 0 < layout_zIndex (block_layout b')
             /\ forall c, In c (blocks state) ->
                  layout_zIndex (block_layout c)
                  < layout_zIndex (block_layout b')).
Proof.
  intros state.
  apply (bringToFront_above_all state (Some "b")). discriminate.
Defined.

(** X2. [sendToBack] never produces a negative zIndex; when no block has
    a negative zIndex every target ends at or below the zIndex every block
    had before (at 0 it ties with the blocks already there), and the
    blocks that are not targets are left as they are. *)
Theorem sendToBack_at_bottom :
  forall (state : EditorState) (id : option string),
    targetIdsOf id (selectedBlockIds state) <> [] ->
    let targetIds := targetIdsOf id (selectedBlockIds state) in
    let state' := apply (sendToBack id) state in
    forall i b, nth_error (blocks state) i = Some b ->
      exists b', nth_error (blocks state') i = Some b'
        /\ (includes targetIds (block_id b) = false -> b' = b)
        /\ (includes targetIds (block_id b) = true ->
            0 <= layout_zIndex (block_layout b')
            /\ ((forall c, In c (blocks state) ->
                           0 <= layout_zIndex (block_layout c)) ->
                forall c, In c (blocks state) ->
                  layout_zIndex (block_layout b')
                  <= layout_zIndex (block_layout c))).
Proof.
  intros state id Hne targetIds state' i b Hb. subst state'.
  unfold apply, sendToBack. subst targetIds.
  destruct (targetIdsOf id (selectedBlockIds state)) as [|t ts]; [congruence|].
  cbn [List.length Nat.eqb merge orKeep p_blocks blocks].
  rewrite nth_error_mapi, Hb. cbn [option_map].
  eexists. split; [reflexivity|].
  destruct (includes (t :: ts) (block_id b)); split; try congruence.
  intros _.
  destruct (minZIndexOf_le (blocks state) b (nth_error_In _ _ Hb))
    as (m & -> & Hall).
  cbn [block_layout with_layout with_zIndex layout_zIndex].
  split; [lia|]. intros Hpos c Hc.
  specialize (Hall c Hc). specialize (Hpos c Hc). lia.
Qed.

Lemma sendToBack_at_bottom_witness :
  let state :=
    exState [ exBlock "a" TyText "one" (exLayout 0 0 10 10 0) None;
              exBlock "b" TyText "two" (exLayout 0 0 10 10 3) None ] ["b"] in
  exists b',
    nth_error (blocks (apply (sendToBack None) state)) 1 = Some b'
    /\ 0 <= layout_zIndex (block_layout b')
    /\ layout_zIndex (block_layout b') <= 0.
Proof.
  intros state.
  destruct (sendToBack_at_bottom state None ltac:(discriminate) 1%nat
              (exBlock "b" TyText "two" (exLayout 0 0 10 10 3) None) eq_refl)
    as (b' & Hnth & _ & Hz).
  destruct (Hz eq_refl) as [H0 Hall].
  exists b'. split; [exact Hnth|]. split; [exact H0|].
  apply (Hall ltac:(intros c [<-|[<-|[]]]; simpl; lia)
              (exBlock "a" TyText "one" (exLayout 0 0 10 10 0) None)).
  left. reflexivity.
Defined.

(** X3. [bringForward] followed by [sendBackward] on the same targets
    gives back the blocks as they were, provided no target had a negative
    zIndex. *)
Theorem bringForward_sendBackward_roundtrip :
  forall (state : EditorState) (id : option string),
    (forall b, In b (blocks state) ->
       includes (targetIdsOf id (selectedBlockIds state)) (block_id b) = true ->
       0 <= layout_zIndex (block_layout b)) ->
    blocks (apply (sendBackward id) (apply (bringForward id) state))
    = blocks state.
Proof.
  intros state id Hpos. unfold apply, bringForward, sendBackward.
  destruct (List.length (targetIdsOf id (selectedBlockIds state)) =? 0)%nat
    eqn:El.
  - now rewrite El.
  - cbn [merge orKeep p_blocks p_selectedBlockIds blocks selectedBlockIds].
    rewrite El. cbn [merge orKeep p_blocks blocks].
    rewrite map_map. rewrite <- (map_id (blocks state)) at 2.
    apply map_ext_in. intros b Hb.
    destruct (includes _ (block_id b)) eqn:Ei.
    + cbn [with_layout block_id]. rewrite Ei.
      specialize (Hpos b Hb Ei).
      cbn [with_layout with_zIndex block_layout layout_zIndex layout_x
           layout_y layout_width layout_height block_type block_content
           block_styles block_name isLocked isVisible parentId socialData
           tableData listData responsiveMode desktopLayout link constraints].
      replace (Z.max 0 (layout_zIndex (block_layout b) + 1 - 1))
        with (layout_zIndex (block_layout b)) by lia.
      destruct b as [? ? ? ? [? ? ? ? ?] ? ? ? ? ? ? ? ? ? ? ?]. reflexivity.
    + now rewrite Ei.
Qed.

Lemma bringForward_sendBackward_roundtrip_witness :
  let state :=
    exState [ exBlock "a" TyText "one" (exLayout 0 0 10 10 0) None;
              exBlock "b" TyText "two" (exLayout 0 0 10 10 3) None ] ["a"] in
  blocks (apply (sendBackward None) (apply (bringForward None) state))
  = blocks state.
Proof.
  intros state. apply (bringForward_sendBackward_roundtrip state None).
  intros b Hb _. simpl in Hb. destruct Hb as [<-|[<-|[]]]; simpl; lia.
Defined.

End LayeringFacts.

Section AlignmentFacts.
Local Open Scope Q_scope.

Lemma Math_min_le_l (a b : Q) : Math_min a b <= a.
Proof.
  unfold Math_min. destruct (Qle_bool a b) eqn:E; [lra|].
  apply Qle_bool_false_iff in E. lra.
Qed.

Lemma Math_min_le_r (a b : Q) : Math_min a b <= b.
Proof.
  unfold Math_min. destruct (Qle_bool a b) eqn:E; [|lra].
  now apply Qle_bool_iff in E.
Qed.

Lemma Math_max_ge_l (a b : Q) : a <= Math_max a b.
Proof.
  unfold Math_max. destruct (Qle_bool a b) eqn:E; [|lra].
  now apply Qle_bool_iff in E.
Qed.

Lemma Math_max_ge_r (a b : Q) : b <= Math_max a b.
Proof.
  unfold Math_max. destruct (Qle_bool a b) eqn:E; [lra|].
  apply Qle_bool_false_iff in E. lra.
Qed.

Lemma Math_max_left_of_neg (v : Q) : v < 0 -> Math_max 0 v = 0.
Proof.
  intros H. unfold Math_max. destruct (Qle_bool 0 v) eqn:E; [|reflexivity].
  apply Qle_bool_iff in E. lra.
Qed.

(** On whole pixels the binary64 sum is the exact sum. *)
Lemma wholePixel_add (x d : number) :
  wholePixel x -> wholePixel d -> B64.add x d == x + d.
Proof.
  intros (n & Hn & Hx) (k & Hk & Hd). unfold B64.add.
  rewrite (round64_value (x + d) (inject_Z (n + k)))
    by (rewrite Hx, Hd, inject_Z_plus; reflexivity).
  rewrite round64_whole by lia. rewrite Hx, Hd, inject_Z_plus. reflexivity.
Qed.

Lemma add_exact (a b : number) (n m : Z) :
  a == inject_Z n -> b == inject_Z m -> (Z.abs (n + m) <= 2 ^ 53)%Z ->
  B64.add a b == a + b.
Proof.
  intros Ha Hb Hn. unfold B64.add. apply (round64_int _ (n + m)%Z); [|exact Hn].
  rewrite Ha, Hb, inject_Z_plus. reflexivity.
Qed.

Lemma sub_exact (a b : number) (n m : Z) :
  a == inject_Z n -> b == inject_Z m -> (Z.abs (n - m) <= 2 ^ 53)%Z ->
  B64.sub a b == a - b.
Proof.
  intros Ha Hb Hn. unfold B64.sub. apply (round64_int _ (n - m)%Z); [|exact Hn].
  rewrite Ha, Hb. unfold Qeq, Qminus, Qplus, Qopp. cbn [Qnum Qden inject_Z].
  lia.
Qed.

Lemma half_exact (a : number) (n : Z) :
  a == inject_Z n -> (Z.abs n <= 2 ^ 53)%Z ->
  B64.div a 2 == a / 2 /\ a / 2 == n # 2.
Proof.
  intros Ha Hn.
  assert (Hh : a / 2 == n # 2).
  { rewrite Ha. unfold Qeq, Qdiv, Qmult, Qinv. cbn [Qnum Qden inject_Z]. lia. }
  split; [|exact Hh].
  unfold B64.div. now apply (round64_half _ n).
Qed.

Lemma sub_half_exact (a b : number) (n m : Z) :
  a == n # 2 -> b == m # 2 -> (Z.abs (n - m) <= 2 ^ 53)%Z ->
  B64.sub a b == a - b.
Proof.
  intros Ha Hb Hn. unfold B64.sub. apply (round64_half _ (n - m)%Z); [|exact Hn].
  rewrite Ha, Hb. unfold Qeq, Qminus, Qplus, Qopp. cbn [Qnum Qden]. lia.
Qed.

Lemma Math_min_list_le (vs : list number) (v : number) :
  In v vs -> Math_min_list vs <= v.
Proof.
  induction vs as [|a vs IH]; [intros []|].
  intros Hin. destruct vs as [|a' vs'].
  - destruct Hin as [<-|[]]. simpl. lra.
  - change (Math_min_list (a :: a' :: vs'))
      with (Math_min a (Math_min_list (a' :: vs'))).
    destruct Hin as [<-|Hin]; [apply Math_min_le_l|].
    eapply Qle_trans; [apply Math_min_le_r|now apply IH].
Qed.

Lemma Math_max_list_ge (vs : list number) (v : number) :
  In v vs -> v <= Math_max_list vs.
Proof.
  induction vs as [|a vs IH]; [intros []|].
  intros Hin. destruct vs as [|a' vs'].
  - destruct Hin as [<-|[]]. simpl. lra.
  - change (Math_max_list (a :: a' :: vs'))
      with (Math_max a (Math_max_list (a' :: vs'))).
    destruct Hin as [<-|Hin]; [apply Math_max_ge_l|].
    eapply Qle_trans; [now apply IH|apply Math_max_ge_r].
Qed.

(** The alignment actions move the selected blocks along one axis and
    touch nothing else. *)
Lemma Math_max_list_In (vs : list number) :
  vs <> [] -> In (Math_max_list vs) vs.
Proof.
  induction vs as [|a vs IH]; [congruence|]. intros _.
  destruct vs as [|a' vs']; [now left|].
  change (Math_max_list (a :: a' :: vs'))
    with (Math_max a (Math_max_list (a' :: vs'))).
  unfold Math_max at 1. destruct (Qle_bool _ _); [|now left].
  right. apply IH. discriminate.
Qed.

(** On whole pixels the far edges are computed exactly, and so is the
    position that puts a block against the farthest of them. *)
Lemma max_edge_whole (pos size : EditorBlock -> number)
    (bs : list EditorBlock) :
  wholePixels pos size bs -> bs <> [] ->
  let m := Math_max_list (map (fun b => B64.add (pos b) (size b)) bs) in
  (exists k, (Z.abs k <= 2 ^ 52)%Z /\ m == inject_Z k)
  /\ largestOf (fun c => pos c + size c) bs m
  /\ forall b, In b bs ->
        B64.sub m (size b) + size b == m /\ pos b <= B64.sub m (size b).
Proof.
  intros Hw Hne m.
  assert (Hedge : forall c, In c bs ->
            B64.add (pos c) (size c) == pos c + size c
            /\ exists k, (Z.abs k <= 2 ^ 52)%Z /\ pos c + size c == inject_Z k).
  { intros c Hc. destruct (Hw c Hc) as [(n & Hn & Hp) (k & Hk & Hs)].
    split.
    - apply (add_exact _ _ n k Hp Hs). lia.
    - exists (n + k)%Z. split; [lia|].
      rewrite Hp, Hs, inject_Z_plus. reflexivity. }
  assert (Hin : In m (map (fun b => B64.add (pos b) (size b)) bs)).
  { apply Math_max_list_In. destruct bs; [congruence|discriminate]. }
  apply in_map_iff in Hin. destruct Hin as (c0 & Hc0 & Hin0).
  destruct (Hedge c0 Hin0) as [He0 (k0 & Hk0 & Hv0)].
  assert (Hm : m == inject_Z k0) by (rewrite <- Hc0, He0; exact Hv0).
  assert (Hle : forall c, In c bs -> pos c + size c <= m).
  { intros c Hc. destruct (Hedge c Hc) as [He _]. rewrite <- He.
    apply Math_max_list_ge.
    apply (in_map (fun b => B64.add (pos b) (size b))). exact Hc. }
  split; [now exists k0|]. split.
  - split; [|exact Hle]. exists c0. split; [exact Hin0|].
    rewrite <- Hc0. symmetry. exact He0.
  - intros b Hb. destruct (Hw b Hb) as [_ (k & Hk & Hs)].
    assert (Hx : B64.sub m (size b) == m - size b)
      by (apply (sub_exact _ _ k0 k Hm Hs); lia).
    pose proof (Hle b Hb) as Hb'.
    split; rewrite Hx; lra.
Qed.

(** On whole pixels the middle of the bounding interval is computed
    exactly, and so is the position that centers a block on it. *)
Lemma center_whole (pos size : EditorBlock -> number)
    (bs : list EditorBlock) :
  wholePixels pos size bs -> bs <> [] ->
  let lo := Math_min_list (map pos bs) in
  let hi := Math_max_list (map (fun b => B64.add (pos b) (size b)) bs) in
  let center := B64.div (B64.add lo hi) 2 in
  smallestOf pos bs lo
  /\ largestOf (fun c => pos c + size c) bs hi
  /\ forall b, In b bs ->
        B64.sub center (B64.div (size b) 2) + size b / 2 == (lo + hi) / 2.
Proof.
  intros Hw Hne lo hi center.
  destruct (max_edge_whole pos size bs Hw Hne) as ((k0 & Hk0 & Hhi) & Hlarge & _).
  fold hi in Hhi, Hlarge.
  assert (Hin : In lo (map pos bs)).
  { apply Math_min_list_In. destruct bs; [congruence|discriminate]. }
  apply in_map_iff in Hin. destruct Hin as (c1 & Hc1 & Hin1).
  destruct (Hw c1 Hin1) as [(n1 & Hn1 & Hp1) _].
  assert (Hlo : lo == inject_Z n1) by (rewrite <- Hc1; exact Hp1).
  split; [|split; [exact Hlarge|]].
  - split.
    + exists c1. split; [exact Hin1|]. rewrite Hc1. reflexivity.
    + intros c Hc. apply Math_min_list_le. now apply in_map.
  - intros b Hb. destruct (Hw b Hb) as [_ (k & Hk & Hs)].
    assert (Hsum : B64.add lo hi == lo + hi)
      by (apply (add_exact _ _ n1 k0 Hlo Hhi); lia).
    assert (Hsum' : B64.add lo hi == inject_Z (n1 + k0))
      by (rewrite Hsum, Hlo, Hhi, inject_Z_plus; reflexivity).
    destruct (half_exact (B64.add lo hi) (n1 + k0) Hsum') as [Hc Hc'];
      [lia|].
    destruct (half_exact (size b) k Hs) as [Hh Hh']; [lia|].
    assert (Hx : B64.sub center (B64.div (size b) 2)
                 == center - B64.div (size b) 2).
    { apply (sub_half_exact _ _ (n1 + k0) k).
      - unfold center. rewrite Hc. exact Hc'.
      - rewrite Hh. exact Hh'.
      - lia. }
    rewrite Hx, Hh. unfold center. rewrite Hc, Hsum. field.
Qed.

Lemma moveSelectedX_blocks (state : EditorState) (f : EditorBlock -> number) :
  Forall2 (fun b b' =>
             if includes (selectedBlockIds state) (block_id b)
             then b' = with_layout b (with_x (block_layout b) (f b))
             else b' = b)
          (blocks state) (blocks (merge state (moveSelectedX state f))).
Proof.
  cbn [merge moveSelectedX orKeep p_blocks blocks]. apply Forall2_map_r.
  intros b _. now destruct (includes _ _).
Qed.

Lemma moveSelectedY_blocks (state : EditorState) (f : EditorBlock -> number) :
  Forall2 (fun b b' =>
             if includes (selectedBlockIds state) (block_id b)
             then b' = with_layout b (with_y (block_layout b) (f b))
             else b' = b)
          (blocks state) (blocks (merge state (moveSelectedY state f))).
Proof.
  cbn [merge moveSelectedY orKeep p_blocks blocks]. apply Forall2_map_r.
  intros b _. now destruct (includes _ _).
Qed.

Lemma In_selectedOf (state : EditorState) (b : EditorBlock) :
  In b (blocks state) ->
  includes (selectedBlockIds state) (block_id b) = true ->
  In b (selectedOf state).
Proof. intros. apply filter_In. now split. Qed.

(** X4. [alignLeft] and [alignTop], with at least two ids selected, put
    every selected block at the smallest x (resp. y) of the selected
    blocks: no selected block moves right (resp. down), one of them stays
    where it is, and nothing else of any block changes. *)
Theorem align_to_min_edge :
  forall (state : EditorState),
    (2 <= List.length (selectedBlockIds state))%nat ->
    (exists minX,
       (selectedOf state <> [] ->
        exists b, In b (selectedOf state) /\ layout_x (block_layout b) = minX)
       /\ Forall2 (fun b b' =>
                     if includes (selectedBlockIds state) (block_id b)
                     then b' = with_layout b (with_x (block_layout b) minX)
                          /\ minX <= layout_x (block_layout b)
                     else b' = b)
                  (blocks state) (blocks (apply alignLeft state)))
    /\ (exists minY,
          (selectedOf state <> [] ->
           exists b, In b (selectedOf state)
                     /\ layout_y (block_layout b) = minY)
          /\ Forall2 (fun b b' =>
                        if includes (selectedBlockIds state) (block_id b)
                        then b' = with_layout b (with_y (block_layout b) minY)
                             /\ minY <= layout_y (block_layout b)
                        else b' = b)
                     (blocks state) (blocks (apply alignTop state))).
Proof.
  intros state Hsel.
  assert (Hlt : (List.length (selectedBlockIds state) <? 2)%nat = false)
    by (apply Nat.ltb_ge; lia).
  split.
  - exists (Math_min_list
              (map (fun b => layout_x (block_layout b)) (selectedOf state))).
    split.
    + intros Hne.
      assert (Hin := Math_min_list_In
                (map (fun b => layout_x (block_layout b)) (selectedOf state))).
      destruct (selectedOf state) as [|b0 bs] eqn:E; [congruence|].
      specialize (Hin ltac:(discriminate)). apply in_map_iff in Hin.
      destruct Hin as (b & Hb & Hin). now exists b.
    + unfold apply, alignLeft. rewrite Hlt.
      eapply Forall2_impl_In; [|apply moveSelectedX_blocks].
      intros b b' Hb. cbv beta.
      destruct (includes _ _) eqn:Ei; [|auto].
      intros ->. split; [reflexivity|].
      apply Math_min_list_le.
      apply (in_map (fun b => layout_x (block_layout b))).
      now apply In_selectedOf.
  - exists (Math_min_list
              (map (fun b => layout_y (block_layout b)) (selectedOf state))).
    split.
    + intros Hne.
      assert (Hin := Math_min_list_In
                (map (fun b => layout_y (block_layout b)) (selectedOf state))).
      destruct (selectedOf state) as [|b0 bs] eqn:E; [congruence|].
      specialize (Hin ltac:(discriminate)). apply in_map_iff in Hin.
      destruct Hin as (b & Hb & Hin). now exists b.
    + unfold apply, alignTop. rewrite Hlt.
      eapply Forall2_impl_In; [|apply moveSelectedY_blocks].
      intros b b' Hb. cbv beta.
      destruct (includes _ _) eqn:Ei; [|auto].
      intros ->. split; [reflexivity|].
      apply Math_min_list_le.
      apply (in_map (fun b => layout_y (block_layout b))).
      now apply In_selectedOf.
Qed.

Lemma align_to_min_edge_witness :
  (exists minX,
     (selectedOf exAlignState <> [] ->
      exists b, In b (selectedOf exAlignState)
                /\ layout_x (block_layout b) = minX)
     /\ Forall2 (fun b b' =>
                   if includes (selectedBlockIds exAlignState) (block_id b)
                   then b' = with_layout b (with_x (block_layout b) minX)
                        /\ minX <= layout_x (block_layout b)
                   else b' = b)
                (blocks exAlignState) (blocks (apply alignLeft exAlignState)))
  /\ (exists minY,
        (selectedOf exAlignState <> [] ->
         exists b, In b (selectedOf exAlignState)
                   /\ layout_y (block_layout b) = minY)
        /\ Forall2 (fun b b' =>
                      if includes (selectedBlockIds exAlignState) (block_id b)
                      then b' = with_layout b (with_y (block_layout b) minY)
                           /\ minY <= layout_y (block_layout b)
                      else b' = b)
                   (blocks exAlignState) (blocks (apply alignTop exAlignState))).
Proof. apply (align_to_min_edge exAlignState). simpl. lia. Defined.

(** X5. [alignRight] and [alignBottom], with at least two ids selected,
    give every selected block the position maxRight - width (resp.
    maxBottom - height, a height 'auto' counting as 50) in binary64,
    maxRight being the largest of the right edges x + width computed in
    binary64, and leave sizes and all other blocks alone.  When the
    selected blocks sit on whole pixels, maxRight is the largest right
    edge, the right edge of every selected block ends on it, and no
    selected block moves left (resp. up). *)
Theorem align_to_max_edge :
  forall (state : EditorState),
    (2 <= List.length (selectedBlockIds state))%nat ->
    let sel := selectedOf state in
    let maxRight := Math_max_list (map rightEdge sel) in
    let maxBottom := Math_max_list (map bottomEdge sel) in
    Forall2 (fun b b' =>
               if includes (selectedBlockIds state) (block_id b)
               then b' = with_layout b
                           (with_x (block_layout b)
                              (B64.sub maxRight
                                       (layout_width (block_layout b))))
               else b' = b)
            (blocks state) (blocks (apply alignRight state))
    /\ Forall2 (fun b b' =>
                  if includes (selectedBlockIds state) (block_id b)
                  then b' = with_layout b
                              (with_y (block_layout b)
                                 (B64.sub maxBottom (alignHeight b)))
                  else b' = b)
               (blocks state) (blocks (apply alignBottom state))
    /\ (sel <> [] ->
        wholePixels (fun b => layout_x (block_layout b))
                    (fun b => layout_width (block_layout b)) sel ->
        largestOf (fun c => layout_x (block_layout c)
                            + layout_width (block_layout c)) sel maxRight
        /\ forall b, In b sel ->
              B64.sub maxRight (layout_width (block_layout b))
              + layout_width (block_layout b) == maxRight
              /\ layout_x (block_layout b)
                 <= B64.sub maxRight (layout_width (block_layout b)))
    /\ (sel <> [] ->
        wholePixels (fun b => layout_y (block_layout b)) alignHeight sel ->
        largestOf (fun c => layout_y (block_layout c) + alignHeight c)
                  sel maxBottom
        /\ forall b, In b sel ->
              B64.sub maxBottom (alignHeight b) + alignHeight b == maxBottom
              /\ layout_y (block_layout b)
                 <= B64.sub maxBottom (alignHeight b)).
Proof.
  intros state Hsel sel maxRight maxBottom.
  assert (Hlt : (List.length (selectedBlockIds state) <? 2)%nat = false)
    by (apply Nat.ltb_ge; lia).
  split; [|split; [|split]].
  - unfold apply, alignRight. rewrite Hlt. apply moveSelectedX_blocks.
  - unfold apply, alignBottom. rewrite Hlt. apply moveSelectedY_blocks.
  - intros Hne Hw.
    destruct (max_edge_whole _ _ sel Hw Hne) as (_ & Hl & Hb).
    split; [exact Hl|exact Hb].
  - intros Hne Hw.
    destruct (max_edge_whole _ _ sel Hw Hne) as (_ & Hl & Hb).
    split; [exact Hl|exact Hb].
Qed.

Lemma align_to_max_edge_witness :
  selectedOf exAlignState <> []
  /\ wholePixels (fun b => layout_x (block_layout b))
                 (fun b => layout_width (block_layout b))
                 (selectedOf exAlignState)
  /\ wholePixels (fun b => layout_y (block_layout b)) alignHeight
                 (selectedOf exAlignState)
  /\ map (fun b => layout_x (block_layout b))
         (blocks (apply alignRight exAlignState))
     = [B64.sub (Math_max_list (map rightEdge (selectedOf exAlignState))) 100;
        B64.sub (Math_max_list (map rightEdge (selectedOf exAlignState))) 30;
        200]
  /\ largestOf (fun c => layout_x (block_layout c)
                         + layout_width (block_layout c))
               (selectedOf exAlignState)
               (Math_max_list (map rightEdge (selectedOf exAlignState)))
  /\ largestOf (fun c => layout_y (block_layout c) + alignHeight c)
               (selectedOf exAlignState)
               (Math_max_list (map bottomEdge (selectedOf exAlignState))).
Proof.
  assert (Hne : selectedOf exAlignState <> []) by discriminate.
  assert (Hwx : wholePixels (fun b => layout_x (block_layout b))
                            (fun b => layout_width (block_layout b))
                            (selectedOf exAlignState)).
  { intros b [<-|[<-|[]]]; split;
      [exists 10%Z|exists 100%Z|exists 50%Z|exists 30%Z];
      (split; [vm_compute; discriminate|reflexivity]). }
  assert (Hwy : wholePixels (fun b => layout_y (block_layout b)) alignHeight
                            (selectedOf exAlignState)).
  { intros b [<-|[<-|[]]]; split;
      [exists 20%Z|exists 40%Z|exists 5%Z|exists 50%Z];
      (split; [vm_compute; discriminate|reflexivity]). }
  destruct (align_to_max_edge exAlignState) as (Hr & _ & Hx & Hy);
    [simpl; lia|].
  split; [exact Hne|]. split; [exact Hwx|]. split; [exact Hwy|].
  split; [reflexivity|].
  split; [exact (proj1 (Hx Hne Hwx))|exact (proj1 (Hy Hne Hwy))].
Defined.

(** Aligned right, the blocks at x = 10 (width 100) and x = 50 (width 30)
    end at x = 10 and x = 80. *)
Example alignRight_example :
  map (fun b => Qred (layout_x (block_layout b)))
      (blocks (apply alignRight exAlignState))
  = [10; 80; 200].
Proof. vm_compute. reflexivity. Qed.

(** X6. [alignCenter] and [alignMiddle], with at least two ids selected,
    give every selected block the position center - width / 2 (resp.
    center - height / 2, a height 'auto' counting as 50) in binary64,
    center being (min + max) / 2 computed in binary64 from the smallest
    position and the largest far edge of the selected blocks, and leave
    sizes and all other blocks alone.  When the selected blocks sit on
    whole pixels, min and max are the ends of their bounding interval and
    the center of every selected block ends on its middle. *)
Theorem align_to_center :
  forall (state : EditorState),
    (2 <= List.length (selectedBlockIds state))%nat ->
    let sel := selectedOf state in
    let minX := Math_min_list (map (fun b => layout_x (block_layout b)) sel) in
    let maxX := Math_max_list (map rightEdge sel) in
    let minY := Math_min_list (map (fun b => layout_y (block_layout b)) sel) in
    let maxY := Math_max_list (map bottomEdge sel) in
    Forall2 (fun b b' =>
               if includes (selectedBlockIds state) (block_id b)
               then b' = with_layout b
                           (with_x (block_layout b)
                              (B64.sub (B64.div (B64.add minX maxX) 2)
                                 (B64.div (layout_width (block_layout b)) 2)))
               else b' = b)
            (blocks state) (blocks (apply alignCenter state))
    /\ Forall2 (fun b b' =>
                  if includes (selectedBlockIds state) (block_id b)
                  then b' = with_layout b
                              (with_y (block_layout b)
                                 (B64.sub (B64.div (B64.add minY maxY) 2)
                                    (B64.div (alignHeight b) 2)))
                  else b' = b)
               (blocks state) (blocks (apply alignMiddle state))
    /\ (sel <> [] ->
        wholePixels (fun b => layout_x (block_layout b))
                    (fun b => layout_width (block_layout b)) sel ->
        smallestOf (fun c => layout_x (block_layout c)) sel minX
        /\ largestOf (fun c => layout_x (block_layout c)
                               + layout_width (block_layout c)) sel maxX
        /\ forall b, In b sel ->
              B64.sub (B64.div (B64.add minX maxX) 2)
                      (B64.div (layout_width (block_layout b)) 2)
              + layout_width (block_layout b) / 2
              == (minX + maxX) / 2)
    /\ (sel <> [] ->
        wholePixels (fun b => layout_y (block_layout b)) alignHeight sel ->
        smallestOf (fun c => layout_y (block_layout c)) sel minY
        /\ largestOf (fun c => layout_y (block_layout c) + alignHeight c)
                     sel maxY
        /\ forall b, In b sel ->
              B64.sub (B64.div (B64.add minY maxY) 2)
                      (B64.div (alignHeight b) 2)
              + alignHeight b / 2
              == (minY + maxY) / 2).
Proof.
  intros state Hsel sel minX maxX minY maxY.
  assert (Hlt : (List.length (selectedBlockIds state) <? 2)%nat = false)
    by (apply Nat.ltb_ge; lia).
  split; [|split; [|split]].
  - unfold apply, alignCenter. rewrite Hlt. apply moveSelectedX_blocks.
  - unfold apply, alignMiddle. rewrite Hlt. apply moveSelectedY_blocks.
  - intros Hne Hw. exact (center_whole _ _ sel Hw Hne).
  - intros Hne Hw. exact (center_whole _ _ sel Hw Hne).
Qed.

Lemma align_to_center_witness :
  selectedOf exAlignState <> []
  /\ wholePixels (fun b => layout_x (block_layout b))
                 (fun b => layout_width (block_layout b))
                 (selectedOf exAlignState)
  /\ wholePixels (fun b => layout_y (block_layout b)) alignHeight
                 (selectedOf exAlignState)
  /\ smallestOf (fun c => layout_x (block_layout c))
                (selectedOf exAlignState)
                (Math_min_list (map (fun b => layout_x (block_layout b))
                                    (selectedOf exAlignState)))
  /\ smallestOf (fun c => layout_y (block_layout c))
                (selectedOf exAlignState)
                (Math_min_list (map (fun b => layout_y (block_layout b))
                                    (selectedOf exAlignState))).
Proof.
  assert (Hne : selectedOf exAlignState <> []) by discriminate.
  assert (Hwx : wholePixels (fun b => layout_x (block_layout b))
                            (fun b => layout_width (block_layout b))
                            (selectedOf exAlignState)).
  { intros b [<-|[<-|[]]]; split;
      [exists 10%Z|exists 100%Z|exists 50%Z|exists 30%Z];
      (split; [vm_compute; discriminate|reflexivity]). }
  assert (Hwy : wholePixels (fun b => layout_y (block_layout b)) alignHeight
                            (selectedOf exAlignState)).
  { intros b [<-|[<-|[]]]; split;
      [exists 20%Z|exists 40%Z|exists 5%Z|exists 50%Z];
      (split; [vm_compute; discriminate|reflexivity]). }
  destruct (align_to_center exAlignState) as (_ & _ & Hx & Hy);
    [simpl; lia|].
  split; [exact Hne|]. split; [exact Hwx|]. split; [exact Hwy|].
  split; [exact (proj1 (Hx Hne Hwx))|exact (proj1 (Hy Hne Hwy))].
Defined.

(** Centered, the blocks at x = 10 (width 100) and x = 50 (width 30) end
    at x = 10 and x = 45, around x = 60. *)
Example alignCenter_example :
  map (fun b => Qred (layout_x (block_layout b)))
      (blocks (apply alignCenter exAlignState))
  = [10; 45; 200].
Proof. vm_compute. reflexivity. Qed.

(** X7. [nudgeSelectedBlocks] moves every selected block by (dx, dy) but
    never to a negative coordinate: the new x is the moved one, x + dx in
    binary64, where this is not negative and 0 where it is negative, and
    the same for y; on whole pixels the moved coordinate is the exact sum.
    Sizes, zIndex and the blocks that are not selected are left as they
    are. *)
Theorem nudge_stays_on_canvas :
  forall (state : EditorState) (dx dy : number),
    selectedBlockIds state <> [] ->
    Forall2 (fun b b' =>
               if includes (selectedBlockIds state) (block_id b)
               then b' = with_layout b
                           (with_xy (block_layout b)
                              (layout_x (block_layout b'))
                              (layout_y (block_layout b')))
                    /\ 0 <= layout_x (block_layout b')
                    /\ 0 <= layout_y (block_layout b')
                    /\ (0 <= B64.add (layout_x (block_layout b)) dx ->
                        layout_x (block_layout b')
                        = B64.add (layout_x (block_layout b)) dx)
                    /\ (B64.add (layout_x (block_layout b)) dx < 0 ->
                        layout_x (block_layout b') = 0)
                    /\ (0 <= B64.add (layout_y (block_layout b)) dy ->
                        layout_y (block_layout b')
                        = B64.add (layout_y (block_layout b)) dy)
                    /\ (B64.add (layout_y (block_layout b)) dy < 0 ->
                        layout_y (block_layout b') = 0)
                    /\ (wholePixel (layout_x (block_layout b)) ->
                        wholePixel dx ->
                        B64.add (layout_x (block_layout b)) dx
                        == layout_x (block_layout b) + dx)
                    /\ (wholePixel (layout_y (block_layout b)) ->
                        wholePixel dy ->
                        B64.add (layout_y (block_layout b)) dy
                        == layout_y (block_layout b) + dy)
               else b' = b)
            (blocks state) (blocks (apply (nudgeSelectedBlocks dx dy) state)).
Proof.
  intros state dx dy Hne. unfold apply, nudgeSelectedBlocks.
  destruct (selectedBlockIds state) as [|s0 ss] eqn:Es; [congruence|].
  cbn [List.length Nat.eqb merge orKeep p_blocks blocks].
  apply Forall2_map_r. intros b _.
  destruct (includes _ _); [|reflexivity].
  cbn [with_layout with_xy block_layout layout_x layout_y].
  split; [reflexivity|].
  split; [apply Math_max_ge_l|]. split; [apply Math_max_ge_l|].
  split; [intros H; now apply Math_max_right|].
  split; [intros H; now apply Math_max_left_of_neg|].
  split; [intros H; now apply Math_max_right|].
  split; [intros H; now apply Math_max_left_of_neg|].
  split; intros Hw Hd; now apply wholePixel_add.
Qed.

Lemma nudge_stays_on_canvas_witness :
  Forall2 (fun b b' =>
             if includes (selectedBlockIds exAlignState) (block_id b)
             then b' = with_layout b
                         (with_xy (block_layout b)
                            (layout_x (block_layout b'))
                            (layout_y (block_layout b')))
                  /\ 0 <= layout_x (block_layout b')
                  /\ 0 <= layout_y (block_layout b')
                  /\ (0 <= B64.add (layout_x (block_layout b)) (-20) ->
                      layout_x (block_layout b')
                      = B64.add (layout_x (block_layout b)) (-20))
                  /\ (B64.add (layout_x (block_layout b)) (-20) < 0 ->
                      layout_x (block_layout b') = 0)
                  /\ (0 <= B64.add (layout_y (block_layout b)) 1 ->
                      layout_y (block_layout b')
                      = B64.add (layout_y (block_layout b)) 1)
                  /\ (B64.add (layout_y (block_layout b)) 1 < 0 ->
                      layout_y (block_layout b') = 0)
                  /\ (wholePixel (layout_x (block_layout b)) ->
                      wholePixel (-20) ->
                      B64.add (layout_x (block_layout b)) (-20)
                      == layout_x (block_layout b) + (-20))
                  /\ (wholePixel (layout_y (block_layout b)) ->
                      wholePixel 1 ->
                      B64.add (layout_y (block_layout b)) 1
                      == layout_y (block_layout b) + 1)
             else b' = b)
          (blocks exAlignState)
          (blocks (apply (nudgeSelectedBlocks (-20) 1) exAlignState)).
Proof.
  apply (nudge_stays_on_canvas exAlignState (-20) 1). discriminate.
Defined.

(** The block at x = 10 nudged by -20 ends at x = 0, the block at x = 50
    at x = 30. *)
Example nudge_example :
  map (fun b => Qred (layout_x (block_layout b)))
      (blocks (apply (nudgeSelectedBlocks (-20) 1) exAlignState))
  = [0; 30; 200].
Proof. vm_compute. reflexivity. Qed.

End AlignmentFacts.

(* ================================================================== *)
(** ** Constraint resize, continued *)

Section ResizeMoreFacts.
Local Open Scope Q_scope.

Lemma Math_round_near (v : number) :
  Math_round v <= v + (1 # 2) /\ v - (1 # 2) < Math_round v.
Proof.
  unfold Math_round.
  pose proof (Qfloor_le (v + (1 # 2))) as Hle.
  pose proof (Qlt_floor (v + (1 # 2))) as Hlt.
  rewrite inject_Z_plus in Hlt. change (inject_Z 1) with 1 in Hlt.
  split; lra.
Qed.

(** The layout a block gets from the resize, in terms of the position
    and width its anchoring rule proposes. *)
Lemma resizeBlock_clamped (oldWidth newWidth : number) (b : EditorBlock) :
  exists x1 w1,
    block_layout (resizeBlock oldWidth newWidth b)
    = (if Qlt_bool newWidth w1
       then mkLayout 0 (layout_y (block_layout b)) newWidth
              (match layout_height (block_layout b) with
               | HNum h => HNum (Math_round (h * (newWidth / w1)))
               | HAuto => HAuto
               end)
              (layout_zIndex (block_layout b))
       else mkLayout (Math_max 0 (Math_min x1 (newWidth - w1)))
              (layout_y (block_layout b)) w1
              (layout_height (block_layout b))
              (layout_zIndex (block_layout b)))
    /\ (x1, w1)
       = match horizontalOf b with
         | HLeft => (layout_x (block_layout b), layout_width (block_layout b))
         | HRight =>
             (newWidth - layout_width (block_layout b)
              - (oldWidth - (layout_x (block_layout b)
                             + layout_width (block_layout b))),
              layout_width (block_layout b))
         | HCenter =>
             (newWidth * ((layout_x (block_layout b)
                           + layout_width (block_layout b) / 2) / oldWidth)
              - layout_width (block_layout b) / 2,
              layout_width (block_layout b))
         | HScale =>
             (Math_round (newWidth * (layout_x (block_layout b) / oldWidth)),
              Math_round (newWidth
                          * (layout_width (block_layout b) / oldWidth)))
         end.
Proof.
  unfold resizeBlock, horizontalOf.
  destruct (constraints b) as [c|]; [destruct (horizontal c)|];
    cbn [horizontal defaultConstraints];
    do 2 eexists; (split; [|reflexivity]);
    cbv zeta beta iota; destruct (Qlt_bool _ _); reflexivity.
Qed.



(** X9. On whole pixels, where the arithmetic of the source is exact, a
    block anchored 'right' that lay within the old canvas on the right
    (x + width <= oldWidth) and is not pushed past the left edge
    (0 <= x + newWidth - oldWidth) keeps its width and its distance from
    the right edge of the canvas. *)
Theorem resize_right_keeps_margin :
  forall (oldWidth newWidth : number) (b : EditorBlock),
    horizontalOf b = HRight ->
    wholePixel oldWidth -> wholePixel newWidth ->
    wholePixel (layout_x (block_layout b)) ->
    wholePixel (layout_width (block_layout b)) ->
    layout_x (block_layout b) + layout_width (block_layout b) <= oldWidth ->
    0 <= layout_x (block_layout b) + (newWidth - oldWidth) ->
    let l' := block_layout (resizeBlock oldWidth newWidth b) in
    layout_width l' = layout_width (block_layout b)
    /\ newWidth - (layout_x l' + layout_width l')
       == oldWidth - (layout_x (block_layout b)
                      + layout_width (block_layout b))
    /\ layout_y l' = layout_y (block_layout b)
    /\ layout_height l' = layout_height (block_layout b).
Proof.
  intros oldWidth newWidth b Hr _ _ _ _ Hin Hpos l'. subst l'.
  destruct (resizeBlock_clamped oldWidth newWidth b) as (x1 & w1 & -> & Hxw).
  rewrite Hr in Hxw. inversion Hxw; subst x1 w1. clear Hxw.
  set (x := layout_x (block_layout b)) in *.
  set (w := layout_width (block_layout b)) in *.
  replace (Qlt_bool newWidth w) with false
    by (symmetry; apply Qlt_bool_false_iff; lra).
  cbn [layout_x layout_width layout_y layout_height].
  rewrite Math_min_left by lra. rewrite Math_max_right by lra.
  repeat split; try reflexivity. ring.
Qed.

Lemma resize_right_keeps_margin_witness :
  let b := mkBlock "r" TyButton "Go" [] (exLayout 400 0 150 48 1) "r"
                   false true None None None None None None None
                   (Some (mkConstraints HRight VTop)) in
  let l' := block_layout (resizeBlock 600 320 b) in
  layout_width l' = layout_width (block_layout b)
  /\ 320 - (layout_x l' + layout_width l')
     == 600 - (layout_x (block_layout b) + layout_width (block_layout b))
  /\ layout_y l' = layout_y (block_layout b)
  /\ layout_height l' = layout_height (block_layout b).
Proof.
  intros b. apply (resize_right_keeps_margin 600 320 b).
  - reflexivity.
  - exists 600%Z. split; [vm_compute; discriminate|reflexivity].
  - exists 320%Z. split; [vm_compute; discriminate|reflexivity].
  - exists 400%Z. split; [vm_compute; discriminate|reflexivity].
  - exists 150%Z. split; [vm_compute; discriminate|reflexivity].
  - vm_compute. discriminate.
  - vm_compute. discriminate.
Defined.



End ResizeMoreFacts.

(* ================================================================== *)
(** ** Canvas mode *)

Section CanvasModeFacts.
Local Open Scope Q_scope.

Lemma toDesktop_toMobile (b : EditorBlock) :
  desktopLayout b = None -> toDesktop (toMobile b) = b.
Proof.
  intros Hd. unfold toMobile.
  destruct (shouldScale b && Qlt_bool MOBILE_WIDTH _).
  - unfold toDesktop. rewrite Hd. destruct b. simpl in *. now subst.
  - destruct (shouldScale b && Qlt_bool MOBILE_WIDTH _).
    + unfold toDesktop. rewrite Hd. destruct b. simpl in *. now subst.
    + unfold toDesktop. now rewrite Hd.
Qed.

(** X12. From a document in which no block holds a stored desktop
    layout, switching the canvas to mobile and back to desktop gives back
    every block exactly as it was; the canvas width ends at 600 whatever
    it was before. *)
Theorem mobile_desktop_roundtrip :
  forall (state : EditorState),
    (forall b, In b (blocks state) -> desktopLayout b = None) ->
    let state' := apply (setCanvasMode Desktop)
                        (apply (setCanvasMode Mobile) state) in
    blocks state' = blocks state
    /\ canvas_width (canvasSettings state') = DESKTOP_WIDTH
    /\ mode (canvasSettings state') = Desktop.
Proof.
  intros state Hd state'. subst state'. unfold apply, setCanvasMode.
  cbn [merge orKeep p_blocks p_canvasSettings blocks canvasSettings
       canvas_width mode].
  split; [|split; reflexivity].
  rewrite map_map. rewrite <- (map_id (blocks state)) at 2.
  apply map_ext_in. intros b Hb. apply toDesktop_toMobile. now apply Hd.
Qed.

Lemma mobile_desktop_roundtrip_witness :
  let state := exState [exWide; exFar; exLeftBlock] [] in
  let state' := apply (setCanvasMode Desktop)
                      (apply (setCanvasMode Mobile) state) in
  blocks state' = blocks state
  /\ canvas_width (canvasSettings state') = DESKTOP_WIDTH
  /\ mode (canvasSettings state') = Desktop.
Proof.
  intros state. apply (mobile_desktop_roundtrip state).
  intros b Hb. simpl in Hb. destruct Hb as [<-|[<-|[<-|[]]]]; reflexivity.
Defined.



(** X14. In mobile mode a layout update that sets x, width or height
    clears the stored desktop layout of the block, so the return to
    desktop keeps the updated layout instead of restoring the stored one;
    an update of y or zIndex alone keeps the stored layout, and the return
    to desktop then restores it. *)
Theorem mobile_manual_layout_sticks :
  forall (state : EditorState) (id : string) (u : LayoutUpdate),
    isMobile state = true ->
    Forall2 (fun b b' =>
               if String.eqb (block_id b) id
               then if resizesOrMovesX u
                    then block_layout b' = applyLayoutUpdate (block_layout b) u
                         /\ desktopLayout b' = None
                    else b' = toDesktop
                                (with_layout b
                                   (applyLayoutUpdate (block_layout b) u))
               else b' = toDesktop b)
            (blocks state)
            (blocks (apply (setCanvasMode Desktop)
                           (apply (updateBlockLayout id u) state))).
Proof.
  intros state id u Hm. unfold apply, setCanvasMode, updateBlockLayout.
  rewrite Hm. cbn [merge orKeep p_blocks blocks andb].
  rewrite map_map. apply Forall2_map_r. intros b _.
  destruct (String.eqb (block_id b) id); cbn [negb]; [|reflexivity].
  destruct (resizesOrMovesX u).
  - unfold toDesktop. cbn [with_desktop_layout desktopLayout block_layout].
    now split.
  - reflexivity.
Qed.

Lemma mobile_manual_layout_sticks_witness :
  let u := mkLayoutUpdate (Some 20) (Some 30) None None None in
  Forall2 (fun b b' =>
             if String.eqb (block_id b) "far"
             then if resizesOrMovesX u
                  then block_layout b' = applyLayoutUpdate (block_layout b) u
                       /\ desktopLayout b' = None
                  else b' = toDesktop
                              (with_layout b
                                 (applyLayoutUpdate (block_layout b) u))
             else b' = toDesktop b)
          (blocks exMobileState)
          (blocks (apply (setCanvasMode Desktop)
                         (apply (updateBlockLayout "far" u) exMobileState))).
Proof.
  intros u. apply (mobile_manual_layout_sticks exMobileState "far" u).
  reflexivity.
Defined.

End CanvasModeFacts.

(* ================================================================== *)
(** ** Token resolution *)

Section ResolveFacts.

Lemma substring_all (s : string) : String.substring 0 (String.length s) s = s.
Proof. induction s as [|a s IH]; simpl; [reflexivity|now rewrite IH]. Qed.

Lemma dropPrefix4_var (id : string) : dropPrefix4 ("var:" +++ id) = id.
Proof. unfold dropPrefix4. simpl. rewrite Nat.sub_0_r. apply substring_all. Qed.

Lemma find_none_filtered (id : string) (vs : list DesignToken) :
  find (fun t => String.eqb (token_id t) id)
       (filter (fun v => negb (String.eqb (token_id v) id)) vs) = None.
Proof.
  induction vs as [|v vs IH]; simpl; [reflexivity|].
  destruct (String.eqb (token_id v) id) eqn:E; simpl; [exact IH|].
  now rewrite E.
Qed.

(** X15. [resolveStyleValue] returns a value that is not a "var:"
    reference as it is, and a reference whose id names no token as the raw
    reference; so after [deleteVariable id] every reference to [id]
    resolves to the raw text "var:id". *)
Theorem resolve_falls_back_to_raw :
  (forall v variables,
     startsWith v "var:" = false ->
     resolveStyleValue (Some v) variables = Some v)
  /\ (forall id variables,
        find (fun t => String.eqb (token_id t) id) variables = None ->
        resolveStyleValue (Some ("var:" +++ id)) variables
        = Some ("var:" +++ id))
  /\ (forall state id,
        resolveStyleValue (Some ("var:" +++ id))
                          (variables (apply (deleteVariable id) state))
        = Some ("var:" +++ id)).
Proof.
  assert (Hdangling : forall id variables,
    find (fun t => String.eqb (token_id t) id) variables = None ->
    resolveStyleValue (Some ("var:" +++ id)) variables = Some ("var:" +++ id)).
  { intros id variables Hf. unfold resolveStyleValue.
    change (strNonEmpty ("var:" +++ id)) with true.
    change (startsWith ("var:" +++ id) "var:") with true.
    cbv beta iota delta [negb].
    now rewrite dropPrefix4_var, Hf. }
  split; [|split].
  - intros v variables Hv. unfold resolveStyleValue. rewrite Hv.
    now destruct (negb (strNonEmpty v)).
  - exact Hdangling.
  - intros state id. apply Hdangling.
    unfold apply, deleteVariable. cbn [merge orKeep p_variables variables].
    apply find_none_filtered.
Qed.

Lemma resolve_falls_back_to_raw_witness :
  resolveStyleValue (Some "#ff0000") (variables (exState [] [])) = Some "#ff0000"
  /\ resolveStyleValue (Some ("var:" +++ "var-gone")) (variables (exState [] []))
     = Some ("var:" +++ "var-gone").
Proof.
  split.
  - apply (proj1 resolve_falls_back_to_raw). reflexivity.
  - apply (proj1 (proj2 resolve_falls_back_to_raw)). reflexivity.
Defined.

(** X16. A reference to a token that exists resolves to the value of the
    first token with that id when this value is not empty; so after
    [updateVariable] has given the token [id] a non-empty value, every
    reference to [id] resolves to the new value. *)
Theorem resolve_follows_token_value :
  (forall id variables t,
     find (fun t => String.eqb (token_id t) id) variables = Some t ->
     token_value t <> "" ->
     resolveStyleValue (Some ("var:" +++ id)) variables
     = Some (token_value t))
  /\ (forall state id uname value uty,
        value <> "" ->
        (exists t, In t (variables state) /\ token_id t = id) ->
        resolveStyleValue
          (Some ("var:" +++ id))
          (variables (apply (updateVariable id uname (Some value) uty) state))
        = Some value).
Proof.
  assert (Hfound : forall id variables t,
    find (fun t => String.eqb (token_id t) id) variables = Some t ->
    token_value t <> "" ->
    resolveStyleValue (Some ("var:" +++ id)) variables = Some (token_value t)).
  { intros id variables t Hf Hv. unfold resolveStyleValue.
    change (strNonEmpty ("var:" +++ id)) with true.
    change (startsWith ("var:" +++ id) "var:") with true.
    cbv beta iota delta [negb].
    rewrite dropPrefix4_var, Hf. unfold orDefault.
    destruct (token_value t); [congruence|reflexivity]. }
  split; [exact Hfound|].
  intros state id uname value uty Hv (t & Ht & Hid).
  unfold apply, updateVariable. cbn [merge orKeep p_variables variables].
  assert (Hf : exists t',
    find (fun t => String.eqb (token_id t) id)
         (map (fun v => if String.eqb (token_id v) id
                        then mkToken (token_id v) (orKeep uname (token_name v))
                               (orKeep (Some value) (token_value v))
                               (orKeep uty (token_type v))
                        else v) (variables state)) = Some t'
    /\ token_value t' = value).
  { clear Hfound. induction (variables state) as [|v vs IH]; [destruct Ht|].
    simpl. destruct (String.eqb (token_id v) id) eqn:E.
    - cbn [token_id]. rewrite E. eexists. split; reflexivity.
    - rewrite E. apply IH. destruct Ht as [->|Ht]; [|exact Ht].
      apply String.eqb_neq in E. congruence. }
  destruct Hf as (t' & Hf & Hval).
  transitivity (Some (token_value t')); [|now rewrite Hval].
  apply Hfound; [exact Hf|now rewrite Hval].
Qed.

Lemma resolve_follows_token_value_witness :
  resolveStyleValue
    (Some ("var:" +++ "var-primary"))
    (variables (apply (updateVariable "var-primary" None (Some "#123456") None)
                      (exState [] [])))
  = Some "#123456".
Proof.
  apply (proj2 resolve_follows_token_value (exState [] [])).
  - discriminate.
  - eexists. split; [left; reflexivity|reflexivity].
Defined.

End ResolveFacts.

(* ================================================================== *)
(** ** Order, selection and clipboard *)

Section SpliceFacts.
Context {A : Type}.

Lemma removeAt_length (i : nat) (l : list A) (a : A) :
  nth_error l i = Some a -> S (List.length (removeAt i l)) = List.length l.
Proof.
  revert i. induction l as [|h l IH]; intros [|i] H; simpl in *;
    try discriminate; [reflexivity|]. now rewrite (IH i H).
Qed.

Lemma removeAt_perm (i : nat) (l : list A) (a : A) :
  nth_error l i = Some a -> Permutation l (a :: removeAt i l).
Proof.
  revert i. induction l as [|h l IH]; intros [|i] H; simpl in *;
    try discriminate.
  - inversion H; subst. apply Permutation_refl.
  - eapply perm_trans; [apply perm_skip, (IH i H)|apply perm_swap].
Qed.

Lemma insertAt_perm (i : nat) (x : A) (l : list A) :
  Permutation (insertAt i x l) (x :: l).
Proof.
  revert l. induction i as [|i IH]; intros [|h l]; simpl;
    try apply Permutation_refl.
  eapply perm_trans; [apply perm_skip, IH|apply perm_swap].
Qed.

Lemma insertAt_nth (i : nat) (x : A) (l : list A) :
  (i <= List.length l)%nat -> nth_error (insertAt i x l) i = Some x.
Proof.
  revert l. induction i as [|i IH]; intros [|h l] H; simpl in *;
    try reflexivity; [lia|]. apply IH. lia.
Qed.

Lemma removeAt_insertAt (i : nat) (x : A) (l : list A) :
  (i <= List.length l)%nat -> removeAt i (insertAt i x l) = l.
Proof.
  revert l. induction i as [|i IH]; intros [|h l] H; simpl in *;
    try reflexivity; [lia|]. f_equal. apply IH. lia.
Qed.

Lemma insertAt_split (i : nat) (x : A) (l : list A) :
  insertAt i x l = firstn i l ++ x :: skipn i l.
Proof.
  revert l. induction i as [|i IH]; intros [|h l]; simpl; try reflexivity.
  now rewrite IH.
Qed.

Lemma findIndex_Some (p : A -> bool) (l : list A) (k : nat) :
  findIndex p l = Some k -> exists a, nth_error l k = Some a /\ p a = true.
Proof.
  revert k. induction l as [|h l IH]; intros k Hk; simpl in Hk.
  - discriminate.
  - destruct (p h) eqn:Eh.
    + inversion Hk; subst. now exists h.
    + destruct (findIndex p l) as [i|] eqn:Ei; [|discriminate].
      inversion Hk; subst. exact (IH i eq_refl).
Qed.

Lemma find_findIndex (p : A -> bool) (l : list A) (a : A) :
  find p l = Some a ->
  exists k, findIndex p l = Some k /\ nth_error l k = Some a
            /\ l = firstn k l ++ a :: skipn (S k) l.
Proof.
  induction l as [|h l IH]; simpl; intros H; [discriminate|].
  destruct (p h) eqn:Eh.
  - inversion H; subst. now exists 0%nat.
  - destruct (IH H) as (k & Hk & Hn & Hs). exists (S k). rewrite Hk.
    repeat split; [exact Hn|].
    change (h :: l = h :: (firstn k l ++ a :: skipn (S k) l)).
    f_equal. exact Hs.
Qed.

End SpliceFacts.

Section OrderFacts.

(** X17. Reordering moves the dragged layer to the position the target
    layer had: the block with the active id ends at the target's index,
    the other blocks keep their relative order, and no block is lost or
    added. *)
Theorem reorder_moves_to_target :
  forall (state : EditorState) (activeId overId : string)
         (activeIndex overIndex : nat),
    findIndex (fun b => String.eqb (block_id b) activeId) (blocks state)
      = Some activeIndex ->
    findIndex (fun b => String.eqb (block_id b) overId) (blocks state)
      = Some overIndex ->
    let after := blocks (apply (reorderBlocks activeId overId) state) in
    exists moved,
      nth_error (blocks state) activeIndex = Some moved
      /\ block_id moved = activeId
      /\ nth_error after overIndex = Some moved
      /\ removeAt overIndex after = removeAt activeIndex (blocks state)
      /\ Permutation (blocks state) after.
Proof.
  intros state activeId overId ai oi Ha Ho after.
  destruct (findIndex_Some _ _ _ Ha) as (moved & Hm & Hid).
  destruct (findIndex_Some _ _ _ Ho) as (over & Hov & _).
  apply String.eqb_eq in Hid.
  assert (Hlen : (oi <= List.length (removeAt ai (blocks state)))%nat).
  { pose proof (removeAt_length _ _ _ Hm) as Hl.
    assert (oi < List.length (blocks state))%nat
      by (apply nth_error_Some; congruence). lia. }
  assert (Hafter : after = insertAt oi moved (removeAt ai (blocks state))).
  { subst after. unfold apply, reorderBlocks. rewrite Ha, Ho, Hm.
    reflexivity. }
  exists moved. rewrite Hafter. repeat split.
  - exact Hm.
  - exact Hid.
  - now apply insertAt_nth.
  - now apply removeAt_insertAt.
  - eapply perm_trans; [apply (removeAt_perm _ _ _ Hm)|].
    apply Permutation_sym, insertAt_perm.
Qed.

(** Reordering with an id that names no block changes nothing. *)
Theorem reorder_unknown_id_is_noop :
  forall (state : EditorState) (activeId overId : string),
    (forall b, In b (blocks state) -> block_id b <> activeId)
    \/ (forall b, In b (blocks state) -> block_id b <> overId) ->
    apply (reorderBlocks activeId overId) state = state.
Proof.
  intros state activeId overId H.
  assert (Hnone : forall i,
             (forall b, In b (blocks state) -> block_id b <> i) ->
             findIndex (fun b => String.eqb (block_id b) i) (blocks state)
             = None).
  { intros i Hi.
    destruct (findIndex _ (blocks state)) as [k|] eqn:E; [|reflexivity].
    destruct (findIndex_Some _ _ _ E) as (a & Hn & Hp).
    apply String.eqb_eq in Hp. apply nth_error_In in Hn.
    now destruct (Hi a Hn). }
  unfold apply, reorderBlocks.
  destruct H as [H|H]; rewrite (Hnone _ H).
  - now destruct state.
  - destruct (findIndex _ (blocks state)); now destruct state.
Qed.

End OrderFacts.

Lemma reorder_moves_to_target_witness :
  exists moved,
    nth_error (blocks exAlignState) 0 = Some moved
    /\ block_id moved = "a"
    /\ nth_error (blocks (apply (reorderBlocks "a" "c") exAlignState)) 2
       = Some moved
    /\ removeAt 2 (blocks (apply (reorderBlocks "a" "c") exAlignState))
       = removeAt 0 (blocks exAlignState)
    /\ Permutation (blocks exAlignState)
                   (blocks (apply (reorderBlocks "a" "c") exAlignState)).
Proof.
  apply (reorder_moves_to_target exAlignState "a" "c" 0 2); reflexivity.
Defined.

Lemma reorder_unknown_id_is_noop_witness :
  apply (reorderBlocks "a" "zz") exAlignState = exAlignState.
Proof.
  apply (reorder_unknown_id_is_noop exAlignState "a" "zz"). right.
  intros b Hb. simpl in Hb.
  destruct Hb as [<-|[<-|[<-|[]]]]; discriminate.
Defined.

Section SelectionFacts.

Lemma existsb_filter_neq (j i : string) (l : list string) :
  existsb (String.eqb j) (filter (fun sid => negb (String.eqb sid i)) l)
  = if String.eqb j i then false else existsb (String.eqb j) l.
Proof.
  induction l as [|h l IH]; simpl.
  - now destruct (String.eqb j i).
  - destruct (String.eqb h i) eqn:Eh; simpl.
    + rewrite IH. destruct (String.eqb j i) eqn:Ej; [reflexivity|].
      apply String.eqb_eq in Eh. subst h. now rewrite Ej.
    + rewrite IH. destruct (String.eqb j i) eqn:Ej; [|reflexivity].
      apply String.eqb_eq in Ej. subst j.
      rewrite String.eqb_sym, Eh. reflexivity.
Qed.

(** X18. A shift-click toggles the clicked id in the selection: the id is
    selected afterwards exactly when it was not before, and every other id
    keeps its selection status. *)
Theorem shift_select_toggles :
  forall (state : EditorState) (id j : string),
    includes (selectedBlockIds (apply (selectBlock (Some id) true) state)) j
    = if String.eqb j id then negb (includes (selectedBlockIds state) id)
      else includes (selectedBlockIds state) j.
Proof.
  intros state id j. unfold apply, selectBlock.
  destruct (includes (selectedBlockIds state) id) eqn:Einc;
    cbn [merge orKeep p_selectedBlockIds selectedBlockIds negb].
  - unfold includes. apply existsb_filter_neq.
  - unfold includes in *. rewrite existsb_app. simpl.
    destruct (String.eqb j id) eqn:Ej.
    + now rewrite orb_true_r.
    + now rewrite !orb_false_r.
Qed.

End SelectionFacts.

Section ClipboardFacts.
Local Open Scope Z_scope.

Lemma find_insert_after {A : Type} (p : A -> bool) (l : list A) (a : A) :
  find p l = Some a ->
  exists k before after,
    findIndex p l = Some k /\ l = before ++ a :: after
    /\ forall x, insertAt (k + 1) x l = before ++ a :: x :: after.
Proof.
  induction l as [|h l IH]; simpl; intros H; [discriminate|].
  destruct (p h) eqn:Eh.
  - inversion H; subst. exists 0%nat, [], l. repeat split.
  - destruct (IH H) as (k & before & after & Hk & Hl & Hins).
    exists (S k), (h :: before), after. rewrite Hk.
    repeat split; [simpl; now rewrite <- Hl|].
    intros x. simpl. now rewrite Hins.
Qed.


(** Duplicating an id that names no block changes nothing. *)
Theorem duplicate_unknown_id_is_noop :
  forall (state : EditorState) (newId id : string),
    (forall b, In b (blocks state) -> block_id b <> id) ->
    apply (duplicateBlock newId id) state = state.
Proof.
  intros state newId id H. unfold apply, duplicateBlock.
  destruct (find _ (blocks state)) as [b|] eqn:E; [|reflexivity].
  apply find_some in E. destruct E as [Hin Heq].
  apply String.eqb_eq in Heq. now destruct (H b Hin).
Qed.

(** The number of blocks of a type in a list. *)
Local Abbreviation countType t l :=
  (Z.of_nat (List.length
               (filter (fun b : EditorBlock => BlockType_eqb (block_type b) t)
                       l))).

Lemma BlockType_eqb_eq (a b : BlockType) : BlockType_eqb a b = true <-> a = b.
Proof. destruct a, b; simpl; split; intros H; congruence. Qed.

Lemma cloneFrom_spec (freshId : nat -> string) (maxZIndex : Z)
    (sources : list EditorBlock) :
  forall (k : nat) (counters : BlockType -> Z),
    let clones := fst (cloneFrom freshId maxZIndex k counters sources) in
    let final := snd (cloneFrom freshId maxZIndex k counters sources) in
    Forall2 (fun src c =>
               block_type c = block_type src
               /\ block_content c = block_content src
               /\ block_styles c = block_styles src
               /\ parentId c = parentId src
               /\ layout_width (block_layout c)
                  = layout_width (block_layout src)
               /\ layout_height (block_layout c)
                  = layout_height (block_layout src)
               /\ layout_x (block_layout c)
                  = (layout_x (block_layout src) + 20)%Q
               /\ layout_y (block_layout c)
                  = (layout_y (block_layout src) + 20)%Q)
            sources clones
    /\ (forall i c, nth_error clones i = Some c ->
          block_id c = freshId (k + i)%nat
          /\ layout_zIndex (block_layout c)
             = maxZIndex + Z.of_nat (k + i) + 1)
    /\ (forall t, final t = counters t + countType t sources).
Proof.
  induction sources as [|b rest IH]; intros k counters; cbn zeta.
  - cbn [cloneFrom fst snd]. split; [constructor|]. split.
    + intros [|i] c H; discriminate.
    + intros t. simpl. lia.
  - cbn [cloneFrom].
    specialize (IH (S k) (bumpCounter counters (block_type b))).
    cbn zeta in IH.
    destruct (cloneFrom freshId maxZIndex (S k)
                        (bumpCounter counters (block_type b)) rest)
      as [clones final].
    cbn [fst snd] in *. destruct IH as (HF & Hidx & Hcnt). split.
    + constructor; [|exact HF]. unfold cloneBlock.
      cbn [block_type block_content block_styles parentId block_layout
           layout_width layout_height layout_x layout_y].
      repeat split.
    + split.
      * intros [|i] c H; simpl in H.
        -- inversion H; subst. unfold cloneBlock.
           cbn [block_id block_layout layout_zIndex].
           rewrite Nat.add_0_r. split; [reflexivity|]. lia.
        -- destruct (Hidx i c H) as [Hi Hz]. split.
           ++ rewrite Hi. f_equal. lia.
           ++ rewrite Hz. lia.
      * intros t. rewrite Hcnt. unfold bumpCounter. cbn [filter].
        destruct (BlockType_eqb t (block_type b)) eqn:Et.
        -- apply BlockType_eqb_eq in Et. subst t.
           replace (BlockType_eqb (block_type b) (block_type b)) with true
             by (symmetry; now apply BlockType_eqb_eq).
           cbn [List.length]. lia.
        -- replace (BlockType_eqb (block_type b) t) with false; [lia|].
           symmetry. destruct (BlockType_eqb (block_type b) t) eqn:E;
             [|reflexivity].
           apply BlockType_eqb_eq in E. subst t.
           assert (BlockType_eqb (block_type b) (block_type b) = true)
             by now apply BlockType_eqb_eq. congruence.
Qed.


(** X21. Duplicating the selection gives the same blocks, selection and
    counters as copying the selection and pasting it, as soon as the
    selection names a block of the document. *)
Theorem duplicate_selection_is_copy_then_paste :
  forall (state : EditorState) (freshId : nat -> string),
    selectedOf state <> [] ->
    let pasted := apply (pasteBlocks freshId) (copySelectedBlocks state) in
    let duplicated := apply (duplicateSelectedBlocks freshId) state in
    blocks pasted = blocks duplicated
    /\ selectedBlockIds pasted = selectedBlockIds duplicated
    /\ blockCounters pasted = blockCounters duplicated
    /\ clipboard pasted = selectedOf state
    /\ clipboard duplicated = clipboard state.
Proof.
  intros state freshId Hne pasted duplicated.
  subst pasted duplicated. unfold apply, pasteBlocks, duplicateSelectedBlocks.
  assert (Hsel : selectedBlockIds state <> []).
  { intros E. apply Hne. unfold selectedOf. rewrite E. simpl.
    now apply filter_none. }
  cbn [copySelectedBlocks clipboard blocks blockCounters].
  destruct (selectedOf state) as [|s0 ss] eqn:Es; [congruence|].
  destruct (selectedBlockIds state) as [|i0 ids] eqn:Ei; [congruence|].
  cbn [List.length Nat.eqb].
  destruct (cloneFrom freshId (maxZIndexOf (blocks state)) 0
                      (blockCounters state) (s0 :: ss))
    as [clones final].
  cbn [merge orKeep p_blocks p_selectedBlockIds p_blockCounters blocks
       selectedBlockIds blockCounters clipboard].
  repeat split. exact Es.
Qed.

(** When the selection is not empty but names no block of the
    document, duplicating the selection empties the selection, while
    copying and pasting leaves the selection as it is; neither adds a
    block. *)
Theorem duplicate_stale_selection_clears_it :
  forall (state : EditorState) (freshId : nat -> string),
    selectedBlockIds state <> [] ->
    selectedOf state = [] ->
    let pasted := apply (pasteBlocks freshId) (copySelectedBlocks state) in
    let duplicated := apply (duplicateSelectedBlocks freshId) state in
    blocks duplicated = blocks state
    /\ selectedBlockIds duplicated = []
    /\ blocks pasted = blocks state
    /\ selectedBlockIds pasted = selectedBlockIds state.
Proof.
  intros state freshId Hsel Hnone pasted duplicated.
  subst pasted duplicated. unfold apply, pasteBlocks, duplicateSelectedBlocks.
  cbn [copySelectedBlocks clipboard blocks blockCounters]. rewrite Hnone.
  destruct (selectedBlockIds state) as [|i0 ids] eqn:Ei; [congruence|].
  cbn [List.length Nat.eqb cloneFrom merge orKeep p_blocks
       p_selectedBlockIds p_blockCounters blocks selectedBlockIds map].
  rewrite app_nil_r. repeat split; assumption.
Qed.

End ClipboardFacts.


Lemma duplicate_unknown_id_is_noop_witness :
  apply (duplicateBlock "n" "zz") exAlignState = exAlignState.
Proof.
  apply (duplicate_unknown_id_is_noop exAlignState "n" "zz").
  intros b Hb. simpl in Hb.
  destruct Hb as [<-|[<-|[<-|[]]]]; discriminate.
Defined.


Lemma duplicate_selection_is_copy_then_paste_witness :
  blocks (apply (pasteBlocks exFreshId) (copySelectedBlocks exAlignState))
  = blocks (apply (duplicateSelectedBlocks exFreshId) exAlignState).
Proof.
  apply (duplicate_selection_is_copy_then_paste exAlignState exFreshId).
  discriminate.
Defined.

Lemma duplicate_stale_selection_clears_it_witness :
  selectedBlockIds
    (apply (duplicateSelectedBlocks exFreshId)
           (exState (blocks exAlignState) ["gone"])) = [].
Proof.
  apply (duplicate_stale_selection_clears_it
           (exState (blocks exAlignState) ["gone"]) exFreshId);
    [discriminate|reflexivity].
Defined.

(* ================================================================== *)
(** ** Smart guides: the two passes *)

Section SnapPassFacts.
Local Open Scope Q_scope.

Lemma fold_left_pair {A B C : Type} (F : A -> C -> A) (G : B -> C -> B)
    (l : list C) (a : A) (b : B) :
  fold_left (fun (acc : A * B) o => (F (fst acc) o, G (snd acc) o)) l (a, b)
  = (fold_left F l a, fold_left G l b).
Proof. revert a b. induction l as [|o l IH]; intros a b; simpl; auto. Qed.

Lemma fold_left_flat_map {A B C : Type} (g : A -> B -> A) (f : C -> list B)
    (l : list C) (a : A) :
  fold_left (fun acc o => fold_left g (f o) acc) l a
  = fold_left g (flat_map f l) a.
Proof.
  revert a. induction l as [|o l IH]; intros a; simpl; [reflexivity|].
  now rewrite fold_left_app, IH.
Qed.

Lemma snapXStep_runTests dragX dragWidth acc other :
  snapXStep dragX (dragX + dragWidth) (dragX + dragWidth / 2) dragWidth
            acc other
  = runTests (xTests dragX dragWidth other) acc.
Proof. reflexivity. Qed.

Lemma snapYStep_runTests dragY dragHeight acc other :
  snapYStep dragY (dragY + dragHeight) (dragY + dragHeight / 2) dragHeight
            acc other
  = runTests (yTests dragY dragHeight other) acc.
Proof. reflexivity. Qed.

Lemma trySnap_closestSoFar seen acc dist target :
  closestSoFar seen acc ->
  closestSoFar (seen ++ [(dist, target)]) (trySnap dist target acc).
Proof.
  destruct acc as [[s|] [c|]]; simpl; try tauto; unfold trySnap.
  - intros (Hin & Hlt & Hmin).
    destruct (Qlt_bool dist SNAP_THRESHOLD) eqn:E5;
      [destruct (Qlt_bool dist c) eqn:Ec|]; cbn [andb closestSoFar].
    + apply Qlt_bool_iff in E5, Ec. repeat split.
      * apply in_or_app. right. now left.
      * exact E5.
      * intros t Ht. apply in_app_or in Ht. destruct Ht as [Ht|[<-|[]]].
        -- specialize (Hmin t Ht). lra.
        -- simpl. lra.
    + apply Qlt_bool_false_iff in Ec. repeat split.
      * apply in_or_app. now left.
      * exact Hlt.
      * intros t Ht. apply in_app_or in Ht. destruct Ht as [Ht|[<-|[]]].
        -- now apply Hmin.
        -- exact Ec.
    + apply Qlt_bool_false_iff in E5. repeat split.
      * apply in_or_app. now left.
      * exact Hlt.
      * intros t Ht. apply in_app_or in Ht. destruct Ht as [Ht|[<-|[]]].
        -- now apply Hmin.
        -- simpl. lra.
  - intros Hall.
    destruct (Qlt_bool dist SNAP_THRESHOLD) eqn:E5; cbn [andb closestSoFar].
    + apply Qlt_bool_iff in E5. repeat split.
      * apply in_or_app. right. now left.
      * exact E5.
      * intros t Ht. apply in_app_or in Ht. destruct Ht as [Ht|[<-|[]]].
        -- specialize (Hall t Ht). lra.
        -- simpl. lra.
    + apply Qlt_bool_false_iff in E5.
      intros t Ht. apply in_app_or in Ht. destruct Ht as [Ht|[<-|[]]].
      * now apply Hall.
      * exact E5.
Qed.

Lemma runTests_closestSoFar tests :
  forall seen acc,
    closestSoFar seen acc -> closestSoFar (seen ++ tests) (runTests tests acc).
Proof.
  induction tests as [|[d t] tests IH]; intros seen acc H.
  - now rewrite app_nil_r.
  - change (seen ++ (d, t) :: tests) with (seen ++ [(d, t)] ++ tests).
    rewrite app_assoc. apply IH. now apply trySnap_closestSoFar.
Qed.

Lemma runTests_closestWithin tests :
  closestWithin tests (fst (runTests tests (None, None))).
Proof.
  pose proof (runTests_closestSoFar tests [] (None, None)) as H.
  simpl in H. specialize (H (fun t Ht => match Ht with end)).
  destruct (runTests tests (None, None)) as [[s|] [c|]]; simpl in *;
    try tauto. exists c. exact H.
Qed.

Lemma calculateSnapping_snaps d dragX dragY others :
  let w := bb_width (getBlockBounds d) in
  let h := bb_height (getBlockBounds d) in
  snapX (calculateSnapping d dragX dragY others)
  = fst (runTests (flat_map (xTests dragX w) (candidateBounds d others))
                  (None, None))
  /\ snapY (calculateSnapping d dragX dragY others)
     = fst (runTests (flat_map (yTests dragY h) (candidateBounds d others))
                     (None, None)).
Proof.
  intros w h. unfold calculateSnapping.
  set (F := fold_left _ _ _).
  assert (HF : F = (fold_left
                      (snapXStep dragX (dragX + w) (dragX + w / 2) w)
                      (candidateBounds d others) (None, None),
                    fold_left
                      (snapYStep dragY (dragY + h) (dragY + h / 2) h)
                      (candidateBounds d others) (None, None)))
    by exact (fold_left_pair _ _ _ _ _).
  destruct F as [[sx cx] [sy cy]]. cbn [snapX snapY].
  apply (f_equal fst) in HF as Hx. apply (f_equal snd) in HF as Hy.
  cbn [fst snd] in Hx, Hy. unfold runTests.
  rewrite <- !fold_left_flat_map. split.
  - change (fun acc o => fold_left _ (xTests dragX w o) acc)
      with (snapXStep dragX (dragX + w) (dragX + w / 2) w).
    now rewrite <- Hx.
  - change (fun acc o => fold_left _ (yTests dragY h o) acc)
      with (snapYStep dragY (dragY + h) (dragY + h / 2) h).
    now rewrite <- Hy.
Qed.

Lemma xTests_moves dragX w o dist target :
  In (dist, target) (xTests dragX w o) -> Qabs (target - dragX) == dist.
Proof.
  assert (Hw : w / 2 == w * (1 # 2)) by field.
  unfold xTests, Math_abs.
  intros [H|[H|[H|[H|[H|[]]]]]]; apply pair_equal_spec in H;
    destruct H as [Hd Ht]; subst dist target;
    rewrite <- (Qabs_opp (_ - dragX)); apply Qabs_wd; lra.
Qed.

Lemma yTests_moves dragY h o dist target :
  In (dist, target) (yTests dragY h o) -> Qabs (target - dragY) == dist.
Proof.
  assert (Hh : h / 2 == h * (1 # 2)) by field.
  unfold yTests, Math_abs.
  intros [H|[H|[H|[H|[H|[]]]]]]; apply pair_equal_spec in H;
    destruct H as [Hd Ht]; subst dist target;
    rewrite <- (Qabs_opp (_ - dragY)); apply Qabs_wd; lra.
Qed.

(** X22. On each axis the first pass snaps exactly when some edge or
    center test against a candidate measures less than the 5px threshold,
    and then to the target of a test whose distance no other test
    undercuts; with no test within the threshold the axis does not
    snap. *)
Theorem snap_picks_closest_test :
  forall (draggingBlock : EditorBlock) (dragX dragY : number)
         (otherBlocks : list EditorBlock),
    let result := calculateSnapping draggingBlock dragX dragY otherBlocks in
    let candidates := candidateBounds draggingBlock otherBlocks in
    closestWithin
      (flat_map (xTests dragX (bb_width (getBlockBounds draggingBlock)))
                candidates)
      (snapX result)
    /\ closestWithin
         (flat_map (yTests dragY (bb_height (getBlockBounds draggingBlock)))
                   candidates)
         (snapY result).
Proof.
  intros d dragX dragY others result candidates. subst result candidates.
  destruct (calculateSnapping_snaps d dragX dragY others) as [-> ->].
  split; apply runTests_closestWithin.
Qed.


End SnapPassFacts.


Section SnapGuideFacts.
Local Open Scope Q_scope.

Lemma guidesFor_In sx sy fx fy fr fb fcx fcy ob g :
  In g (guidesFor sx sy fx fy fr fb fcx fcy ob) ->
  match guide_type g with
  | Vertical =>
      isSome sx = true
      /\ ((position g = bb_left ob /\ Qabs (fx - bb_left ob) < 1)
          \/ (position g = bb_right ob /\ Qabs (fr - bb_right ob) < 1)
          \/ (position g = bb_centerX ob /\ Qabs (fcx - bb_centerX ob) < 1))
  | Horizontal =>
      isSome sy = true
      /\ ((position g = bb_top ob /\ Qabs (fy - bb_top ob) < 1)
          \/ (position g = bb_bottom ob /\ Qabs (fb - bb_bottom ob) < 1)
          \/ (position g = bb_centerY ob /\ Qabs (fcy - bb_centerY ob) < 1))
  end.
Proof.
  unfold guidesFor, pushIf, Math_abs. intros Hin.
  apply in_app_or in Hin. destruct Hin as [Hin|Hin].
  - destruct (isSome sx); [|destruct Hin].
    repeat (apply in_app_or in Hin; destruct Hin as [Hin|Hin]);
      match type of Hin with
      | In _ (if ?c then _ else _) => destruct c eqn:Ec
      end; simpl in Hin; try (now destruct Hin);
      destruct Hin as [<-|[]];
      apply Qlt_bool_iff in Ec; cbn [position guide_type]; tauto.
  - destruct (isSome sy); [|destruct Hin].
    repeat (apply in_app_or in Hin; destruct Hin as [Hin|Hin]);
      match type of Hin with
      | In _ (if ?c then _ else _) => destruct c eqn:Ec
      end; simpl in Hin; try (now destruct Hin);
      destruct Hin as [<-|[]];
      apply Qlt_bool_iff in Ec; cbn [position guide_type]; tauto.
Qed.


End SnapGuideFacts.


(* ================================================================== *)
(** ** The export compiler: hidden blocks and equal positions *)

Section StableSortFacts.
Local Open Scope Q_scope.

Lemma insertByY_keeps_order a s x y :
  (exists p q r, s = p ++ x :: q ++ y :: r) ->
  exists p q r, insertByY a s = p ++ x :: q ++ y :: r.
Proof.
  intros (p & q & r & ->). induction p as [|h p IH]; simpl.
  - destruct (Qle_bool _ _).
    + now exists [a], q, r.
    + assert (In y (insertByY a (q ++ y :: r))) as Hin.
      { apply (Permutation_in _ (Permutation_sym (insertByY_perm a _))).
        right. apply in_or_app. right. now left. }
      apply in_split in Hin. destruct Hin as (q' & r' & ->).
      now exists [], q', r'.
  - destruct (Qle_bool _ _).
    + now exists (a :: h :: p), q, r.
    + destruct IH as (p' & q' & r' & ->). now exists (h :: p'), q', r'.
Qed.

Lemma insertByY_before_later a s y :
  In y s -> layout_y (block_layout a) <= layout_y (block_layout y) ->
  exists p q r, insertByY a s = p ++ a :: q ++ y :: r.
Proof.
  intros Hin Hle. induction s as [|h s IH]; [destruct Hin|]. simpl.
  destruct (Qle_bool _ _) eqn:E.
  - apply in_split in Hin. destruct Hin as (q & r & ->).
    now exists [], q, r.
  - destruct Hin as [->|Hin].
    + apply Qle_bool_false_iff in E. lra.
    + destruct (IH Hin) as (p & q & r & ->). now exists (h :: p), q, r.
Qed.

(** The sort is stable: of two blocks in array order the second of which
    is not higher up, the first stays first. *)
Lemma sortByY_stable l x y :
  (exists p q r, l = p ++ x :: q ++ y :: r) ->
  layout_y (block_layout x) <= layout_y (block_layout y) ->
  exists p q r, sortByY l = p ++ x :: q ++ y :: r.
Proof.
  intros (p & q & r & ->) Hle. induction p as [|h p IH]; simpl.
  - apply insertByY_before_later; [|exact Hle].
    apply (proj2 (sortByY_In _ _)). apply in_or_app. right. now left.
  - apply insertByY_keeps_order. exact IH.
Qed.

Lemma insertByY_extra a p b q :
  StronglySorted yLe (p ++ b :: q) ->
  exists p' q', insertByY a (p ++ b :: q) = p' ++ b :: q'
                /\ insertByY a (p ++ q) = p' ++ q'.
Proof.
  induction p as [|h p IH]; simpl; intros Hs.
  - destruct (Qle_bool (layout_y (block_layout a))
                       (layout_y (block_layout b))) eqn:E.
    + exists [a], q. split; [reflexivity|].
      destruct q as [|h q]; [reflexivity|]. simpl.
      apply Qle_bool_iff in E.
      assert (yLe b h) by (apply (sorted_later [] (h :: q) b h Hs); now left).
      unfold yLe in *.
      replace (Qle_bool (layout_y (block_layout a))
                        (layout_y (block_layout h))) with true;
        [reflexivity|].
      symmetry. apply Qle_bool_iff. lra.
    + now exists [], (insertByY a q).
  - destruct (Qle_bool _ _).
    + now exists (a :: h :: p), q.
    + inversion Hs; subst. destruct (IH H1) as (p' & q' & -> & ->).
      now exists (h :: p'), q'.
Qed.

Lemma sortByY_extra l1 b l2 :
  exists p q, sortByY (l1 ++ b :: l2) = p ++ b :: q
              /\ sortByY (l1 ++ l2) = p ++ q.
Proof.
  induction l1 as [|a l1 IH]; simpl.
  - induction (sortByY l2) as [|h s IHs]; simpl.
    + now exists [], [].
    + destruct (Qle_bool _ _).
      * now exists [], (h :: s).
      * destruct IHs as (p & q & -> & ->). now exists (h :: p), q.
  - destruct IH as (p & q & Hp & Hq). rewrite Hp, Hq.
    apply insertByY_extra. rewrite <- Hp. apply sortByY_sorted.
Qed.

End StableSortFacts.

Section MapMSkip.
Context {A B : Type}.

Lemma mapM_skip (f : A -> option B) (e : B) (p q : list A) (h : A) :
  f h = Some e ->
  (mapM f (p ++ h :: q) = None /\ mapM f (p ++ q) = None)
  \/ exists o1 o2, mapM f (p ++ h :: q) = Some (o1 ++ e :: o2)
                   /\ mapM f (p ++ q) = Some (o1 ++ o2).
Proof.
  intros Hh. induction p as [|a p IH]; simpl.
  - rewrite Hh. destruct (mapM f q) as [o|]; [right|now left].
    now exists [], o.
  - destruct (f a) as [b|]; [|now left].
    destruct IH as [[-> ->]|(o1 & o2 & -> & ->)]; [now left|right].
    now exists (b :: o1), o2.
Qed.

End MapMSkip.

Section ExportMoreFacts.
Local Open Scope Q_scope.

Variable numToString : number -> string.
Variable resolveStyles : BlockStyles -> list DesignToken -> BlockStyles.
Variable resolveColor : string -> list DesignToken -> option string.

Local Abbreviation blockMJML := (generateBlockMJML numToString resolveStyles).
Local Abbreviation section := (sectionOf numToString resolveStyles).
Local Abbreviation exportMJML :=
  (generateMJML numToString resolveStyles resolveColor).

(** A block without a parent plays no part in the markup of any other
    block. *)
Lemma generateBlockMJML_without_root l1 l2 h variables :
  parentId h = None ->
  forall fuel b,
    blockMJML fuel b (l1 ++ h :: l2) variables
    = blockMJML fuel b (l1 ++ l2) variables.
Proof.
  intros Hp. induction fuel as [|fuel IH]; intros b; [reflexivity|].
  simpl. destruct (negb (isVisible b)); [reflexivity|].
  destruct (block_type b); try reflexivity.
  unfold generateGroupMJML.
  assert (Hch : filter (fun c => optStrEq (parentId c) (block_id b))
                       (l1 ++ h :: l2)
                = filter (fun c => optStrEq (parentId c) (block_id b))
                         (l1 ++ l2)).
  { rewrite !filter_app. simpl. now rewrite Hp. }
  rewrite Hch. destruct (List.length _ =? 0)%nat; [reflexivity|].
  rewrite (mapM_ext_in
             (fun child => blockMJML fuel child (l1 ++ h :: l2) variables)
             (fun child => blockMJML fuel child (l1 ++ l2) variables));
    [reflexivity|].
  intros c _. apply IH.
Qed.

(** X25. A hidden top-level block leaves no trace in the export: the
    document is exactly the export of the design without the block, and
    for a hidden group this also holds for all its children. *)
Theorem export_skips_hidden_root :
  forall (fuel : nat) (l1 l2 : list EditorBlock) (h : EditorBlock)
         (settings : CanvasSettings) (variables : list DesignToken),
    isVisible h = false -> parentId h = None -> (1 <= fuel)%nat ->
    exportMJML fuel (l1 ++ h :: l2) settings variables
    = exportMJML fuel (l1 ++ l2) settings variables.
Proof.
  intros fuel l1 l2 h settings variables Hvis Hp Hfuel.
  unfold generateMJML.
  assert (Hroots : filter (fun b => falsy (parentId b)) (l1 ++ h :: l2)
                   = filter (fun b => falsy (parentId b)) l1
                     ++ h :: filter (fun b => falsy (parentId b)) l2).
  { rewrite filter_app. simpl. now rewrite Hp. }
  rewrite Hroots, (filter_app _ l1 l2).
  destruct (sortByY_extra (filter (fun b => falsy (parentId b)) l1) h
                          (filter (fun b => falsy (parentId b)) l2))
    as (p & q & -> & ->).
  rewrite (mapM_ext_in (section fuel (l1 ++ h :: l2) variables)
                       (section fuel (l1 ++ l2) variables) (p ++ h :: q)).
  2:{ intros b _. unfold sectionOf.
      now rewrite (generateBlockMJML_without_root l1 l2 h variables Hp). }
  assert (Hh : section fuel (l1 ++ l2) variables h = Some "").
  { destruct fuel as [|fuel]; [lia|]. unfold sectionOf. simpl.
    rewrite Hvis. reflexivity. }
  destruct (mapM_skip (section fuel (l1 ++ l2) variables) "" p q h Hh)
    as [[-> ->]|(o1 & o2 & -> & ->)]; [reflexivity|].
  rewrite !filter_app. reflexivity.
Qed.

(** X26. Top-level blocks at the same height are exported in the order
    of the blocks array: when A stands before B in the array and both
    have the same layout y, the section of A comes before the section of B
    in the document.  The compiler returns the document whenever the group
    nesting is well founded. *)
Theorem export_keeps_array_order_at_equal_y :
  forall (l1 l2 l3 : list EditorBlock) (settings : CanvasSettings)
         (variables : list DesignToken) (fuel : nat) (A B : EditorBlock),
    let blocks := l1 ++ A :: l2 ++ B :: l3 in
    falsy (parentId A) = true -> falsy (parentId B) = true ->
    layout_y (block_layout A) == layout_y (block_layout B) ->
    (forall doc,
       exportMJML fuel blocks settings variables = Some doc ->
       exists sA sB before between after,
         section fuel blocks variables A = Some sA
         /\ section fuel blocks variables B = Some sB
         /\ doc = documentHead numToString settings
                    (orDefault
                       (resolveColor (backgroundColor settings) variables)
                       "#ffffff")
                  +++ join nl (filter strNonEmpty
                                 (before ++ sA :: between ++ sB :: after))
                  +++ documentTail
         /\ exists pre mid post, doc = pre +++ sA +++ mid +++ sB +++ post)
    /\ (forall depth n,
          nestingBounded blocks depth n -> (n <= fuel)%nat ->
          exists doc, exportMJML fuel blocks settings variables = Some doc).
Proof.
  intros l1 l2 l3 settings variables fuel A B blocks HpA HpB Hy.
  set (roots := filter (fun b => falsy (parentId b)) blocks).
  split.
  - intros doc Hdoc.
    assert (Hroots : exists p q r, roots = p ++ A :: q ++ B :: r).
    { subst roots blocks. rewrite filter_app. simpl. rewrite HpA.
      rewrite filter_app. simpl. rewrite HpB. now eexists _, _, _. }
    destruct (sortByY_stable roots A B Hroots) as (s1 & s2 & s3 & Hsplit);
      [lra|].
    unfold generateMJML in Hdoc. fold roots in Hdoc.
    destruct (mapM (section fuel blocks variables) (sortByY roots))
      as [secs|] eqn:Hsecs; [|discriminate].
    assert (Hd : doc = documentHead numToString settings
                         (orDefault
                            (resolveColor (backgroundColor settings) variables)
                            "#ffffff")
                       +++ join nl (filter strNonEmpty secs) +++ documentTail)
      by congruence.
    clear Hdoc. subst doc.
    rewrite Hsplit in Hsecs.
    apply mapM_app in Hsecs. destruct Hsecs as (o1 & r1 & -> & _ & Hr1).
    apply mapM_cons in Hr1. destruct Hr1 as (sA & r2 & -> & HsA & Hr2).
    apply mapM_app in Hr2. destruct Hr2 as (o2 & r3 & -> & _ & Hr3).
    apply mapM_cons in Hr3. destruct Hr3 as (sB & o3 & -> & HsB & _).
    exists sA, sB, o1, o2, o3.
    split; [exact HsA|]. split; [exact HsB|]. split; [reflexivity|].
    destruct (join_filter_order nl o1 o2 o3 sA sB) as (pre & mid & post & ->).
    exists (documentHead numToString settings
              (orDefault (resolveColor (backgroundColor settings) variables)
                         "#ffffff") +++ pre),
           mid, (post +++ documentTail).
    now rewrite !append_assoc.
  - intros depth n Hwf Hn.
    destruct (mapM_total (section fuel blocks variables) (sortByY roots))
      as (secs & Hsecs).
    { intros b Hb. apply (proj1 (sortByY_In _ _)) in Hb.
      apply filter_In in Hb.
      apply (sectionOf_total numToString resolveStyles blocks variables
                             depth n fuel Hwf Hn). tauto. }
    unfold generateMJML. fold roots. rewrite Hsecs. now eexists.
Qed.

End ExportMoreFacts.

Lemma export_skips_hidden_root_witness :
  generateMJML showNumber plainStyles plainColor 2
               ([exA] ++ exHidden :: [exB]) exSettings []
  = generateMJML showNumber plainStyles plainColor 2
                 ([exA] ++ [exB]) exSettings [].
Proof.
  apply (export_skips_hidden_root showNumber plainStyles plainColor
           2 [exA] [exB] exHidden exSettings []).
  - reflexivity.
  - reflexivity.
  - lia.
Defined.

Lemma export_keeps_array_order_at_equal_y_witness :
  (forall doc,
     generateMJML showNumber plainStyles plainColor 2 [exA; exTie]
                  exSettings []
     = Some doc ->
     exists sA sB before between after,
       sectionOf showNumber plainStyles 2 [exA; exTie] [] exA = Some sA
       /\ sectionOf showNumber plainStyles 2 [exA; exTie] [] exTie = Some sB
       /\ doc = documentHead showNumber exSettings
                  (orDefault (plainColor (backgroundColor exSettings) [])
                             "#ffffff")
                +++ join nl (filter strNonEmpty
                               (before ++ sA :: between ++ sB :: after))
                +++ documentTail
       /\ exists pre mid post, doc = pre +++ sA +++ mid +++ sB +++ post)
  /\ exists doc,
       generateMJML showNumber plainStyles plainColor 2 [exA; exTie]
                    exSettings []
       = Some doc.
Proof.
  destruct (export_keeps_array_order_at_equal_y
              showNumber plainStyles plainColor
              [] [] [] exSettings [] 2 exA exTie) as [Hpart Htot].
  - reflexivity.
  - reflexivity.
  - vm_compute. reflexivity.
  - split; [exact Hpart|].
    apply (Htot flatDepth 2%nat); [|lia].
    apply flat_nestingBounded.
    + intros c [<-|[<-|[]]]; discriminate.
    + intros b [<-|[<-|[]]]; discriminate.
Defined.

(* ================================================================== *)
(** ** The group box *)

Section GroupBoxFacts.
Local Open Scope Q_scope.

(** X27. Grouping appends one group block at the smallest x and y of the
    selected top-level blocks, of width maxX - minX and height maxY - minY
    in binary64 (maxX and maxY the largest x + width and y + height in
    binary64, an 'auto' height counting as 100); it lies above every block
    and is the selection.  Every member gets the group as parent and the
    coordinates (x - minX, y - minY) in binary64, which are not negative;
    sizes are kept and the blocks that are not grouped are untouched.
    When the members sit on whole pixels, the box is their bounding box,
    every member lies inside it, and the group's position plus the
    member's relative position is the member's previous position. *)
Theorem group_box_bounds_members :
  forall (state : EditorState) (now rnd : string),
    (2 <= List.length (selectedBlockIds state))%nat ->
    (2 <= List.length (filter (isSelectedTopLevel (selectedBlockIds state))
                              (blocks state)))%nat ->
    let after := apply (groupSelectedBlocks now rnd) state in
    let sel := filter (isSelectedTopLevel (selectedBlockIds state))
                      (blocks state) in
    let posX := fun b => layout_x (block_layout b) in
    let posY := fun b => layout_y (block_layout b) in
    let width := fun b => layout_width (block_layout b) in
    let height := fun b => heightOr 100 (layout_height (block_layout b)) in
    let minX := Math_min_list (map posX sel) in
    let minY := Math_min_list (map posY sel) in
    let maxX := Math_max_list (map (fun b => B64.add (posX b) (width b)) sel) in
    let maxY := Math_max_list (map (fun b => B64.add (posY b) (height b)) sel) in
    exists members group,
      blocks after = members ++ [group]
      /\ block_id group = newGroupId now rnd
      /\ block_type group = TyGroup
      /\ parentId group = None
      /\ posX group = minX /\ posY group = minY
      /\ width group = B64.sub maxX minX
      /\ layout_height (block_layout group) = HNum (B64.sub maxY minY)
      /\ selectedBlockIds after = [block_id group]
      /\ (forall b, In b (blocks state) ->
            (layout_zIndex (block_layout b)
             < layout_zIndex (block_layout group))%Z)
      /\ Forall2
           (fun b b' =>
              if isSelectedTopLevel (selectedBlockIds state) b
              then b' = with_parent_layout b (Some (block_id group))
                          (with_xy (block_layout b)
                                   (B64.sub (posX b) minX)
                                   (B64.sub (posY b) minY))
                   /\ 0 <= posX b' /\ 0 <= posY b'
              else b' = b)
           (blocks state) members
      /\ (wholePixels posX width sel ->
          smallestOf posX sel minX
          /\ largestOf (fun c => posX c + width c) sel maxX
          /\ width group == maxX - minX
          /\ forall b, In b sel ->
                B64.sub (posX b) minX + width b <= width group
                /\ minX + B64.sub (posX b) minX == posX b)
      /\ (wholePixels posY height sel ->
          smallestOf posY sel minY
          /\ largestOf (fun c => posY c + height c) sel maxY
          /\ B64.sub maxY minY == maxY - minY
          /\ forall b, In b sel ->
                B64.sub (posY b) minY + height b <= B64.sub maxY minY
                /\ minY + B64.sub (posY b) minY == posY b).
Proof.
  intros state now rnd Hids Hsel after sel posX posY width height
         minX minY maxX maxY.
  assert (Hne : sel <> []).
  { intros E. unfold sel in E. rewrite E in Hsel. simpl in Hsel. lia. }
  assert (Hbox : forall (pos size : EditorBlock -> number),
            wholePixels pos size sel ->
            let lo := Math_min_list (map pos sel) in
            let hi := Math_max_list
                        (map (fun b => B64.add (pos b) (size b)) sel) in
            smallestOf pos sel lo
            /\ largestOf (fun c => pos c + size c) sel hi
            /\ B64.sub hi lo == hi - lo
            /\ forall b, In b sel ->
                  B64.sub (pos b) lo + size b <= B64.sub hi lo
                  /\ lo + B64.sub (pos b) lo == pos b).
  { intros pos size Hw lo hi.
    destruct (max_edge_whole pos size sel Hw Hne)
      as ((k0 & Hk0 & Hhi) & Hlarge & _).
    fold hi in Hhi, Hlarge.
    assert (Hin : In lo (map pos sel)).
    { apply Math_min_list_In. destruct sel; [congruence|discriminate]. }
    apply in_map_iff in Hin. destruct Hin as (c1 & Hc1 & Hin1).
    destruct (Hw c1 Hin1) as [(n1 & Hn1 & Hp1) _].
    assert (Hlo : lo == inject_Z n1) by (rewrite <- Hc1; exact Hp1).
    assert (Hwd : B64.sub hi lo == hi - lo)
      by (apply (sub_exact _ _ k0 n1 Hhi Hlo); lia).
    split; [|split; [exact Hlarge|split; [exact Hwd|]]].
    - split.
      + exists c1. split; [exact Hin1|]. rewrite Hc1. reflexivity.
      + intros c Hc. apply Math_min_list_le. now apply in_map.
    - intros b Hb. destruct (Hw b Hb) as [(n & Hn & Hp) _].
      assert (Hx : B64.sub (pos b) lo == pos b - lo)
        by (apply (sub_exact _ _ n n1 Hp Hlo); lia).
      pose proof (proj2 Hlarge b Hb) as Hle. cbv beta in Hle.
      split; [rewrite Hx, Hwd; lra|rewrite Hx; ring]. }
  subst after. unfold apply, groupSelectedBlocks.
  replace (List.length (selectedBlockIds state) <? 2)%nat with false
    by (symmetry; apply Nat.ltb_ge; exact Hids).
  replace (List.length (filter (isSelectedTopLevel (selectedBlockIds state))
                               (blocks state)) <? 2)%nat with false
    by (symmetry; apply Nat.ltb_ge; exact Hsel).
  cbn [merge orKeep p_blocks p_selectedBlockIds blocks selectedBlockIds].
  eexists _, _. split; [reflexivity|].
  cbn [block_id block_type parentId block_layout layout_height layout_width
       layout_x layout_y layout_zIndex].
  split; [reflexivity|]. split; [reflexivity|]. split; [reflexivity|].
  split; [reflexivity|]. split; [reflexivity|]. split; [reflexivity|].
  split; [reflexivity|]. split; [reflexivity|]. split; [|split; [|split]].
  - intros b Hb. destruct (maxZIndexOf_ge (blocks state)) as [_ Hall].
    specialize (Hall b Hb). lia.
  - apply Forall2_map_r. intros b Hb.
    destruct (isSelectedTopLevel (selectedBlockIds state) b) eqn:Eb;
      [|reflexivity].
    assert (Hin : In b sel) by (apply filter_In; now split).
    split; [reflexivity|].
    unfold with_parent_layout, with_xy.
    cbn [block_layout layout_x layout_y]. unfold B64.sub.
    split; apply round64_nonneg.
    + pose proof (Math_min_list_le (map posX sel) (posX b)
                    (in_map posX _ _ Hin)) as Hx.
      unfold posX, sel in Hx. lra.
    + pose proof (Math_min_list_le (map posY sel) (posY b)
                    (in_map posY _ _ Hin)) as Hy.
      unfold posY, sel in Hy. lra.
  - intros Hw. exact (Hbox posX width Hw).
  - intros Hw. exact (Hbox posY height Hw).
Qed.

End GroupBoxFacts.

Lemma group_box_bounds_members_witness :
  wholePixels (fun b => layout_x (block_layout b))
              (fun b => layout_width (block_layout b))
              (filter (isSelectedTopLevel (selectedBlockIds exAlignState))
                      (blocks exAlignState))
  /\ exists members group,
       blocks (apply (groupSelectedBlocks "1" "r") exAlignState)
       = members ++ [group]
       /\ block_id group = newGroupId "1" "r"
       /\ block_type group = TyGroup
       /\ layout_width (block_layout group)
          == Math_max_list
               (map (fun b => B64.add (layout_x (block_layout b))
                                      (layout_width (block_layout b)))
                    (filter (isSelectedTopLevel
                               (selectedBlockIds exAlignState))
                            (blocks exAlignState)))
             - Math_min_list
                 (map (fun b => layout_x (block_layout b))
                      (filter (isSelectedTopLevel
                                 (selectedBlockIds exAlignState))
                              (blocks exAlignState))).
Proof.
  assert (Hwx : wholePixels (fun b => layout_x (block_layout b))
                  (fun b => layout_width (block_layout b))
                  (filter (isSelectedTopLevel (selectedBlockIds exAlignState))
                          (blocks exAlignState))).
  { intros b [<-|[<-|[]]]; split;
      [exists 10%Z|exists 100%Z|exists 50%Z|exists 30%Z];
      (split; [vm_compute; discriminate|reflexivity]). }
  split; [exact Hwx|].
  destruct (group_box_bounds_members exAlignState "1" "r")
    as (members & group & H1 & H2 & H3 & _ & _ & _ & _ & _ & _ & _ & _
        & Hx & _).
  - simpl. lia.
  - simpl. lia.
  - exists members, group.
    split; [exact H1|]. split; [exact H2|]. split; [exact H3|].
    exact (proj1 (proj2 (proj2 (Hx Hwx)))).
Defined.

(** Grouped, the blocks at (10, 20), 100 wide and 40 high, and (50, 5),
    30 wide and of height 'auto', sit at (0, 15) and (40, 0) in a group at
    (10, 5) that is 100 wide and 100 high. *)
Example group_box_example :
  map (fun b => (Qred (layout_x (block_layout b)),
                 Qred (layout_y (block_layout b)),
                 Qred (layout_width (block_layout b)),
                 Qred (heightOr 100 (layout_height (block_layout b)))))
      (blocks (apply (groupSelectedBlocks "1" "r") exAlignState))
  = [ (0, 15, 100, 40); (40, 0, 30, 100); (200, 200, 10, 10);
      (10, 5, 100, 100) ].
Proof. vm_compute. reflexivity. Qed.

(* ================================================================== *)
(** ** Distribution *)


Section DistributeFacts.
Local Open Scope Q_scope.

Variable key size : EditorBlock -> number.
Variable setPos : EditorBlock -> number -> EditorBlock.

Lemma insertByKey_perm b l : Permutation (insertByKey key b l) (b :: l).
Proof.
  induction l as [|h l IH]; simpl; [reflexivity|].
  destruct (Qle_bool _ _); [reflexivity|].
  rewrite IH. apply perm_swap.
Qed.

Lemma sortByKey_perm l : Permutation (sortByKey key l) l.
Proof.
  induction l as [|b l IH]; simpl; [reflexivity|].
  rewrite insertByKey_perm. now constructor.
Qed.

Lemma insertByKey_sorted b l :
  StronglySorted (fun a c => key a <= key c) l ->
  StronglySorted (fun a c => key a <= key c) (insertByKey key b l).
Proof.
  induction 1 as [|h l Hl IH Hh]; simpl.
  - repeat constructor.
  - destruct (Qle_bool _ _) eqn:E.
    + apply Qle_bool_iff in E. constructor; [now constructor|].
      constructor; [exact E|].
      rewrite Forall_forall in *. intros x Hx.
      specialize (Hh x Hx). cbv beta in Hh. lra.
    + apply Qle_bool_false_iff in E. constructor; [exact IH|].
      rewrite Forall_forall in *. intros x Hx.
      apply (Permutation_in _ (insertByKey_perm b l)) in Hx.
      destruct Hx as [<-|Hx]; [lra|now apply Hh].
Qed.

Lemma sortByKey_sorted l :
  StronglySorted (fun a c => key a <= key c) (sortByKey key l).
Proof.
  induction l as [|b l IH]; simpl; [constructor|now apply insertByKey_sorted].
Qed.

Lemma fold_sum_shift (l : list EditorBlock) (a : Q) :
  fold_left (fun sum b => sum + size b) l a
  == a + fold_left (fun sum b => sum + size b) l 0.
Proof.
  revert a. induction l as [|b l IH]; intros a; simpl; [lra|].
  rewrite (IH (a + size b)), (IH (0 + size b)). lra.
Qed.

Lemma notePositions_keys gap c bs :
  map fst (notePositions size gap c bs) = map block_id bs.
Proof.
  revert c. induction bs as [|b bs IH]; intros c; simpl; [reflexivity|].
  now rewrite IH.
Qed.

Lemma notePositions_In gap bs :
  forall c i s p,
    nth_error bs i = Some s ->
    nth_error (map snd (notePositions size gap c bs)) i = Some p ->
    In (block_id s, p) (notePositions size gap c bs).
Proof.
  induction bs as [|b bs IH]; intros c [|i] s p Hs Hp; simpl in *;
    try discriminate.
  - left. congruence.
  - right. now apply (IH _ i).
Qed.

(** The extents of the blocks [bs] are whole numbers from 0 to 2^32. *)
Local Abbreviation sized bs :=
  (forall b, In b bs ->
     exists wz : Z, (0 <= wz <= 2 ^ 32)%Z /\ size b == inject_Z wz).

(** Within these bounds the total extent is summed exactly. *)
Lemma sizes_fold_exact bs :
  sized bs ->
  forall s sz,
    s == inject_Z sz -> (0 <= sz)%Z ->
    (sz + Z.of_nat (List.length bs) * 2 ^ 32 <= 2 ^ 52)%Z ->
    fold_left (fun sum b => B64.add sum (size b)) bs s
    == fold_left (fun sum b => sum + size b) bs s
    /\ exists tz,
         (sz <= tz <= sz + Z.of_nat (List.length bs) * 2 ^ 32)%Z
         /\ fold_left (fun sum b => sum + size b) bs s == inject_Z tz.
Proof.
  induction bs as [|b bs IH]; intros Hsz s sz Hs Hpos Hbud.
  - simpl. split; [reflexivity|]. exists sz. split; [simpl; lia|exact Hs].
  - destruct (Hsz b (or_introl eq_refl)) as (wz & Hwz & Hw).
    change (List.length (b :: bs)) with (S (List.length bs)) in *.
    rewrite Nat2Z.inj_succ, Z.mul_succ_l in Hbud.
    assert (Hl : (0 <= Z.of_nat (List.length bs) * 2 ^ 32)%Z) by lia.
    assert (Hs' : B64.add s (size b) == s + size b)
      by (apply (add_exact _ _ sz wz Hs Hw); lia).
    assert (Hs'z : B64.add s (size b) == inject_Z (sz + wz))
      by (rewrite Hs', Hs, Hw, inject_Z_plus; reflexivity).
    destruct (IH (fun c Hc => Hsz c (or_intror Hc))
                 (B64.add s (size b)) (sz + wz)%Z Hs'z)
      as (Hf & tz & Htz & He); [lia|lia|].
    assert (Hshift : fold_left (fun sum c => sum + size c) bs
                               (B64.add s (size b))
                     == fold_left (fun sum c => sum + size c) bs
                                  (s + size b)).
    { rewrite (fold_sum_shift bs (B64.add s (size b))),
              (fold_sum_shift bs (s + size b)), Hs'. reflexivity. }
    cbn [fold_left]. split.
    + rewrite Hf. exact Hshift.
    + exists tz. rewrite Nat2Z.inj_succ, Z.mul_succ_l.
      split; [lia|]. rewrite <- Hshift. exact He.
Qed.

(** Within these bounds every running position is computed exactly:
    consecutive blocks are [gap] apart, and the last position is the
    first plus the extents and gaps before it. *)
Lemma notePositions_exact (gap : number) (g : Z) :
  gap == inject_Z g ->
  forall bs c cz,
    c == inject_Z cz -> sized bs ->
    (Z.abs cz + Z.of_nat (List.length bs) * (2 ^ 32 + Z.abs g) <= 2 ^ 52)%Z ->
    (forall i a p q,
       nth_error bs i = Some a ->
       nth_error (map snd (notePositions size gap c bs)) i = Some p ->
       nth_error (map snd (notePositions size gap c bs)) (S i) = Some q ->
       q - (p + size a) == gap)
    /\ (forall last p,
          nth_error bs (List.length bs - 1) = Some last ->
          nth_error (map snd (notePositions size gap c bs))
                    (List.length bs - 1) = Some p ->
          p + size last
          == c + fold_left (fun sum b => sum + size b) bs 0
             + (inject_Z (Z.of_nat (List.length bs)) - 1) * gap).
Proof.
  intros Hg. induction bs as [|b bs IH]; intros c cz Hc Hsz Hbud.
  - split; [intros [|i] a p q Ha; discriminate|intros l p Hl; discriminate].
  - destruct (Hsz b (or_introl eq_refl)) as (wz & Hwz & Hw).
    change (List.length (b :: bs)) with (S (List.length bs)) in Hbud.
    rewrite Nat2Z.inj_succ, Z.mul_succ_l in Hbud.
    set (K := (2 ^ 32 + Z.abs g)%Z) in *.
    assert (HK : (0 <= K)%Z) by (unfold K; lia).
    assert (Hl : (0 <= Z.of_nat (List.length bs) * K)%Z)
      by (apply Z.mul_nonneg_nonneg; lia).
    assert (He1 : B64.add (size b) gap == size b + gap)
      by (apply (add_exact _ _ wz g Hw Hg); unfold K in *; lia).
    assert (He1z : B64.add (size b) gap == inject_Z (wz + g))
      by (rewrite He1, Hw, Hg, inject_Z_plus; reflexivity).
    assert (He2 : B64.add c (B64.add (size b) gap) == c + (size b + gap)).
    { rewrite <- He1. apply (add_exact _ _ cz (wz + g)%Z Hc He1z).
      unfold K in *. lia. }
    assert (He2z : B64.add c (B64.add (size b) gap)
                   == inject_Z (cz + (wz + g))).
    { rewrite He2, Hc, Hw, Hg, !inject_Z_plus. reflexivity. }
    destruct (IH (B64.add c (B64.add (size b) gap)) (cz + (wz + g))%Z He2z
                 (fun x Hx => Hsz x (or_intror Hx)))
      as [IHgap IHlast]; [unfold K in *; lia|].
    split.
    + intros [|i] a p q Ha Hp Hq.
      * destruct bs as [|b' bs]; [discriminate|]. simpl in Ha, Hp, Hq.
        assert (a = b) by congruence. assert (p = c) by congruence.
        assert (q = B64.add c (B64.add (size b) gap)) by congruence.
        subst. rewrite He2. ring.
      * apply (IHgap i a p q); [exact Ha|exact Hp|exact Hq].
    + intros last p Hl' Hp. destruct bs as [|b' bs].
      * simpl in Hl', Hp. assert (last = b) by congruence.
        assert (p = c) by congruence. subst.
        cbn [List.length fold_left]. change (inject_Z (Z.of_nat 1)) with 1.
        ring.
      * assert (Hidx : (List.length (b :: b' :: bs) - 1
                        = S (List.length (b' :: bs) - 1))%nat)
          by (simpl; lia).
        rewrite Hidx in Hl', Hp.
        cbn [nth_error notePositions map] in Hl', Hp.
        specialize (IHlast last p Hl' Hp).
        change (fold_left (fun sum x => sum + size x) (b :: b' :: bs) 0)
          with (fold_left (fun sum x => sum + size x) (b' :: bs)
                          (0 + size b)).
        rewrite (fold_sum_shift (b' :: bs) (0 + size b)).
        assert (Hn : inject_Z (Z.of_nat (List.length (b :: b' :: bs)))
                     == inject_Z (Z.of_nat (List.length (b' :: bs))) + 1).
        { change (List.length (b :: b' :: bs))
            with (S (List.length (b' :: bs))).
          rewrite Nat2Z.inj_succ. unfold Z.succ. rewrite inject_Z_plus.
          reflexivity. }
        rewrite Hn, IHlast, He2. ring.
Qed.

Lemma updateFor_keep (updates : list (string * number)) (id : string) :
  ~ In id (map fst updates) ->
  forall found,
    fold_left (fun found kv =>
                 if String.eqb (fst kv) id then Some (snd kv) else found)
              updates found = found.
Proof.
  induction updates as [|[k v] updates IH]; intros Hn found; simpl;
    [reflexivity|].
  simpl in Hn. destruct (String.eqb k id) eqn:E.
  - apply String.eqb_eq in E. tauto.
  - apply IH. tauto.
Qed.

Lemma updateFor_In (updates : list (string * number)) (id : string)
    (v : number) :
  NoDup (map fst updates) -> In (id, v) updates ->
  updateFor updates id = Some v.
Proof.
  unfold updateFor. generalize (@None number).
  induction updates as [|[k w] updates IH]; intros found Hnd Hin;
    [destruct Hin|].
  simpl in *. inversion Hnd as [|? ? Hk Hnd']; subst.
  destruct Hin as [Heq|Hin].
  - assert (k = id) by congruence. assert (w = v) by congruence. subst.
    rewrite String.eqb_refl. now apply updateFor_keep.
  - now apply IH.
Qed.

Lemma updateFor_None (updates : list (string * number)) (id : string) :
  ~ In id (map fst updates) -> updateFor updates id = None.
Proof. intros H. now apply updateFor_keep. Qed.

(** The body of the two distribution actions, on a row of whole pixels
    whose free space divides evenly. *)
Lemma distribute_evenly (state : EditorState) (g : Z) (first last : EditorBlock) :
  let sorted := sortByKey key (selectedOf state) in
  (2 <= List.length (selectedOf state))%nat ->
    (Z.of_nat (List.length (selectedOf state)) <= 65536)%Z ->
  NoDup (map block_id (selectedOf state)) ->
  (forall b, In b (selectedOf state) ->
     smallPixel (key b) /\ smallPixel (size b) /\ 0 <= size b) ->
  freeSpaceDivides key size sorted g ->
  nth_error sorted 0 = Some first ->
  nth_error sorted (List.length sorted - 1) = Some last ->
  let gapBetween :=
    B64.div (B64.sub (B64.sub (B64.add (key last) (size last)) (key first))
                     (fold_left (fun sum b => B64.add sum (size b)) sorted 0))
            (B64.sub (inject_Z (Z.of_nat (List.length sorted))) 1) in
  let updates := notePositions size gapBetween (key first) sorted in
  evenlySpaced key size setPos state
    (merge state
       (mkPatch
          (Some (map (fun block =>
                        match updateFor updates (block_id block) with
                        | Some v => setPos block v
                        | None => block
                        end)
                     (blocks state)))
          None None None None None))
    sorted.
Proof.
  intros sorted Hlen Hmany Hnd Hwhole Hdiv Hfirst Hlast gapBetween updates.
  assert (Hperm : Permutation sorted (selectedOf state))
    by apply sortByKey_perm.
  assert (Hn : List.length sorted = List.length (selectedOf state))
    by apply (Permutation_length Hperm).
  assert (Hin : forall b, In b sorted -> In b (selectedOf state))
    by (intros b Hb; apply (Permutation_in _ Hperm Hb)).
  assert (Hsized : sized sorted).
  { intros b Hb. destruct (Hwhole b (Hin b Hb)) as (_ & (wz & Hwz & Hw) & H0).
    exists wz. split; [|exact Hw].
    rewrite Hw in H0. unfold Qle in H0. cbn [Qnum Qden inject_Z] in H0. lia. }
  set (n := Z.of_nat (List.length sorted)) in *.
  assert (Hnz : (2 <= n <= 65536)%Z) by (unfold n; lia).
  destruct (Hwhole first (Hin first (nth_error_In _ _ Hfirst)))
    as ((fz & Hfz & Hf) & _).
  destruct (Hwhole last (Hin last (nth_error_In _ _ Hlast)))
    as ((lz & Hlz & Hl) & _).
  destruct (Hsized last (nth_error_In _ _ Hlast)) as (wl & Hwl & Hw).
  destruct (sizes_fold_exact sorted Hsized 0 0%Z)
    as (Htot & tz & Htz & Htote);
    [reflexivity|lia|fold n; lia|]. fold n in Htz.
  (* the far edge, the free space and the gap are computed exactly *)
  assert (Hedge : B64.add (key last) (size last) == key last + size last)
    by (apply (add_exact _ _ lz wl Hl Hw); lia).
  assert (Hedgez : B64.add (key last) (size last) == inject_Z (lz + wl))
    by (rewrite Hedge, Hl, Hw, inject_Z_plus; reflexivity).
  assert (Hspan : B64.sub (B64.add (key last) (size last)) (key first)
                  == key last + size last - key first).
  { rewrite <- Hedge. apply (sub_exact _ _ (lz + wl)%Z fz Hedgez Hf). lia. }
  assert (Hspanz : B64.sub (B64.add (key last) (size last)) (key first)
                   == inject_Z (lz + wl - fz)).
  { rewrite Hspan, Hl, Hw, Hf.
    unfold Qeq, Qminus, Qplus, Qopp. cbn [Qnum Qden inject_Z]. lia. }
  set (totalF := fold_left (fun sum b => B64.add sum (size b)) sorted 0)
    in *.
  set (totalE := fold_left (fun sum b => sum + size b) sorted 0) in *.
  assert (Htotz : totalF == inject_Z tz) by (rewrite Htot; exact Htote).
  set (spanF := B64.sub (B64.add (key last) (size last)) (key first)) in *.
  assert (Hfree : B64.sub spanF totalF
                  == (key last + size last - key first) - totalE).
  { rewrite <- Hspan, <- Htot.
    apply (sub_exact _ _ (lz + wl - fz)%Z tz Hspanz Htotz). lia. }
  pose proof (Hdiv first last Hfirst Hlast) as Hg. fold totalE n in Hg.
  assert (Hgz : (lz + wl - fz - tz = g * (n - 1))%Z).
  { rewrite Hl, Hw, Hf, Htote in Hg.
    unfold Qeq, Qminus, Qplus, Qopp, Qmult in Hg.
    cbn [Qnum Qden inject_Z] in Hg. lia. }
  assert (Hgb : (Z.abs g * (n - 1) <= 2 ^ 34 + 65536 * 2 ^ 32)%Z).
  { assert (Ha : (Z.abs (g * (n - 1)) = Z.abs g * (n - 1))%Z)
      by (rewrite Z.abs_mul; f_equal; lia).
    rewrite <- Ha, <- Hgz. lia. }
  assert (Hgabs : (Z.abs g <= Z.abs g * (n - 1))%Z) by nia.
  assert (Hcount : B64.sub (inject_Z n) 1 == inject_Z n - 1).
  { apply (sub_exact _ _ n 1%Z); [reflexivity|reflexivity|lia]. }
  assert (Hgap : gapBetween == inject_Z g).
  { unfold gapBetween, B64.div. fold totalF spanF n.
    assert (Hq : B64.sub spanF totalF / B64.sub (inject_Z n) 1
                 == inject_Z g).
    { rewrite Hfree, Hg, Hcount. field.
      intros E. unfold Qeq, Qminus, Qplus, Qopp in E.
      cbn [Qnum Qden inject_Z] in E. lia. }
    rewrite (round64_value _ _ Hq). apply round64_whole. lia. }
  destruct (notePositions_exact gapBetween g Hgap sorted (key first) fz Hf
                                Hsized)
    as [Hstep Hend].
  { fold n. rewrite Z.mul_add_distr_l.
    assert (Hng : (n * Z.abs g <= 2 * (Z.abs g * (n - 1)))%Z) by nia.
    lia. }
  fold updates in Hstep, Hend.
  exists (map snd updates), gapBetween.
  cbn [merge orKeep p_blocks blocks].
  split; [|split; [|split; [|split]]].
  - unfold updates. rewrite length_map, <- (length_map fst).
    rewrite notePositions_keys. apply length_map.
  - intros f Hf'. assert (f = first) by congruence. subst f.
    unfold updates. destruct sorted as [|s0 sorted']; [discriminate|].
    reflexivity.
  - intros l p Hl' Hp. assert (l = last) by congruence. subst l.
    pose proof (Hend last p Hlast Hp) as Hsum. fold totalE n in Hsum.
    rewrite Hgap in Hsum.
    assert (Hg' : (inject_Z n - 1) * inject_Z g
                  == key last + size last - key first - totalE)
      by (rewrite Hg; ring).
    rewrite Hg' in Hsum. lra.
  - intros i a p q Ha Hp Hq. exact (Hstep i a p q Ha Hp Hq).
  - apply Forall2_map_r. intros b Hb.
    assert (Hkeys : map fst updates = map block_id sorted)
      by apply notePositions_keys.
    assert (Hndk : NoDup (map fst updates)).
    { rewrite Hkeys.
      apply (Permutation_NoDup
               (Permutation_map block_id (Permutation_sym Hperm)) Hnd). }
    split.
    + intros i s p Hs Hid Hp.
      rewrite (updateFor_In updates (block_id b) p Hndk); [reflexivity|].
      rewrite <- Hid. now apply (notePositions_In gapBetween sorted _ i).
    + intros Hinc. rewrite updateFor_None; [reflexivity|].
      rewrite Hkeys. intros Hin'. apply in_map_iff in Hin'.
      destruct Hin' as (s & Hid & Hs).
      apply (Permutation_in _ Hperm) in Hs. apply filter_In in Hs.
      rewrite Hid in Hs. destruct Hs as [_ Hs]. congruence.
Qed.

End DistributeFacts.

Section DistributeTheorems.
Local Open Scope Q_scope.

(** X28. On a row of whole pixels whose free space divides evenly by the
    number of gaps, where the arithmetic of the source is exact,
    [distributeHorizontal] spaces the selected blocks evenly from left to
    right: taken in ascending order of x, the leftmost and the rightmost block
    keep their position, the gap between the right edge of a block and the
    left edge of the next is the same for all of them, and the blocks that
    are not selected are untouched.  (At least three ids are selected;
    they name from 2 to 65536 blocks of distinct ids, whose x and width
    are whole numbers up to 2^32, the width not negative.) *)
Theorem distributeHorizontal_even_gaps :
  forall (state : EditorState) (g : Z),
    let key := fun b => layout_x (block_layout b) in
    let size := fun b => layout_width (block_layout b) in
    let sorted := sortByKey key (selectedOf state) in
    (3 <= List.length (selectedBlockIds state))%nat ->
    (2 <= List.length (selectedOf state))%nat ->
    (Z.of_nat (List.length (selectedOf state)) <= 65536)%Z ->
    NoDup (map block_id (selectedOf state)) ->
    (forall b, In b (selectedOf state) ->
       smallPixel (key b) /\ smallPixel (size b) /\ 0 <= size b) ->
    freeSpaceDivides key size sorted g ->
    exists patch,
      distributeHorizontal state = Returns (Some patch)
      /\ Permutation sorted (selectedOf state)
      /\ StronglySorted (fun a c => key a <= key c) sorted
      /\ evenlySpaced key size
           (fun b x => with_layout b (with_x (block_layout b) x))
           state (settle (distributeHorizontal state) state) sorted.
Proof.
  intros state g key size sorted Hids Hlen Hmany Hnd Hwhole Hdiv.
  assert (Hperm : Permutation sorted (selectedOf state))
    by apply sortByKey_perm.
  assert (Hn : List.length sorted = List.length (selectedOf state))
    by apply (Permutation_length Hperm).
  destruct (nth_error sorted 0) as [first|] eqn:Hfirst.
  2:{ apply nth_error_None in Hfirst. lia. }
  destruct (nth_error sorted (List.length sorted - 1)) as [last|] eqn:Hlast.
  2:{ apply nth_error_None in Hlast. lia. }
  pose proof (distribute_evenly key size
                (fun b x => with_layout b (with_x (block_layout b) x))
                state g first last Hlen Hmany Hnd Hwhole Hdiv Hfirst Hlast) as Hev.
  assert (Hrun : exists patch,
            distributeHorizontal state = Returns (Some patch)
            /\ evenlySpaced key size
                 (fun b x => with_layout b (with_x (block_layout b) x))
                 state (merge state patch) sorted).
  { unfold distributeHorizontal.
    replace (List.length (selectedBlockIds state) <? 3)%nat with false
      by (symmetry; apply Nat.ltb_ge; exact Hids).
    fold key. fold sorted. rewrite Hfirst, Hlast.
    eexists. split; [reflexivity|]. exact Hev. }
  destruct Hrun as (patch & Hrun & Hspec).
  exists patch. split; [exact Hrun|]. split; [exact Hperm|].
  split; [apply sortByKey_sorted|].
  rewrite Hrun. exact Hspec.
Qed.

(** X29. On a column of whole pixels whose free space divides evenly by
    the number of gaps, where the arithmetic of the source is exact,
    [distributeVertical] spaces the selected blocks evenly from top to
    bottom, an 'auto' height counting as 50: in ascending order of y the
    topmost and the bottommost block keep their position, the gap between
    the bottom edge of a block and the top edge of the next is the same
    for all of them, and the blocks that are not selected are untouched.
    (At least three ids are selected; they name from 2 to 65536 blocks of
    distinct ids, whose y and height are whole numbers up to 2^32, the
    height not negative.) *)
Theorem distributeVertical_even_gaps :
  forall (state : EditorState) (g : Z),
    let key := fun b => layout_y (block_layout b) in
    let size := fun b => heightOr 50 (layout_height (block_layout b)) in
    let sorted := sortByKey key (selectedOf state) in
    (3 <= List.length (selectedBlockIds state))%nat ->
    (2 <= List.length (selectedOf state))%nat ->
    (Z.of_nat (List.length (selectedOf state)) <= 65536)%Z ->
    NoDup (map block_id (selectedOf state)) ->
    (forall b, In b (selectedOf state) ->
       smallPixel (key b) /\ smallPixel (size b) /\ 0 <= size b) ->
    freeSpaceDivides key size sorted g ->
    exists patch,
      distributeVertical state = Returns (Some patch)
      /\ Permutation sorted (selectedOf state)
      /\ StronglySorted (fun a c => key a <= key c) sorted
      /\ evenlySpaced key size
           (fun b y => with_layout b (with_y (block_layout b) y))
           state (settle (distributeVertical state) state) sorted.
Proof.
  intros state g key size sorted Hids Hlen Hmany Hnd Hwhole Hdiv.
  assert (Hperm : Permutation sorted (selectedOf state))
    by apply sortByKey_perm.
  assert (Hn : List.length sorted = List.length (selectedOf state))
    by apply (Permutation_length Hperm).
  destruct (nth_error sorted 0) as [first|] eqn:Hfirst.
  2:{ apply nth_error_None in Hfirst. lia. }
  destruct (nth_error sorted (List.length sorted - 1)) as [last|] eqn:Hlast.
  2:{ apply nth_error_None in Hlast. lia. }
  pose proof (distribute_evenly key size
                (fun b y => with_layout b (with_y (block_layout b) y))
                state g first last Hlen Hmany Hnd Hwhole Hdiv Hfirst Hlast) as Hev.
  assert (Hrun : exists patch,
            distributeVertical state = Returns (Some patch)
            /\ evenlySpaced key size
                 (fun b y => with_layout b (with_y (block_layout b) y))
                 state (merge state patch) sorted).
  { unfold distributeVertical.
    replace (List.length (selectedBlockIds state) <? 3)%nat with false
      by (symmetry; apply Nat.ltb_ge; exact Hids).
    fold key. fold sorted. rewrite Hfirst, Hlast.
    eexists. split; [reflexivity|]. exact Hev. }
  destruct Hrun as (patch & Hrun & Hspec).
  exists patch. split; [exact Hrun|]. split; [exact Hperm|].
  split; [apply sortByKey_sorted|].
  rewrite Hrun. exact Hspec.
Qed.

(** X30. When at least three ids are selected and none of them names a
    block of the document, distributing (on either axis) does not return:
    it throws a TypeError, and the store is left as it was. *)
Theorem distribute_throws_without_blocks :
  forall (state : EditorState),
    (3 <= List.length (selectedBlockIds state))%nat ->
    selectedOf state = [] ->
    distributeHorizontal state = ThrowsTypeError
    /\ distributeVertical state = ThrowsTypeError
    /\ settle (distributeHorizontal state) state = state
    /\ settle (distributeVertical state) state = state.
Proof.
  intros state Hids Hnone.
  assert (Hh : distributeHorizontal state = ThrowsTypeError).
  { unfold distributeHorizontal.
    replace (List.length (selectedBlockIds state) <? 3)%nat with false
      by (symmetry; apply Nat.ltb_ge; exact Hids).
    rewrite Hnone. reflexivity. }
  assert (Hv : distributeVertical state = ThrowsTypeError).
  { unfold distributeVertical.
    replace (List.length (selectedBlockIds state) <? 3)%nat with false
      by (symmetry; apply Nat.ltb_ge; exact Hids).
    rewrite Hnone. reflexivity. }
  rewrite Hh, Hv. repeat split.
Qed.

End DistributeTheorems.

Lemma distributeHorizontal_even_gaps_witness :
  freeSpaceDivides (fun b => layout_x (block_layout b))
                   (fun b => layout_width (block_layout b))
                   (sortByKey (fun b => layout_x (block_layout b))
                              (selectedOf exEvenRowState)) 100
  /\ exists patch,
       distributeHorizontal exEvenRowState = Returns (Some patch)
       /\ Permutation (sortByKey (fun b => layout_x (block_layout b))
                                 (selectedOf exEvenRowState))
                      (selectedOf exEvenRowState)
       /\ StronglySorted
            (fun a c => layout_x (block_layout a) <= layout_x (block_layout c))
            (sortByKey (fun b => layout_x (block_layout b))
                       (selectedOf exEvenRowState))
       /\ evenlySpaced
            (fun b => layout_x (block_layout b))
            (fun b => layout_width (block_layout b))
            (fun b x => with_layout b (with_x (block_layout b) x))
            exEvenRowState
            (settle (distributeHorizontal exEvenRowState) exEvenRowState)
            (sortByKey (fun b => layout_x (block_layout b))
                       (selectedOf exEvenRowState)).
Proof.
  assert (Hdiv : freeSpaceDivides (fun b => layout_x (block_layout b))
                   (fun b => layout_width (block_layout b))
                   (sortByKey (fun b => layout_x (block_layout b))
                              (selectedOf exEvenRowState)) 100).
  { intros first last Hf Hl. vm_compute in Hf, Hl.
    inversion Hf; inversion Hl; subst. vm_compute. reflexivity. }
  assert (Hids : (3 <= List.length (selectedBlockIds exEvenRowState))%nat)
    by (simpl; lia).
  assert (Hlen : (2 <= List.length (selectedOf exEvenRowState))%nat)
    by (simpl; lia).
  assert (Hmany : (Z.of_nat (List.length (selectedOf exEvenRowState))
                   <= 65536)%Z)
    by (vm_compute; discriminate).
  assert (Hnd : NoDup (map block_id (selectedOf exEvenRowState)))
    by (vm_compute; repeat constructor; simpl; intuition discriminate).
  assert (Hwhole : forall b, In b (selectedOf exEvenRowState) ->
            smallPixel ((fun b => layout_x (block_layout b)) b) /\ smallPixel ((fun b => layout_width (block_layout b)) b)
            /\ 0 <= (fun b => layout_width (block_layout b)) b).
  { intros b Hb. vm_compute in Hb.
    destruct Hb as [<-|[<-|[<-|[]]]];
      (split; [|split; [|vm_compute; discriminate]]);
      [exists 0%Z|exists 100%Z|exists 110%Z|exists 100%Z
      |exists 400%Z|exists 100%Z];
      (split; [vm_compute; discriminate|reflexivity]). }
  split; [exact Hdiv|].
  exact (distributeHorizontal_even_gaps exEvenRowState 100 Hids Hlen Hmany Hnd Hwhole Hdiv).
Defined.

Lemma distributeVertical_even_gaps_witness :
  freeSpaceDivides (fun b => layout_y (block_layout b))
                   (fun b => heightOr 50 (layout_height (block_layout b)))
                   (sortByKey (fun b => layout_y (block_layout b))
                              (selectedOf exEvenRowState)) 15
  /\ exists patch,
       distributeVertical exEvenRowState = Returns (Some patch)
       /\ Permutation (sortByKey (fun b => layout_y (block_layout b))
                                 (selectedOf exEvenRowState))
                      (selectedOf exEvenRowState)
       /\ StronglySorted
            (fun a c => layout_y (block_layout a) <= layout_y (block_layout c))
            (sortByKey (fun b => layout_y (block_layout b))
                       (selectedOf exEvenRowState))
       /\ evenlySpaced
            (fun b => layout_y (block_layout b))
            (fun b => heightOr 50 (layout_height (block_layout b)))
            (fun b y => with_layout b (with_y (block_layout b) y))
            exEvenRowState
            (settle (distributeVertical exEvenRowState) exEvenRowState)
            (sortByKey (fun b => layout_y (block_layout b))
                       (selectedOf exEvenRowState)).
Proof.
  assert (Hdiv : freeSpaceDivides (fun b => layout_y (block_layout b))
                   (fun b => heightOr 50 (layout_height (block_layout b)))
                   (sortByKey (fun b => layout_y (block_layout b))
                              (selectedOf exEvenRowState)) 15).
  { intros first last Hf Hl. vm_compute in Hf, Hl.
    inversion Hf; inversion Hl; subst. vm_compute. reflexivity. }
  assert (Hids : (3 <= List.length (selectedBlockIds exEvenRowState))%nat)
    by (simpl; lia).
  assert (Hlen : (2 <= List.length (selectedOf exEvenRowState))%nat)
    by (simpl; lia).
  assert (Hmany : (Z.of_nat (List.length (selectedOf exEvenRowState))
                   <= 65536)%Z)
    by (vm_compute; discriminate).
  assert (Hnd : NoDup (map block_id (selectedOf exEvenRowState)))
    by (vm_compute; repeat constructor; simpl; intuition discriminate).
  assert (Hwhole : forall b, In b (selectedOf exEvenRowState) ->
            smallPixel ((fun b => layout_y (block_layout b)) b) /\ smallPixel ((fun b => heightOr 50 (layout_height (block_layout b))) b)
            /\ 0 <= (fun b => heightOr 50 (layout_height (block_layout b))) b).
  { intros b Hb. vm_compute in Hb.
    destruct Hb as [<-|[<-|[<-|[]]]];
      (split; [|split; [|vm_compute; discriminate]]);
      [exists 0%Z|exists 20%Z|exists 10%Z|exists 20%Z
      |exists 70%Z|exists 20%Z];
      (split; [vm_compute; discriminate|reflexivity]). }
  split; [exact Hdiv|].
  exact (distributeVertical_even_gaps exEvenRowState 15 Hids Hlen Hmany Hnd Hwhole Hdiv).
Defined.

(** The three blocks of the even row, 100 wide at x = 0, 110 and 400, end
    at x = 0, 200 and 400, 100 apart; 20 high at y = 0, 10 and 70, they
    end at y = 0, 35 and 70, 15 apart. *)
Example distribute_even_example :
  map (fun b => Qred (layout_x (block_layout b)))
      (blocks (settle (distributeHorizontal exEvenRowState) exEvenRowState))
  = [0; 200; 400]
  /\ map (fun b => Qred (layout_y (block_layout b)))
         (blocks (settle (distributeVertical exEvenRowState) exEvenRowState))
     = [0; 35; 70].
Proof. split; vm_compute; reflexivity. Qed.

Lemma distribute_throws_without_blocks_witness :
  distributeHorizontal (exState [] ["x"; "y"; "z"]) = ThrowsTypeError
  /\ distributeVertical (exState [] ["x"; "y"; "z"]) = ThrowsTypeError
  /\ settle (distributeHorizontal (exState [] ["x"; "y"; "z"]))
            (exState [] ["x"; "y"; "z"])
     = exState [] ["x"; "y"; "z"]
  /\ settle (distributeVertical (exState [] ["x"; "y"; "z"]))
            (exState [] ["x"; "y"; "z"])
     = exState [] ["x"; "y"; "z"].
Proof.
  apply (distribute_throws_without_blocks (exState [] ["x"; "y"; "z"])).
  - simpl. lia.
  - reflexivity.
Defined.


(** The four blocks of the example row, of width 10 at x = 0, 50, 200
    and 385, end at 0, 128.33333333333331, 256.66666666666663 and
    384.99999999999994: the gap 355 / 3 and the running sum are rounded,
    and the rightmost block does not stay exactly where it was. *)
Example distributeHorizontal_example :
  map (fun b => Qred (layout_x (block_layout b)))
      (blocks (settle (distributeHorizontal exRowState) exRowState))
  = [ 0;
      2257663875700053 # 17592186044416;
      2257663875700053 # 8796093022208;
      6772991627100159 # 17592186044416 ]%Q.
Proof. vm_compute. reflexivity. Qed.

(* ================================================================== *)
(** ** Escaping of user strings, at the level of the document *)

Section InkFacts.

Lemma hasInk_app (a b : string) : hasInk (a +++ b) = hasInk a || hasInk b.
Proof.
  induction a as [|c a IH]; [reflexivity|]. simpl. rewrite IH.
  now rewrite orb_assoc.
Qed.

Lemma hasInk_nonEmpty (s : string) : hasInk s = true -> strNonEmpty s = true.
Proof. destruct s; [discriminate|reflexivity]. Qed.

Lemma hasInk_trimStart (s : string) : hasInk (trimStart s) = hasInk s.
Proof.
  induction s as [|c s IH]; [reflexivity|]. simpl.
  destruct (isWhiteSpace c) eqn:E; [exact IH|]. simpl. now rewrite E.
Qed.

Lemma nonEmpty_trimStart (s : string) :
  strNonEmpty (trimStart s) = hasInk s.
Proof.
  induction s as [|c s IH]; [reflexivity|]. simpl.
  destruct (isWhiteSpace c) eqn:E; [exact IH|reflexivity].
Qed.

Lemma hasInk_revString (s acc : string) :
  hasInk (revString s acc) = hasInk s || hasInk acc.
Proof.
  revert acc. induction s as [|c s IH]; intros acc; [reflexivity|].
  simpl. rewrite IH. simpl.
  destruct (isWhiteSpace c), (hasInk s), (hasInk acc); reflexivity.
Qed.

Lemma nonEmpty_revString (s acc : string) :
  strNonEmpty (revString s acc) = strNonEmpty s || strNonEmpty acc.
Proof.
  revert acc. induction s as [|c s IH]; intros acc; [reflexivity|].
  simpl. rewrite IH. simpl. now rewrite orb_true_r.
Qed.

(** [trim] leaves a text exactly when the text has ink. *)
Lemma nonEmpty_trim (s : string) : strNonEmpty (trim s) = hasInk s.
Proof.
  unfold trim. rewrite nonEmpty_revString, orb_false_r.
  rewrite nonEmpty_trimStart, hasInk_revString, hasInk_trimStart.
  simpl. now rewrite orb_false_r.
Qed.

End InkFacts.

Section WeaveFacts.

Lemma weave_prefix (a c : string) (cs : list string) (k : string) :
  weave (a +++ c) cs k = a +++ weave c cs k.
Proof. destruct cs; simpl; [reflexivity|]. now rewrite append_assoc. Qed.

(** Two woven texts in a row are one woven text. *)
Lemma weave_app (c : string) (cs : list string) (c' : string)
    (cs' : list string) :
  exists c2 cs2,
    (forall k, weave c cs k +++ weave c' cs' k = weave c2 cs2 k)
    /\ (cs = [] -> cs' = [] -> cs2 = []).
Proof.
  revert c. induction cs as [|d rest IH]; intros c.
  - exists (c +++ c'), cs'. split.
    + intros k. now rewrite weave_prefix.
    + intros _ H. exact H.
  - destruct (IH d) as (d2 & r2 & Hw & _).
    exists c, (d2 :: r2). split.
    + intros k. simpl. rewrite !append_assoc. now rewrite Hw.
    + discriminate.
Qed.

Context {X : Type}.
Variable P : X -> Prop.
Variable core : X -> string.

Lemma inked_const (s : string) : inked P core (fun _ => s).
Proof. exists s, []. split; [reflexivity|now left]. Qed.

Lemma inked_app (f g : X -> string) :
  inked P core f -> inked P core g -> inked P core (fun x => f x +++ g x).
Proof.
  intros (c & cs & Hf & If) (c' & cs' & Hg & Ig).
  destruct (weave_app c cs c' cs') as (c2 & cs2 & Hw & Hnil).
  exists c2, cs2. split.
  - intros x Hx. now rewrite (Hf x Hx), (Hg x Hx), Hw.
  - destruct If as [->|If].
    + destruct Ig as [->|Ig].
      * left. now apply Hnil.
      * right. intros x Hx. rewrite hasInk_app, (Ig x Hx). apply orb_true_r.
    + right. intros x Hx. now rewrite hasInk_app, (If x Hx).
Qed.

(** Whether an inked text is blank, or empty, does not depend on [x]. *)
Lemma inked_blank (f : X -> string) :
  inked P core f ->
  (forall x, P x -> hasInk (f x) = true)
  \/ (forall x, P x -> hasInk (f x) = false).
Proof.
  intros (c & cs & Hf & [->|If]); [|now left].
  destruct (hasInk c) eqn:E; [left|right]; intros x Hx;
    now rewrite (Hf x Hx).
Qed.

Lemma inked_empty (f : X -> string) :
  inked P core f ->
  (forall x, P x -> strNonEmpty (f x) = true)
  \/ (forall x, P x -> f x = "").
Proof.
  intros (c & cs & Hf & [->|If]).
  - destruct c as [|a c]; [right|left]; intros x Hx; now rewrite (Hf x Hx).
  - left. intros x Hx. now apply hasInk_nonEmpty, If.
Qed.

Lemma inked_ext (f g : X -> string) :
  (forall x, P x -> g x = f x) -> inked P core f -> inked P core g.
Proof.
  intros He (c & cs & Hf & If). exists c, cs. split.
  - intros x Hx. now rewrite (He x Hx), (Hf x Hx).
  - destruct If as [->|If]; [now left|right].
    intros x Hx. now rewrite (He x Hx), (If x Hx).
Qed.

(** The texts of a list, joined. *)
Lemma inked_join (sep : string) (fs : list (X -> string)) :
  Forall (inked P core) fs ->
  inked P core (fun x => join sep (map (fun f => f x) fs)).
Proof.
  induction 1 as [|f fs Hf Hfs IH]; [exact (inked_const "")|].
  destruct fs as [|f' fs'].
  - simpl. eapply inked_ext; [|exact Hf]. reflexivity.
  - change (fun x => join sep (map (fun g => g x) (f :: f' :: fs')))
      with (fun x => f x +++ sep
                     +++ join sep (map (fun g => g x) (f' :: fs'))).
    apply inked_app; [exact Hf|].
    apply inked_app; [apply inked_const|exact IH].
Qed.

(** The texts a list of callbacks returns, the empty ones dropped and the
    rest joined: [xs.map(f).filter(Boolean).join(sep)]. *)
Lemma inkedOpt_gather (items : list (X -> option string)) :
  Forall (inkedOpt P core) items ->
  (forall x, P x -> mapM (fun g => g x) items = None)
  \/ exists fs,
       Forall (inked P core) fs
       /\ forall x, P x ->
            exists ms, mapM (fun g => g x) items = Some ms
                       /\ filter strNonEmpty ms = map (fun f => f x) fs.
Proof.
  induction 1 as [|g items Hg Hitems IH].
  - right. exists []. split; [constructor|]. intros x _. now exists [].
  - destruct Hg as [Hnone|(f & Hf & Hsome)].
    { left. intros x Hx. simpl. now rewrite (Hnone x Hx). }
    destruct IH as [Hrest|(fs & Hfs & Hms)].
    { left. intros x Hx. simpl. now rewrite (Hsome x Hx), (Hrest x Hx). }
    right. destruct (inked_empty f Hf) as [Hne|He].
    + exists (f :: fs). split; [now constructor|].
      intros x Hx. destruct (Hms x Hx) as (ms & Hm & Hfil).
      exists (f x :: ms). simpl. rewrite (Hsome x Hx), Hm.
      split; [reflexivity|]. now rewrite (Hne x Hx), Hfil.
    + exists fs. split; [exact Hfs|].
      intros x Hx. destruct (Hms x Hx) as (ms & Hm & Hfil).
      exists (f x :: ms). simpl. rewrite (Hsome x Hx), Hm.
      split; [reflexivity|]. now rewrite (He x Hx).
Qed.

Lemma inkedOpt_joined (sep : string) (items : list (X -> option string)) :
  Forall (inkedOpt P core) items ->
  inkedOpt P core
    (fun x => match mapM (fun g => g x) items with
              | Some ms => Some (join sep (filter strNonEmpty ms))
              | None => None
              end).
Proof.
  intros H. destruct (inkedOpt_gather items H) as [Hnone|(fs & Hfs & Hms)].
  - left. intros x Hx. now rewrite (Hnone x Hx).
  - right. exists (fun x => join sep (map (fun f => f x) fs)).
    split; [now apply inked_join|].
    intros x Hx. destruct (Hms x Hx) as (ms & -> & ->). reflexivity.
Qed.

End WeaveFacts.

Section SortSlotFacts.
Local Open Scope Q_scope.

(** Where the sort puts a block depends on the layout y of the block
    only. *)
Lemma insertByY_slot a p0 q0 b :
  exists p q,
    forall b', layout_y (block_layout b') = layout_y (block_layout b) ->
      insertByY a (p0 ++ b' :: q0) = p ++ b' :: q.
Proof.
  induction p0 as [|h p0 IH].
  - destruct (Qle_bool (layout_y (block_layout a))
                       (layout_y (block_layout b))) eqn:E.
    + exists [a], q0. intros b' Hy. cbn [app insertByY]. now rewrite Hy, E.
    + exists [], (insertByY a q0). intros b' Hy. cbn [app insertByY].
      now rewrite Hy, E.
  - destruct (Qle_bool (layout_y (block_layout a))
                       (layout_y (block_layout h))) eqn:E.
    + exists (a :: h :: p0), q0. intros b' _.
      change ((h :: p0) ++ b' :: q0) with (h :: (p0 ++ b' :: q0)).
      cbn [insertByY]. now rewrite E.
    + destruct IH as (p & q & H). exists (h :: p), q. intros b' Hy.
      change ((h :: p0) ++ b' :: q0) with (h :: (p0 ++ b' :: q0)).
      cbn [insertByY]. rewrite E. now rewrite (H b' Hy).
Qed.

Lemma insertByY_self s b :
  exists p q,
    forall b', layout_y (block_layout b') = layout_y (block_layout b) ->
      insertByY b' s = p ++ b' :: q.
Proof.
  induction s as [|h s IH].
  - exists [], []. reflexivity.
  - destruct (Qle_bool (layout_y (block_layout b))
                       (layout_y (block_layout h))) eqn:E.
    + exists [], (h :: s). intros b' Hy. cbn [insertByY]. now rewrite Hy, E.
    + destruct IH as (p & q & H). exists (h :: p), q. intros b' Hy.
      cbn [insertByY]. rewrite Hy, E. now rewrite (H b' Hy).
Qed.

Lemma sortByY_slot l1 l2 b :
  exists p q,
    forall b', layout_y (block_layout b') = layout_y (block_layout b) ->
      sortByY (l1 ++ b' :: l2) = p ++ b' :: q.
Proof.
  induction l1 as [|a l1 IH].
  - destruct (insertByY_self (sortByY l2) b) as (p & q & H).
    exists p, q. intros b' Hy. now apply H.
  - destruct IH as (p1 & q1 & H1).
    destruct (insertByY_slot a p1 q1 b) as (p & q & H).
    exists p, q. intros b' Hy.
    change (sortByY ((a :: l1) ++ b' :: l2))
      with (insertByY a (sortByY (l1 ++ b' :: l2))).
    rewrite (H1 b' Hy). now apply H.
Qed.

End SortSlotFacts.

Lemma mapM_map {A B C : Type} (f : B -> option C) (h : A -> B) (l : list A) :
  mapM f (map h l) = mapM (fun a => f (h a)) l.
Proof.
  induction l as [|a l IH]; [reflexivity|]. simpl. now rewrite IH.
Qed.

Lemma inkedOpt_ext {X : Type} (P : X -> Prop) (core : X -> string)
    (f g : X -> option string) :
  (forall x, P x -> g x = f x) -> inkedOpt P core f -> inkedOpt P core g.
Proof.
  intros He [Hn|(k & Hk & Hs)]; [left|right].
  - intros x Hx. now rewrite (He x Hx), (Hn x Hx).
  - exists k. split; [exact Hk|]. intros x Hx. now rewrite (He x Hx), (Hs x Hx).
Qed.

Lemma inkedOpt_const {X : Type} (P : X -> Prop) (core : X -> string)
    (r : option string) :
  inkedOpt P core (fun _ => r).
Proof.
  destruct r as [s|]; [right|now left].
  exists (fun _ => s). split; [apply inked_const|reflexivity].
Qed.

Section ExportWoven.
Local Open Scope Q_scope.

Variable numToString : number -> string.
Variable resolveStyles : BlockStyles -> list DesignToken -> BlockStyles.
Variable resolveColor : string -> list DesignToken -> option string.

Local Abbreviation blockMJML := (generateBlockMJML numToString resolveStyles).
Local Abbreviation section := (sectionOf numToString resolveStyles).
Local Abbreviation exportMJML :=
  (generateMJML numToString resolveStyles resolveColor).

Context {X : Type}.
Variable P : X -> Prop.
Variable core : X -> string.

(** The blocks [fam x] stand in the slot of [b0], which is no group and
    no shape; visible, they are rendered as [leaf x]. *)
Variable fam : X -> EditorBlock.
Variable b0 : EditorBlock.
Variable leaf : X -> string.
Variable variables : list DesignToken.
Variable l1 l2 : list EditorBlock.

Hypothesis Hslot : forall x, P x -> sameSlot b0 (fam x).
Hypothesis Hplain : block_type b0 <> TyGroup /\ block_type b0 <> TyShape.
Hypothesis Hleaf :
  isVisible b0 = true ->
  forall x, P x -> forall fuel all,
    blockMJML (S fuel) (fam x) all variables = Some (leaf x).
Hypothesis Hinked : inked P core leaf.

Local Abbreviation doc := (fun x => l1 ++ fam x :: l2).

Lemma family_markup fuel :
  inkedOpt P core (fun x => blockMJML fuel (fam x) (doc x) variables).
Proof.
  destruct fuel as [|fuel]; [now left|].
  destruct (isVisible b0) eqn:V.
  - right. exists leaf. split; [exact Hinked|].
    intros x Hx. now apply Hleaf.
  - right. exists (fun _ => ""). split; [apply inked_const|].
    intros x Hx. destruct (Hslot x Hx) as (_ & _ & Hv & _).
    cbn [generateBlockMJML]. now rewrite Hv, V.
Qed.

Lemma filter_doc (q : EditorBlock -> bool) :
  (forall x, P x -> q (fam x) = q b0) ->
  forall x, P x ->
    filter q (doc x)
    = filter q l1 ++ (if q b0 then fam x :: filter q l2 else filter q l2).
Proof.
  intros Hq x Hx. cbv beta. rewrite filter_app. cbn [filter].
  now rewrite (Hq x Hx).
Qed.

Lemma mapM_items (R : X -> EditorBlock -> option string)
    (p q : list EditorBlock) (x : X) :
  mapM (R x) (p ++ fam x :: q)
  = mapM (fun g => g x)
         (map (fun c x' => R x' c) p
          ++ (fun x' => R x' (fam x')) :: map (fun c x' => R x' c) q).
Proof.
  induction p as [|a p IH].
  - cbn [app map mapM]. now rewrite mapM_map.
  - cbn [app map mapM]. now rewrite IH.
Qed.

Lemma items_inked (R : X -> EditorBlock -> option string)
    (p q : list EditorBlock) :
  (forall b, inkedOpt P core (fun x => R x b)) ->
  inkedOpt P core (fun x => R x (fam x)) ->
  Forall (inkedOpt P core)
         (map (fun c x' => R x' c) p
          ++ (fun x' => R x' (fam x')) :: map (fun c x' => R x' c) q).
Proof.
  intros Hc Hf. apply Forall_app. split.
  - apply Forall_forall. intros g Hg. apply in_map_iff in Hg.
    destruct Hg as (c & <- & _). apply Hc.
  - constructor; [exact Hf|].
    apply Forall_forall. intros g Hg. apply in_map_iff in Hg.
    destruct Hg as (c & <- & _). apply Hc.
Qed.

(** The blocks of the document that [q] keeps, sorted and rendered by
    [R]: a list of texts each of which is inked. *)
Lemma sorted_items (R : X -> EditorBlock -> option string)
    (q : EditorBlock -> bool) :
  (forall x, P x -> q (fam x) = q b0) ->
  (forall b, inkedOpt P core (fun x => R x b)) ->
  inkedOpt P core (fun x => R x (fam x)) ->
  exists items,
    Forall (inkedOpt P core) items
    /\ (forall x, P x ->
          mapM (R x) (sortByY (filter q (doc x)))
          = mapM (fun g => g x) items)
    /\ ((forall x, P x ->
           (List.length (filter q (doc x)) =? 0)%nat = false)
        \/ (forall x, P x ->
              (List.length (filter q (doc x)) =? 0)%nat = true)).
Proof.
  intros Hq Hc Hf. pose proof (filter_doc q Hq) as Hfil.
  destruct (q b0); cbv iota in Hfil.
  - destruct (sortByY_slot (filter q l1) (filter q l2) b0) as (p & r & Hs).
    exists (map (fun c x' => R x' c) p
            ++ (fun x' => R x' (fam x')) :: map (fun c x' => R x' c) r).
    split; [now apply items_inked|]. split.
    + intros x Hx. rewrite (Hfil x Hx).
      destruct (Hslot x Hx) as (_ & _ & _ & _ & Hy).
      rewrite (Hs (fam x) Hy). apply mapM_items.
    + left. intros x Hx. rewrite (Hfil x Hx), length_app. cbn [List.length].
      apply Nat.eqb_neq. lia.
  - exists (map (fun c x' => R x' c) (sortByY (filter q l1 ++ filter q l2))).
    split; [|split].
    + apply Forall_forall. intros g Hg. apply in_map_iff in Hg.
      destruct Hg as (c & <- & _). apply Hc.
    + intros x Hx. rewrite (Hfil x Hx). now rewrite mapM_map.
    + destruct (filter q l1 ++ filter q l2) as [|a rest] eqn:E.
      * right. intros x Hx. now rewrite (Hfil x Hx).
      * left. intros x Hx. now rewrite (Hfil x Hx).
Qed.

(** The markup of every block of the document. *)
Lemma block_markup fuel :
  forall b, inkedOpt P core (fun x => blockMJML fuel b (doc x) variables).
Proof.
  induction fuel as [|fuel IH]; intros b; [now left|].
  cbn [generateBlockMJML].
  destruct (negb (isVisible b)); [apply inkedOpt_const|].
  destruct (block_type b); try apply inkedOpt_const.
  unfold generateGroupMJML.
  destruct (sorted_items
              (fun x child => blockMJML fuel child (doc x) variables)
              (fun c => optStrEq (parentId c) (block_id b)))
    as (items & Hitems & Hmap & [Hlen|Hlen]).
  - intros x Hx. destruct (Hslot x Hx) as (_ & _ & _ & Hp & _).
    now rewrite Hp.
  - exact IH.
  - apply family_markup.
  - eapply inkedOpt_ext; [|apply (inkedOpt_joined P core nl items Hitems)].
    intros x Hx. cbv beta. rewrite (Hlen x Hx). now rewrite (Hmap x Hx).
  - eapply inkedOpt_ext; [|apply (inkedOpt_const P core (Some ""))].
    intros x Hx. cbv beta. now rewrite (Hlen x Hx).
Qed.

(** The section wrapper around an inked markup. *)
Lemma wrap_inked (g : X -> string) (bf : X -> EditorBlock) (shape grp : bool) :
  inked P core g ->
  (forall x, P x ->
     BlockType_eqb (block_type (bf x)) TyShape
     && negb (String.eqb (block_content (bf x)) "line") = shape) ->
  (forall x, P x -> BlockType_eqb (block_type (bf x)) TyGroup = grp) ->
  inked P core (fun x => wrapInSection (g x) (bf x)).
Proof.
  intros Hg Hshape Hgrp. unfold wrapInSection.
  destruct (inked_blank P core g Hg) as [Hink|Hblank].
  - assert (Hcases :
      inked P core
        (fun x => if shape then g x
                  else if grp then g x
                  else "    <mj-section padding=" +++ dq +++ "0" +++ dq +++ ">"
                       +++ nl +++ "      <mj-column>" +++ nl
                       +++ "        " +++ g x +++ nl
                       +++ "      </mj-column>" +++ nl
                       +++ "    </mj-section>")).
    { destruct shape; [exact Hg|]. destruct grp; [exact Hg|].
      repeat (apply inked_app; [apply inked_const|]).
      apply inked_app; [exact Hg|apply inked_const]. }
    eapply inked_ext; [|exact Hcases].
    intros x Hx. cbv beta.
    rewrite nonEmpty_trim, (Hink x Hx), (Hshape x Hx), (Hgrp x Hx).
    reflexivity.
  - eapply inked_ext; [|apply (inked_const P core "")].
    intros x Hx. cbv beta. now rewrite nonEmpty_trim, (Hblank x Hx).
Qed.

Lemma section_markup fuel (bf : X -> EditorBlock) (shape grp : bool) :
  inkedOpt P core (fun x => blockMJML fuel (bf x) (doc x) variables) ->
  (forall x, P x ->
     BlockType_eqb (block_type (bf x)) TyShape
     && negb (String.eqb (block_content (bf x)) "line") = shape) ->
  (forall x, P x -> BlockType_eqb (block_type (bf x)) TyGroup = grp) ->
  inkedOpt P core (fun x => section fuel (doc x) variables (bf x)).
Proof.
  intros [Hn|(g & Hg & Hs)] Hshape Hgrp; unfold sectionOf.
  - left. intros x Hx. now rewrite (Hn x Hx).
  - right. exists (fun x => wrapInSection (g x) (bf x)).
    split; [now apply (wrap_inked g bf shape grp)|].
    intros x Hx. now rewrite (Hs x Hx).
Qed.

(** The document holds nothing of [x] but [core x]. *)
Lemma export_woven fuel settings :
  reachesOnlyAs P core
    (fun x => exportMJML fuel (doc x) settings variables).
Proof.
  unfold generateMJML.
  destruct (sorted_items
              (fun x => section fuel (doc x) variables)
              (fun b => falsy (parentId b)))
    as (items & Hitems & Hmap & _).
  - intros x Hx. destruct (Hslot x Hx) as (_ & _ & _ & Hp & _).
    now rewrite Hp.
  - intros b.
    apply (section_markup fuel (fun _ => b)
             (BlockType_eqb (block_type b) TyShape
              && negb (String.eqb (block_content b) "line"))
             (BlockType_eqb (block_type b) TyGroup));
      [apply block_markup|reflexivity|reflexivity].
  - apply (section_markup fuel fam false false).
    + apply family_markup.
    + intros x Hx. destruct (Hslot x Hx) as (_ & Ht & _). rewrite Ht.
      destruct Hplain as [_ Hs]. destruct (block_type b0); try reflexivity.
      congruence.
    + intros x Hx. destruct (Hslot x Hx) as (_ & Ht & _). rewrite Ht.
      destruct Hplain as [Hg _]. destruct (block_type b0); try reflexivity.
      congruence.
  - destruct (inkedOpt_gather P core items Hitems)
      as [Hnone|(fs & Hfs & Hms)].
    + left. intros x Hx. cbv beta. now rewrite (Hmap x Hx), (Hnone x Hx).
    + right.
      assert (Hdoc : inked P core
        (fun x => documentHead numToString settings
                    (orDefault
                       (resolveColor (backgroundColor settings) variables)
                       "#ffffff")
                  +++ join nl (map (fun f => f x) fs) +++ documentTail)).
      { apply inked_app; [apply inked_const|].
        apply inked_app; [now apply inked_join|apply inked_const]. }
      destruct Hdoc as (c & cs & Hc & _). exists c, cs.
      intros x Hx. cbv beta. rewrite (Hmap x Hx).
      destruct (Hms x Hx) as (ms & -> & ->). now rewrite <- (Hc x Hx).
Qed.

End ExportWoven.

Section WovenFacts.
Context {X : Type}.
Variable P : X -> Prop.
Variable core : X -> string.

Lemma woven_const (s : string) : wovenWhen P core (fun _ => s).
Proof. now exists s, []. Qed.

Lemma woven_core : wovenWhen P core core.
Proof. exists "", [""]. intros x _. simpl. now rewrite append_nil_r. Qed.

Lemma woven_app (f g : X -> string) :
  wovenWhen P core f -> wovenWhen P core g ->
  wovenWhen P core (fun x => f x +++ g x).
Proof.
  intros (c & cs & Hf) (c' & cs' & Hg).
  destruct (weave_app c cs c' cs') as (c2 & cs2 & Hw & _).
  exists c2, cs2. intros x Hx. now rewrite (Hf x Hx), (Hg x Hx), Hw.
Qed.

Lemma woven_ext (f g : X -> string) :
  (forall x, P x -> g x = f x) -> wovenWhen P core f -> wovenWhen P core g.
Proof.
  intros He (c & cs & Hf). exists c, cs.
  intros x Hx. now rewrite (He x Hx), (Hf x Hx).
Qed.

(** A text framed around a woven text is woven. *)
Lemma woven_framed (mid f : X -> string) :
  framedWhen P mid f -> wovenWhen P core mid -> wovenWhen P core f.
Proof.
  intros (pre & post & Hf) Hmid.
  apply (woven_ext (fun x => pre +++ mid x +++ post)); [exact Hf|].
  apply woven_app; [apply woven_const|].
  apply woven_app; [exact Hmid|apply woven_const].
Qed.

(** The texts of a list joined, one of them woven and the others fixed. *)
Lemma woven_join_at (sep : string) (before after : list string)
    (e : X -> string) :
  wovenWhen P core e ->
  wovenWhen P core (fun x => join sep (before ++ e x :: after)).
Proof.
  intros He. induction before as [|a before IH].
  - destruct after as [|a' after].
    + apply (woven_ext e); [reflexivity|exact He].
    + apply (woven_ext (fun x => e x +++ sep +++ join sep (a' :: after)));
        [reflexivity|].
      apply woven_app; [exact He|apply woven_const].
  - apply (woven_ext
             (fun x => a +++ sep +++ join sep (before ++ e x :: after))).
    + intros x _. cbn [app join].
      destruct (before ++ e x :: after) eqn:E; [|reflexivity].
      now destruct before.
    + apply woven_app; [apply woven_const|].
      apply woven_app; [apply woven_const|exact IH].
Qed.

Lemma inked_of_woven (f : X -> string) :
  wovenWhen P core f -> (forall x, P x -> hasInk (f x) = true) ->
  inked P core f.
Proof.
  intros (c & cs & Hf) Hink. exists c, cs. split; [exact Hf|now right].
Qed.

End WovenFacts.

Lemma mapi_from_app {A B : Type} (f : A -> nat -> B) (l l' : list A) (i : nat) :
  mapi_from i f (l ++ l')
  = mapi_from i f l ++ mapi_from (i + List.length l) f l'.
Proof.
  revert i. induction l as [|a l IH]; intros i; simpl.
  - now rewrite Nat.add_0_r.
  - rewrite IH. do 3 f_equal. lia.
Qed.

Section FieldsReachDocument.
Local Open Scope Q_scope.

Variable numToString : number -> string.
Variable resolveStyles : BlockStyles -> list DesignToken -> BlockStyles.
Variable resolveColor : string -> list DesignToken -> option string.

Local Abbreviation exportMJML :=
  (generateMJML numToString resolveStyles resolveColor).

Lemma text_content_reaches b l1 l2 fuel settings variables :
  block_type b = TyText ->
  reachesOnlyAs (fun _ => True) escapeHtml
    (fun c => exportMJML fuel (l1 ++ with_content b c :: l2)
                         settings variables).
Proof.
  intros Ht.
  apply (export_woven numToString resolveStyles resolveColor
           (fun _ => True) escapeHtml (fun c => with_content b c) b
           (fun c => generateTextMJML resolveStyles (with_content b c)
                                      variables)
           variables l1 l2).
  - intros x _. repeat split.
  - rewrite Ht. split; discriminate.
  - intros V x _ fuel' all.
    cbn [generateBlockMJML with_content isVisible block_type].
    now rewrite V, Ht.
  - apply inked_of_woven.
    + apply (woven_framed _ _ (fun c => escapeHtml c));
        [apply text_content_escaped|apply woven_core].
    + intros x _. reflexivity.
Qed.

Lemma button_label_reaches b l1 l2 fuel settings variables :
  block_type b = TyButton ->
  reachesOnlyAs (fun _ => True) escapeHtml
    (fun c => exportMJML fuel (l1 ++ with_content b c :: l2)
                         settings variables).
Proof.
  intros Ht.
  apply (export_woven numToString resolveStyles resolveColor
           (fun _ => True) escapeHtml (fun c => with_content b c) b
           (fun c => generateButtonMJML resolveStyles (with_content b c)
                                        variables)
           variables l1 l2).
  - intros x _. repeat split.
  - rewrite Ht. split; discriminate.
  - intros V x _ fuel' all.
    cbn [generateBlockMJML with_content isVisible block_type].
    now rewrite V, Ht.
  - apply inked_of_woven.
    + apply (woven_framed _ _ (fun c => escapeHtml c));
        [apply button_label_escaped|apply woven_core].
    + intros x _. reflexivity.
Qed.

Lemma button_href_reaches b l1 l2 fuel settings variables :
  block_type b = TyButton ->
  reachesOnlyAs (fun _ => True) (fun h => escapeHtml (orDefault (Some h) "#"))
    (fun h => exportMJML fuel (l1 ++ with_link b (Some h) :: l2)
                         settings variables).
Proof.
  intros Ht.
  apply (export_woven numToString resolveStyles resolveColor
           (fun _ => True) (fun h => escapeHtml (orDefault (Some h) "#"))
           (fun h => with_link b (Some h)) b
           (fun h => generateButtonMJML resolveStyles (with_link b (Some h))
                                        variables)
           variables l1 l2).
  - intros x _. repeat split.
  - rewrite Ht. split; discriminate.
  - intros V x _ fuel' all.
    cbn [generateBlockMJML with_link isVisible block_type].
    now rewrite V, Ht.
  - apply inked_of_woven.
    + apply (woven_framed _ _
               (fun h => escapeHtml (orDefault (Some h) "#")));
        [apply button_href_escaped|apply woven_core].
    + intros x _. reflexivity.
Qed.

Lemma image_src_reaches b l1 l2 fuel settings variables :
  block_type b = TyImage ->
  reachesOnlyAs (fun src => startsWith src "blob:" = false) escapeHtml
    (fun src => exportMJML fuel (l1 ++ with_content b src :: l2)
                           settings variables).
Proof.
  intros Ht.
  apply (export_woven numToString resolveStyles resolveColor
           (fun src => startsWith src "blob:" = false) escapeHtml
           (fun src => with_content b src) b
           (fun src => generateImageMJML numToString resolveStyles
                                         (with_content b src) variables)
           variables l1 l2).
  - intros x _. repeat split.
  - rewrite Ht. split; discriminate.
  - intros V x _ fuel' all.
    cbn [generateBlockMJML with_content isVisible block_type].
    now rewrite V, Ht.
  - apply inked_of_woven.
    + apply (woven_framed _ _ (fun c => escapeHtml c));
        [apply image_src_escaped|apply woven_core].
    + intros x Hx. unfold generateImageMJML.
      cbn [with_content block_content]. now rewrite Hx.
Qed.

Lemma image_alt_reaches b l1 l2 fuel settings variables :
  block_type b = TyImage ->
  reachesOnlyAs (fun _ => True)
    (fun n => escapeHtml (orDefault (Some n) "Image"))
    (fun n => exportMJML fuel (l1 ++ with_name b n :: l2)
                         settings variables).
Proof.
  intros Ht.
  apply (export_woven numToString resolveStyles resolveColor
           (fun _ => True) (fun n => escapeHtml (orDefault (Some n) "Image"))
           (fun n => with_name b n) b
           (fun n => generateImageMJML numToString resolveStyles
                                       (with_name b n) variables)
           variables l1 l2).
  - intros x _. repeat split.
  - rewrite Ht. split; discriminate.
  - intros V x _ fuel' all.
    cbn [generateBlockMJML with_name isVisible block_type].
    now rewrite V, Ht.
  - destruct (startsWith (block_content b) "blob:") eqn:Hsrc.
    + apply (inked_ext _ _
               (fun _ => generateImageMJML numToString resolveStyles b
                                           variables));
        [|apply inked_const].
      intros n _. unfold generateImageMJML.
      cbn [with_name block_content]. now rewrite Hsrc.
    + apply inked_of_woven.
      * apply (woven_framed _ _
                 (fun n => escapeHtml (orDefault (Some n) "Image")));
          [now apply image_alt_escaped|apply woven_core].
      * intros x _. unfold generateImageMJML.
        cbn [with_name block_content]. now rewrite Hsrc.
Qed.

(** The source of a local upload is replaced by a notice. *)
Lemma image_blob_src_dropped b l1 l2 fuel settings variables :
  block_type b = TyImage ->
  reachesOnlyAs (fun src => startsWith src "blob:" = true) (fun _ => "")
    (fun src => exportMJML fuel (l1 ++ with_content b src :: l2)
                           settings variables).
Proof.
  intros Ht.
  apply (export_woven numToString resolveStyles resolveColor
           (fun src => startsWith src "blob:" = true) (fun _ => "")
           (fun src => with_content b src) b
           (fun src => generateImageMJML numToString resolveStyles
                                         (with_content b src) variables)
           variables l1 l2).
  - intros x _. repeat split.
  - rewrite Ht. split; discriminate.
  - intros V x _ fuel' all.
    cbn [generateBlockMJML with_content isVisible block_type].
    now rewrite V, Ht.
  - apply (inked_ext _ _
             (fun _ => generateImageMJML numToString resolveStyles
                         (with_content b "blob:") variables));
      [|apply inked_const].
    intros src Hsrc. unfold generateImageMJML.
    cbn [with_content block_content]. rewrite Hsrc. reflexivity.
Qed.

Lemma socialElement_networks sd ps size pad profile :
  socialElement (setNetworks sd ps) size pad profile
  = socialElement sd size pad profile.
Proof. reflexivity. Qed.

Lemma social_href_reaches b sd ps1 ps2 net l1 l2 fuel settings variables :
  block_type b = TySocial ->
  reachesOnlyAs (fun _ => True) (fun u => escapeHtml (orDefault (Some u) "#"))
    (fun u => exportMJML fuel
                (l1 ++ with_networks b sd
                         (ps1 ++ mkSocialProfile net true u :: ps2) :: l2)
                settings variables).
Proof.
  intros Ht.
  apply (export_woven numToString resolveStyles resolveColor
           (fun _ => True) (fun u => escapeHtml (orDefault (Some u) "#"))
           (fun u => with_networks b sd
                       (ps1 ++ mkSocialProfile net true u :: ps2)) b
           (fun u => generateSocialMJML numToString
                       (with_networks b sd
                          (ps1 ++ mkSocialProfile net true u :: ps2))
                       variables)
           variables l1 l2).
  - intros x _. repeat split.
  - rewrite Ht. split; discriminate.
  - intros V x _ fuel' all.
    cbn [generateBlockMJML with_networks isVisible block_type].
    now rewrite V, Ht.
  - apply inked_of_woven.
    + destruct (social_elements_framed numToString b variables sd)
        as (size & pad & pre & post & Hfr).
      apply (woven_ext _ _
               (fun u => pre
                  +++ join (nl +++ "      ")
                        (map (socialElement sd size pad) (filter enabled ps1)
                         ++ socialElement sd size pad
                              (mkSocialProfile net true u)
                            :: map (socialElement sd size pad)
                                   (filter enabled ps2))
                  +++ post)).
      * intros u _. rewrite Hfr.
        -- rewrite filter_app. cbn [filter enabled]. rewrite map_app.
           cbn [map]. f_equal.
        -- rewrite filter_app. cbn [filter enabled].
           destruct (filter enabled ps1); discriminate.
      * apply woven_app; [apply woven_const|].
        apply woven_app; [|apply woven_const].
        apply woven_join_at.
        apply (woven_framed _ _
                 (fun u => escapeHtml (orDefault (Some u) "#")));
          [apply social_href_escaped|apply woven_core].
    + intros u _. unfold generateSocialMJML. cbn [with_networks socialData].
      destruct (List.length _ =? 0)%nat; reflexivity.
Qed.

Lemma table_cell_reaches b td rows1 r1 r2 rows2 l1 l2 fuel settings variables :
  block_type b = TyTable ->
  reachesOnlyAs (fun _ => True) escapeHtml
    (fun cell => exportMJML fuel
                   (l1 ++ with_cells b td
                            (rows1 ++ (r1 ++ cell :: r2) :: rows2) :: l2)
                   settings variables).
Proof.
  intros Ht.
  apply (export_woven numToString resolveStyles resolveColor
           (fun _ => True) escapeHtml
           (fun cell => with_cells b td
                          (rows1 ++ (r1 ++ cell :: r2) :: rows2)) b
           (fun cell => generateTableMJML resolveStyles
                          (with_cells b td
                             (rows1 ++ (r1 ++ cell :: r2) :: rows2))
                          variables)
           variables l1 l2).
  - intros x _. repeat split.
  - rewrite Ht. split; discriminate.
  - intros V x _ fuel' all.
    cbn [generateBlockMJML with_cells isVisible block_type].
    now rewrite V, Ht.
  - apply inked_of_woven.
    + destruct (table_rows_framed resolveStyles b variables td)
        as (bc & bg & pre & post & Hfr).
      apply (woven_ext _ _
               (fun cell => pre
                  +++ join (nl +++ "        ")
                        (mapi_from 0
                           (fun row rowIndex =>
                              "<tr>"
                              +++ join "" (map (tableCell bc bg
                                                  (hasHeader td
                                                   && (rowIndex =? 0)%nat))
                                               row)
                              +++ "</tr>") rows1
                         ++ ("<tr>"
                             +++ join ""
                                   (map (tableCell bc bg
                                           (hasHeader td
                                            && (0 + List.length rows1 =? 0)%nat))
                                        r1
                                    ++ tableCell bc bg
                                         (hasHeader td
                                          && (0 + List.length rows1 =? 0)%nat)
                                         cell
                                       :: map (tableCell bc bg
                                                 (hasHeader td
                                                  && (0 + List.length rows1
                                                      =? 0)%nat))
                                              r2)
                             +++ "</tr>")
                            :: mapi_from (S (0 + List.length rows1))
                                 (fun row rowIndex =>
                                    "<tr>"
                                    +++ join "" (map (tableCell bc bg
                                                        (hasHeader td
                                                         && (rowIndex =? 0)%nat))
                                                     row)
                                    +++ "</tr>") rows2)
                  +++ post)).
      * intros cell _. rewrite Hfr by (destruct rows1; discriminate).
        unfold mapi. rewrite mapi_from_app. cbn [mapi_from].
        rewrite map_app. cbn [map]. do 2 f_equal.
      * apply woven_app; [apply woven_const|].
        apply woven_app; [|apply woven_const].
        apply woven_join_at.
        apply woven_app; [apply woven_const|].
        apply woven_app; [|apply woven_const].
        apply woven_join_at.
        apply (woven_framed _ _ (fun c => escapeHtml c));
          [apply table_cell_escaped|apply woven_core].
    + intros cell _. unfold generateTableMJML. cbn [with_cells tableData].
      destruct (List.length _ =? 0)%nat; reflexivity.
Qed.

Lemma list_item_reaches b ld its1 its2 l1 l2 fuel settings variables :
  block_type b = TyList ->
  reachesOnlyAs (fun _ => True) escapeHtml
    (fun item => exportMJML fuel
                   (l1 ++ with_items b ld (its1 ++ item :: its2) :: l2)
                   settings variables).
Proof.
  intros Ht.
  apply (export_woven numToString resolveStyles resolveColor
           (fun _ => True) escapeHtml
           (fun item => with_items b ld (its1 ++ item :: its2)) b
           (fun item => generateListMJML numToString resolveStyles
                          (with_items b ld (its1 ++ item :: its2)) variables)
           variables l1 l2).
  - intros x _. repeat split.
  - rewrite Ht. split; discriminate.
  - intros V x _ fuel' all.
    cbn [generateBlockMJML with_items isVisible block_type].
    now rewrite V, Ht.
  - apply inked_of_woven.
    + destruct (list_items_framed numToString resolveStyles b variables ld)
        as (isNumbered & marker & pre & post & Hfr).
      apply (woven_ext _ _
               (fun item => pre
                  +++ join "<br/>"
                        (mapi_from 0 (listItem numToString isNumbered marker)
                                   its1
                         ++ listItem numToString isNumbered marker item
                                     (0 + List.length its1)
                            :: mapi_from (S (0 + List.length its1))
                                 (listItem numToString isNumbered marker)
                                 its2)
                  +++ post)).
      * intros item _. rewrite Hfr by (destruct its1; discriminate).
        unfold mapi. rewrite mapi_from_app. reflexivity.
      * apply woven_app; [apply woven_const|].
        apply woven_app; [|apply woven_const].
        apply woven_join_at.
        apply (woven_framed _ _ (fun c => escapeHtml c));
          [apply list_item_escaped|apply woven_core].
    + intros item _. unfold generateListMJML. cbn [with_items listData].
      destruct (List.length _ =? 0)%nat; reflexivity.
Qed.

(** The address of a profile that is not enabled is left out. *)
Lemma social_disabled_dropped b sd ps1 ps2 net l1 l2 fuel settings variables :
  block_type b = TySocial ->
  reachesOnlyAs (fun _ => True) (fun _ => "")
    (fun u => exportMJML fuel
                (l1 ++ with_networks b sd
                         (ps1 ++ mkSocialProfile net false u :: ps2) :: l2)
                settings variables).
Proof.
  intros Ht.
  apply (export_woven numToString resolveStyles resolveColor
           (fun _ => True) (fun _ => "")
           (fun u => with_networks b sd
                       (ps1 ++ mkSocialProfile net false u :: ps2)) b
           (fun u => generateSocialMJML numToString
                       (with_networks b sd
                          (ps1 ++ mkSocialProfile net false u :: ps2))
                       variables)
           variables l1 l2).
  - intros x _. repeat split.
  - rewrite Ht. split; discriminate.
  - intros V x _ fuel' all.
    cbn [generateBlockMJML with_networks isVisible block_type].
    now rewrite V, Ht.
  - apply (inked_ext _ _
             (fun _ => generateSocialMJML numToString
                         (with_networks b sd (ps1 ++ ps2)) variables));
      [|apply inked_const].
    intros u _. unfold generateSocialMJML.
    cbn [with_networks socialData networks setNetworks].
    rewrite !filter_app. cbn [filter enabled]. reflexivity.
Qed.

Lemma export_returns blocks settings variables depth n fuel :
  nestingBounded blocks depth n -> (n <= fuel)%nat ->
  exists doc, exportMJML fuel blocks settings variables = Some doc.
Proof.
  intros Hwf Hn.
  destruct (mapM_total (sectionOf numToString resolveStyles fuel blocks
                                  variables)
                       (sortByY (filter (fun b => falsy (parentId b)) blocks)))
    as (secs & Hsecs).
  { intros b Hb. apply (proj1 (sortByY_In _ _)) in Hb.
    apply filter_In in Hb.
    apply (sectionOf_total numToString resolveStyles blocks variables
                           depth n fuel Hwf Hn). tauto. }
  unfold generateMJML. rewrite Hsecs. now eexists.
Qed.

End FieldsReachDocument.

Lemma framed_core_ext {X : Type} (P : X -> Prop) (core core' f : X -> string) :
  (forall x, P x -> core x = core' x) ->
  framedWhen P core f -> framedWhen P core' f.
Proof.
  intros He (pre & post & H). exists pre, post.
  intros x Hx. now rewrite (H x Hx), (He x Hx).
Qed.

(** A style value is not escaped: with the resolver of the sources, the
    font family of a text block stands in the document as it is. *)
Lemma text_font_family_raw numToString b rest l1 l2 fuel settings variables :
  block_type b = TyText ->
  reachesOnlyAs (fun v => strNonEmpty v = true) (fun v => v)
    (fun v => generateMJML numToString VariableResolver.resolveStyles
                VariableResolver.resolveGivenColor fuel
                (l1 ++ with_styles b (("fontFamily", v) :: rest) :: l2)
                settings variables).
Proof.
  intros Ht.
  apply (export_woven numToString VariableResolver.resolveStyles
           VariableResolver.resolveGivenColor
           (fun v => strNonEmpty v = true) (fun v => v)
           (fun v => with_styles b (("fontFamily", v) :: rest)) b
           (fun v => generateTextMJML VariableResolver.resolveStyles
                       (with_styles b (("fontFamily", v) :: rest)) variables)
           variables l1 l2).
  - intros x _. repeat split.
  - rewrite Ht. split; discriminate.
  - intros V x _ fuel' all.
    cbn [generateBlockMJML with_styles isVisible block_type].
    now rewrite V, Ht.
  - apply inked_of_woven.
    + apply (woven_framed _ _ (fun v => v)); [|apply woven_core].
      apply (framed_core_ext _
               (fun v => orDefault (Some v) "Arial, sans-serif")).
      * intros v Hv. unfold orDefault. now rewrite Hv.
      * unfold generateTextMJML.
        cbn [with_styles block_styles block_content].
        cbv [VariableResolver.resolveStyles]. cbn [map].
        change (VariableResolver.isColorKey "fontFamily") with false.
        cbv iota. cbn [style_get].
        change ("color" =? "fontFamily")%string with false.
        change ("fontSize" =? "fontFamily")%string with false.
        change ("fontFamily" =? "fontFamily")%string with true.
        change ("fontWeight" =? "fontFamily")%string with false.
        change ("textAlign" =? "fontFamily")%string with false.
        change ("lineHeight" =? "fontFamily")%string with false.
        change ("padding" =? "fontFamily")%string with false.
        cbv iota. framed.
    + intros v _. reflexivity.
Qed.



